(** * Easy3D dense small-matrix core ([easy3d/core/mat.h]): a shallow embedding

    The C++ class template [Mat<N, M, T>] stores [N * M] scalars of type [T]
    in a flat buffer [m_], column-major ([MATRIX_ROW_MAJOR] is not defined):
    element [(row, col)] is [m_[col * N + row]].  The template parameters
    [N] and [M] become explicit arguments, the scalar type [T] a type class
    with the operations the header applies to [T], and every [for] loop a
    fold over its index range. *)

From Stdlib Require Import String.
From Stdlib Require Import ZArith QArith Qcanon Qcabs Field.
From Stdlib Require Import Reals Lra.
From Stdlib Require Import Floats Uint63.
From Stdlib Require Import List Arith Lia Bool.
Import ListNotations.

(* Numerals and operators without a scope mark are those of [nat]. *)
Close Scope R_scope.
Close Scope Qc_scope.
Close Scope Q_scope.
Close Scope Z_scope.
Close Scope float_scope.
Close Scope uint63_scope.
Close Scope string_scope.
Open Scope nat_scope.

Set Implicit Arguments.

(** ** The scalar type [T] of the templates *)

(** The operations [mat.h] uses on its scalar parameter.  [indet] stands for
    the content of storage that was declared but never assigned
    ([Mat() = default] "intentionally" leaves the elements uninitialised). *)
Class Scalar (T : Type) := {
  zero  : T;                    (* T(0) *)
  one   : T;                    (* T(1) *)
  add   : T -> T -> T;          (* a + b *)
  sub   : T -> T -> T;          (* a - b *)
  mul   : T -> T -> T;          (* a * b *)
  div   : T -> T -> T;          (* a / b *)
  neg   : T -> T;               (* -a *)
  sabs  : T -> T;               (* std::abs(a) *)
  sltb  : T -> T -> bool;       (* a < b *)
  sleb  : T -> T -> bool;       (* a <= b *)
  seqb  : T -> T -> bool;       (* a == b *)
  of_size_t : nat -> T;         (* static_cast<T>(i) of a size_t i *)
  indet : T
}.

(** [epsilon<T>()] and [min<T>()] of [easy3d/core/constant.h]; that header is
    not among the sources, so both values are parameters of the model. *)
Class Constants (T : Type) := {
  epsilon : T;
  min_    : T
}.

(** [std::sqrt], and [std::cos] and [std::sin], of [<cmath>]. *)
Class SqrtOp (T : Type) := { ssqrt : T -> T }.
Class TrigOp (T : Type) := { scos : T -> T; ssin : T -> T }.

(** What a function body yields: a value, or nothing the language defines
    because it read a local variable that was declared and never assigned. *)
Inductive outcome (A : Type) : Type :=
| Ret (a : A)
| Undef.
Arguments Ret {A} a.
Arguments Undef {A}.

Declare Scope scalar_scope.
Delimit Scope scalar_scope with sc.
Infix "[+]" := add (at level 50, left associativity) : scalar_scope.
Infix "[-]" := sub (at level 50, left associativity) : scalar_scope.
Infix "[*]" := mul (at level 40, left associativity) : scalar_scope.
Infix "[/]" := div (at level 40, left associativity) : scalar_scope.
Notation "[~] x" := (neg x) (at level 35, right associativity) : scalar_scope.
Infix "[<]" := sltb (at level 60, no associativity) : scalar_scope.
Infix "[<=]" := sleb (at level 60, no associativity) : scalar_scope.
Infix "[==]" := seqb (at level 60, no associativity) : scalar_scope.
(** [a > b] and [a >= b] are the same comparisons with the operands exchanged. *)
Notation "a [>] b" := (sltb b a) (at level 60, no associativity) : scalar_scope.
Notation "a [>=] b" := (sleb b a) (at level 60, no associativity) : scalar_scope.
Local Open Scope scalar_scope.

(** ** Loops *)

(** [for (size_t i = lo; i < lo + n; ++i) s = body i s]. *)
Fixpoint for_loop {S : Type} (n lo : nat) (body : nat -> S -> S) (s : S) : S :=
  match n with
  | 0 => s
  | Datatypes.S n' => for_loop n' (Datatypes.S lo) body (body lo s)
  end.

(** [for (size_t i = lo; i < hi; ++i) ...] *)
Definition for_range {S : Type} (lo hi : nat) (body : nat -> S -> S) (s : S) : S :=
  for_loop (hi - lo) lo body s.

(** A loop whose body may [return]: [inr r] leaves the function with [r],
    [inl s] goes on with the state [s]. *)
Fixpoint for_loop_ret {S R : Type} (n lo : nat) (body : nat -> S -> S + R) (s : S)
  : S + R :=
  match n with
  | 0 => inl s
  | Datatypes.S n' =>
      match body lo s with
      | inl s' => for_loop_ret n' (Datatypes.S lo) body s'
      | inr r => inr r
      end
  end.

Definition for_range_ret {S R : Type} (lo hi : nat) (body : nat -> S -> S + R) (s : S)
  : S + R :=
  for_loop_ret (hi - lo) lo body s.

(** [size_t i = N; do { --i; s = body i s; } while (i != 0);] for [N >= 1]
    (an array [T m_[0]] is ill-formed, so the templates are never instantiated
    at [N = 0]). *)
Fixpoint do_down {S : Type} (n : nat) (body : nat -> S -> S) (s : S) : S :=
  match n with
  | 0 => s
  | Datatypes.S i => do_down i body (body i s)
  end.

(** ** Flat buffers *)

(** [buf[i] = v]; a write outside the buffer is a precondition violation
    in the source and changes nothing here. *)
Fixpoint upd {T : Type} (i : nat) (v : T) (buf : list T) : list T :=
  match buf, i with
  | [], _ => []
  | _ :: tl, 0 => v :: tl
  | x :: tl, Datatypes.S i' => x :: upd i' v tl
  end.

(** ** The class template [Mat<N, M, T>] and the functions on it *)

Section Model.
Context {T : Type} {ST : Scalar T}.

(** The member [T m_[N * M]]. *)
Definition Mat := list T.

(** [Mat() = default]: [N * M] slots of indeterminate content. *)
Definition Mat_default (N M : nat) : Mat := repeat indet (N * M).

(** [operator()(row, col) const]: [m_[col * N + row]] (column-major). *)
Definition at_ (N M : nat) (m : Mat) (row col : nat) : T :=
  nth (col * N + row) m indet.

(** The assignment [this(row, col) = v]. *)
Definition set_ (N M : nat) (m : Mat) (row col : nat) (v : T) : Mat :=
  upd (col * N + row) v m.

(** A buffer of the size its type promises. *)
Definition wf (N M : nat) (m : Mat) : Prop := length m = N * M.

(** Modelled from the spec: the vector type [Vec<N, T>] of [vec.h], which is
    not among the sources ("fixed-size numeric tuple supporting indexing,
    arithmetic"): a tuple is the list of its components, [v[i]] is [vec_at],
    [v * s] and [v /= s] work component by component, [Vec<4, T>(v, w)]
    appends [w] and [Vec<3, T>(p)] reads three components from [p]. *)
Definition Vec := list T.
Definition Vec_default (N : nat) : Vec := repeat indet N.
Definition vec_at (v : Vec) (i : nat) : T := nth i v indet.
Definition vec_scale (v : Vec) (s : T) : Vec := map (fun x => x [*] s) v.
Definition vec_div (v : Vec) (s : T) : Vec := map (fun x => x [/] s) v.
Definition vec_append (v : Vec) (w : T) : Vec := v ++ [w].
Definition vec_first3 (v : Vec) : Vec := firstn 3 v.

(** [Mat<N, M, T>::Mat(T s)]. *)
Definition Mat_fill (N M : nat) (s : T) : Mat :=
  for_range 0 N (fun i this =>
    for_range 0 M (fun j this =>
      if Nat.eqb i j then set_ N M this i j s
      else set_ N M this i j zero) this)
    (Mat_default N M).

(** [Mat<N, M, T>::identity()]. *)
Definition identity (N M : nat) : Mat :=
  for_range 0 N (fun i result =>
    for_range 0 M (fun j result =>
      if Nat.eqb i j then set_ N M result i j one
      else set_ N M result i j zero) result)
    (Mat_default N M).

(** [Mat<N, M, T>::row(size_t r)]. *)
Definition row (N M : nat) (m : Mat) (r : nat) : Vec :=
  for_range 0 M (fun i result => upd i (at_ N M m r i) result) (Vec_default M).

(** [Mat<N, M, T>::set_row(size_t r, const Vec<vN, T> &v)]. *)
Definition set_row (N M : nat) (m : Mat) (r : nat) (v : Vec) : Mat :=
  for_range 0 M (fun i this => set_ N M this r i (vec_at v i)) m.

(** [Mat<N, M, T>::swap_rows(size_t a, size_t b)]. *)
Definition swap_rows (N M : nat) (m : Mat) (a b : nat) : Mat :=
  for_range 0 M (fun i this =>
    let tmp := at_ N M this a i in
    let this := set_ N M this a i (at_ N M this b i) in
    set_ N M this b i tmp) m.

(** [Mat<N, M, T>::swap_cols(size_t a, size_t b)]. *)
Definition swap_cols (N M : nat) (m : Mat) (a b : nat) : Mat :=
  for_range 0 N (fun i this =>
    let tmp := at_ N M this i a in
    let this := set_ N M this i a (at_ N M this i b) in
    set_ N M this i b tmp) m.

(** [Mat<N, M, T>::operator*(const Mat<M, rM, T> &rhs)]; the global
    [operator*] of [Mat2], [Mat3] and [Mat4] are the same three loops with
    the bounds written out. *)
Definition mat_mul (N M rM : nat) (lhs rhs : Mat) : Mat :=
  for_range 0 N (fun i result =>
    for_range 0 rM (fun j result =>
      let result := set_ N rM result i j zero in
      for_range 0 M (fun k result =>
        set_ N rM result i j
          (at_ N rM result i j [+] at_ N M lhs i k [*] at_ M rM rhs k j)) result)
      result)
    (Mat_default N rM).

(** [Mat<N, M, T>::operator*=(T rhs)]. *)
Definition mat_scale_assign (N M : nat) (m : Mat) (rhs : T) : Mat :=
  for_range 0 (N * M) (fun i m_ => upd i (nth i m_ indet [*] rhs) m_) m.

(** [operator*(const Mat4<T> &lhs, const Vec<4, T> &rhs)] (and the member
    [operator*(const Vec<M, T> &rhs)] at [N = M = 4]). *)
Definition mat4_mul_vec4 (lhs : Mat) (rhs : Vec) : Vec :=
  for_range 0 4 (fun i result =>
    let result := upd i zero result in
    for_range 0 4 (fun j result =>
      upd i (vec_at result i [+] at_ 4 4 lhs i j [*] vec_at rhs j) result) result)
    (Vec_default 4).

(** [operator*(const Mat4<T> &lhs, const Vec<3, T> &rhs)], the homogeneous
    version. *)
Definition mat4_mul_vec3 (lhs : Mat) (rhs : Vec) : Vec :=
  let tmp := vec_append rhs one in
  let result := mat4_mul_vec4 lhs tmp in
  let result := vec_div result (vec_at result 3) in
  vec_first3 result.

(** [transpose(const Mat<N, M, T> &m)], of type [Mat<M, N, T>]. *)
Definition transpose (N M : nat) (m : Mat) : Mat :=
  for_range 0 N (fun i result =>
    for_range 0 M (fun j result =>
      set_ M N result j i (at_ N M m i j)) result)
    (Mat_default M N).

(** [determinant(const Mat2<T> &m)]. *)
Definition determinant_Mat2 (m : Mat) : T :=
  let m := at_ 2 2 m in
  m 0 0 [*] m 1 1 [-] m 0 1 [*] m 1 0.

(** [determinant(const Mat3<T> &m)]. *)
Definition determinant_Mat3 (m : Mat) : T :=
  let m := at_ 3 3 m in
  m 0 0 [*] (m 1 1 [*] m 2 2 [-] m 2 1 [*] m 1 2) [+]
  m 0 1 [*] (m 2 0 [*] m 1 2 [-] m 1 0 [*] m 2 2) [+]
  m 0 2 [*] (m 1 0 [*] m 2 1 [-] m 2 0 [*] m 1 1).

(** [determinant(const Mat4<T> &m)]. *)
Definition determinant_Mat4 (m : Mat) : T :=
  let m := at_ 4 4 m in
  m 0 3 [*] m 1 2 [*] m 2 1 [*] m 3 0 [-] m 0 2 [*] m 1 3 [*] m 2 1 [*] m 3 0 [-]
  m 0 3 [*] m 1 1 [*] m 2 2 [*] m 3 0 [+] m 0 1 [*] m 1 3 [*] m 2 2 [*] m 3 0 [+]
  m 0 2 [*] m 1 1 [*] m 2 3 [*] m 3 0 [-] m 0 1 [*] m 1 2 [*] m 2 3 [*] m 3 0 [-]
  m 0 3 [*] m 1 2 [*] m 2 0 [*] m 3 1 [+] m 0 2 [*] m 1 3 [*] m 2 0 [*] m 3 1 [+]
  m 0 3 [*] m 1 0 [*] m 2 2 [*] m 3 1 [-] m 0 0 [*] m 1 3 [*] m 2 2 [*] m 3 1 [-]
  m 0 2 [*] m 1 0 [*] m 2 3 [*] m 3 1 [+] m 0 0 [*] m 1 2 [*] m 2 3 [*] m 3 1 [+]
  m 0 3 [*] m 1 1 [*] m 2 0 [*] m 3 2 [-] m 0 1 [*] m 1 3 [*] m 2 0 [*] m 3 2 [-]
  m 0 3 [*] m 1 0 [*] m 2 1 [*] m 3 2 [+] m 0 0 [*] m 1 3 [*] m 2 1 [*] m 3 2 [+]
  m 0 1 [*] m 1 0 [*] m 2 3 [*] m 3 2 [-] m 0 0 [*] m 1 1 [*] m 2 3 [*] m 3 2 [-]
  m 0 2 [*] m 1 1 [*] m 2 0 [*] m 3 3 [+] m 0 1 [*] m 1 2 [*] m 2 0 [*] m 3 3 [+]
  m 0 2 [*] m 1 0 [*] m 2 1 [*] m 3 3 [-] m 0 0 [*] m 1 2 [*] m 2 1 [*] m 3 3 [-]
  m 0 1 [*] m 1 0 [*] m 2 2 [*] m 3 3 [+] m 0 0 [*] m 1 1 [*] m 2 2 [*] m 3 3.

(** [inverse(const Mat2<T> &m)]: no test of the determinant, no log. *)
Definition inverse_Mat2 (m : Mat) : Mat :=
  let result := Mat_default 2 2 in
  let result := set_ 2 2 result 0 0 (at_ 2 2 m 1 1) in
  let result := set_ 2 2 result 0 1 ([~] at_ 2 2 m 0 1) in
  let result := set_ 2 2 result 1 0 ([~] at_ 2 2 m 1 0) in
  let result := set_ 2 2 result 1 1 (at_ 2 2 m 0 0) in
  let det := determinant_Mat2 m in
  let det := one [/] det in
  mat_scale_assign 2 2 result det.

(** *** Gauss-Jordan elimination with full pivoting *)

(** The locals [max], [maxr], [maxc] of the pivot search; [maxr] and [maxc]
    are declared without an initial value ([None]). *)
Record pivot_search : Type := mk_pivot_search {
  ps_max  : T;
  ps_maxr : option nat;
  ps_maxc : option nat
}.

(** The search loop shared, word for word, by [inverse] and
    [gauss_jordan_elimination]: among the rows [j] with [ipiv[j] != 1] and
    the columns [k] with [ipiv[k] == 0], keep the element of strictly
    greatest magnitude seen so far. *)
Definition find_pivot (N : nat) (ipiv : list nat) (amat : Mat) : pivot_search :=
  for_range 0 N (fun j st =>
    if negb (Nat.eqb (nth j ipiv 0) 1) then
      for_range 0 N (fun k st =>
        if Nat.eqb (nth k ipiv 0) 0 then
          let element := sabs (at_ N N amat j k) in
          if element [>] ps_max st
          then mk_pivot_search element (Some j) (Some k)
          else st
        else st) st
    else st)
    (mk_pivot_search zero None None).

(** "reduce rows (except pivot)" as [inverse] writes it. *)
Definition reduce_rows (N : nat) (result : Mat) (maxc : nat) : Mat :=
  for_range 0 N (fun j result =>
    if negb (Nat.eqb j maxc) then
      let dum := at_ N N result j maxc in
      let result := set_ N N result j maxc zero in
      for_range 0 N (fun k result =>
        set_ N N result j k
          (at_ N N result j k [-] at_ N N result maxc k [*] dum)) result
    else result) result.

(** "undo column swap": [i] runs from [N - 1] down to [0]. *)
Definition undo_column_swaps (N : nat) (indxr indxc : list nat) (result : Mat) : Mat :=
  do_down N (fun i result =>
    if negb (Nat.eqb (nth i indxr 0) (nth i indxc 0))
    then swap_cols N N result (nth i indxr 0) (nth i indxc 0)
    else result) result.

Context {CT : Constants T}.

(** The state of the main loop of [inverse]: [result], [ipiv], [indxr],
    [indxc]. *)
Definition inv_state : Type := (Mat * list nat * list nat * list nat)%type.

(** One turn of the main loop of [inverse]; [inr] is its [return]. *)
Definition inverse_step (N : nat) (i : nat) (st : inv_state)
  : inv_state + outcome (Mat * list string) :=
  let '(result, ipiv, indxr, indxc) := st in
  let found := find_pivot N ipiv result in
  match ps_maxr found, ps_maxc found with
  | Some maxr, Some maxc =>
      let ipiv := upd maxc (Datatypes.S (nth maxc ipiv 0)) ipiv in
      let result :=
        if negb (Nat.eqb maxr maxc) then swap_rows N N result maxr maxc
        else result in
      let indxr := upd i maxr indxr in
      let indxc := upd i maxc indxc in
      if sabs (at_ N N result maxc maxc) [<] epsilon then
        inr (Ret (result, ["input matrix is singular"%string]))
      else
        let rpivot := one [/] at_ N N result maxc maxc in
        let result := set_ N N result maxc maxc one in
        let result := set_row N N result maxc (vec_scale (row N N result maxc) rpivot) in
        let result := reduce_rows N result maxc in
        inl (result, ipiv, indxr, indxc)
  | _, _ => inr Undef
  end.

(** [inverse(const Mat<N, N, T> &m)], the generic path, with what it wrote
    to the error log. *)
Definition inverse (N : nat) (m : Mat) : outcome (Mat * list string) :=
  let result := m in
  let ipiv := for_range 0 N (fun i ipiv => upd i 0 ipiv) (repeat 0 N) in
  match for_range_ret 0 N (inverse_step N) (result, ipiv, repeat 0 N, repeat 0 N) with
  | inr r => r
  | inl (result, _, indxr, indxc) =>
      Ret (undo_column_swaps N indxr indxc result, [])
  end.

(** The state of the main loop of [gauss_jordan_elimination]: [amat] (the
    buffer [*ainv]), [bmat] (the buffer [*x]), [ipiv], [indxr], [indxc]. *)
Definition gj_state : Type := (Mat * Mat * list nat * list nat * list nat)%type.

(** "reduce rows (except pivot)" as [gauss_jordan_elimination] writes it. *)
Definition gj_reduce_rows (N M : nat) (amat bmat : Mat) (maxc : nat) : Mat * Mat :=
  for_range 0 N (fun j '(amat, bmat) =>
    if negb (Nat.eqb j maxc) then
      let dum := at_ N N amat j maxc in
      let amat := set_ N N amat j maxc zero in
      let amat := for_range 0 N (fun k amat =>
        set_ N N amat j k (at_ N N amat j k [-] at_ N N amat maxc k [*] dum)) amat in
      let bmat := for_range 0 M (fun k bmat =>
        set_ N M bmat j k (at_ N M bmat j k [-] at_ N M bmat maxc k [*] dum)) bmat in
      (amat, bmat)
    else (amat, bmat)) (amat, bmat).

(** One turn of the main loop of [gauss_jordan_elimination]; [inr] is its
    [return false], with the buffers as they are at that moment. *)
Definition gj_step (N M : nat) (i : nat) (st : gj_state)
  : gj_state + outcome (bool * Mat * Mat) :=
  let '(amat, bmat, ipiv, indxr, indxc) := st in
  let found := find_pivot N ipiv amat in
  match ps_maxr found, ps_maxc found with
  | Some maxr, Some maxc =>
      let ipiv := upd maxc (Datatypes.S (nth maxc ipiv 0)) ipiv in
      let '(amat, bmat) :=
        if negb (Nat.eqb maxr maxc)
        then (swap_rows N N amat maxr maxc, swap_rows N M bmat maxr maxc)
        else (amat, bmat) in
      let indxr := upd i maxr indxr in
      let indxc := upd i maxc indxc in
      if sabs (at_ N N amat maxc maxc) [<] epsilon then
        inr (Ret (false, amat, bmat))
      else
        let rpivot := one [/] at_ N N amat maxc maxc in
        let amat := set_ N N amat maxc maxc one in
        let amat := set_row N N amat maxc (vec_scale (row N N amat maxc) rpivot) in
        let bmat := set_row N M bmat maxc (vec_scale (row N M bmat maxc) rpivot) in
        let '(amat, bmat) := gj_reduce_rows N M amat bmat maxc in
        inl (amat, bmat, ipiv, indxr, indxc)
  | _, _ => inr Undef
  end.

(** [gauss_jordan_elimination(a, b, ainv, x)].  [ainv0] and [x0] are what
    the buffers [*ainv] and [*x] hold when the function is entered; the
    result is the returned flag with what they hold when it is left. *)
Definition gauss_jordan_elimination (N M : nat) (a b : Mat) (ainv0 x0 : Mat)
  : outcome (bool * Mat * Mat) :=
  let amat := ainv0 in
  let amat := a in                                   (* amat = a; copy A *)
  let bmat := x0 in
  let bmat := b in                                   (* bmat = b; copy B *)
  let ipiv := for_range 0 N (fun i ipiv => upd i 0 ipiv) (repeat 0 N) in
  match for_range_ret 0 N (gj_step N M) (amat, bmat, ipiv, repeat 0 N, repeat 0 N) with
  | inr r => r
  | inl (amat, bmat, _, indxr, indxc) =>
      Ret (true, undo_column_swaps N indxr indxc amat, bmat)
  end.

(** *** LU decomposition and the determinant built on it *)

(** The state of the column loop of [lu_decomposition]: [amat] (the buffer
    [*alu]), [scalev], [*rowp], [*d]. *)
Definition lu_state : Type := (Mat * Vec * Vec * T)%type.

(** The largest magnitude in row [i] ("get implicit scaling"). *)
Definition row_max (N : nat) (amat : Mat) (i : nat) : T :=
  for_range 0 N (fun j max =>
    let element := sabs (at_ N N amat i j) in
    if element [>] max then element else max) zero.

(** The first inner loop of a column: the elements above the diagonal. *)
Definition lu_upper (N : nat) (j : nat) (amat : Mat) : Mat :=
  for_range 0 j (fun i amat =>
    let sum := at_ N N amat i j in
    let sum := for_range 0 i (fun k sum =>
      sum [-] at_ N N amat i k [*] at_ N N amat k j) sum in
    set_ N N amat i j sum) amat.

(** The second inner loop: the elements on and below the diagonal, and the
    search for the pivot row [imax] (declared without an initial value). *)
Definition lu_lower (N : nat) (j : nat) (scalev : Vec) (amat : Mat)
  : Mat * T * option nat :=
  for_range j N (fun i '(amat, max, imax) =>
    let sum := at_ N N amat i j in
    let sum := for_range 0 j (fun k sum =>
      sum [-] at_ N N amat i k [*] at_ N N amat k j) sum in
    let amat := set_ N N amat i j sum in
    let dum := vec_at scalev i [*] sabs sum in
    if dum [>=] max then (amat, dum, Some i) else (amat, max, imax))
    (amat, zero, None).

(** One turn of the column loop; [inr] is its [return false]. *)
Definition lu_step (N : nat) (j : nat) (st : lu_state)
  : lu_state + outcome (bool * Mat * Vec * T) :=
  let '(amat, scalev, rowp, d) := st in
  let amat := lu_upper N j amat in
  let '(amat, max, imax) := lu_lower N j scalev amat in
  match imax with
  | Some imax =>
      let '(amat, scalev, d) :=
        if negb (Nat.eqb j imax)
        then (swap_rows N N amat imax j, upd imax (vec_at scalev j) scalev, [~] d)
        else (amat, scalev, d) in
      let rowp := upd j (of_size_t imax) rowp in
      if sabs (at_ N N amat j j) [<] epsilon then
        inr (Ret (false, amat, rowp, d))
      else
        let amat :=
          if negb (Nat.eqb j N) then
            let dum := one [/] at_ N N amat j j in
            for_range (j + 1) N (fun i amat =>
              set_ N N amat i j (at_ N N amat i j [*] dum)) amat
          else amat in
        inl (amat, scalev, rowp, d)
  | None => inr Undef
  end.

(** [lu_decomposition(a, alu, rowp, d)]: the returned flag with the final
    contents of [*alu], [*rowp] and [*d]; [rowp0] is what [*rowp] holds when
    the function is entered. *)
Definition lu_decomposition (N : nat) (a : Mat) (rowp0 : Vec)
  : outcome (bool * Mat * Vec * T) :=
  let scalev := Vec_default N in
  let d := one in
  let amat := a in
  match for_range_ret 0 N (fun i scalev =>
          let max := row_max N amat i in
          if sabs max [<] min_ then inr tt
          else inl (upd i (one [/] max) scalev)) scalev with
  | inr _ => Ret (false, amat, rowp0, d)
  | inl scalev =>
      match for_range_ret 0 N (lu_step N) (amat, scalev, rowp0, d) with
      | inr r => r
      | inl (amat, _, rowp, d) => Ret (true, amat, rowp, d)
      end
  end.

(** [determinant(const Mat<N, N, T> &m)], the generic path: the flag of
    [lu_decomposition] is not looked at. *)
Definition determinant (N : nat) (m : Mat) : outcome T :=
  match lu_decomposition N m (Vec_default N) with
  | Ret (_, tmp, _, result) =>
      Ret (for_range 0 N (fun i result => result [*] at_ N N tmp i i) result)
  | Undef => Undef
  end.

(** *** Cholesky decomposition *)

Context {SQ : SqrtOp T}.

(** The loop over [k < j] of [cholesky_decompose], on [spd], [L], [d]. *)
Definition cholesky_row (N : nat) (A : Mat) (j : nat) (st : bool * Mat * T)
  : bool * Mat * T :=
  for_range 0 j (fun k '(spd, L, d) =>
    let s := zero in
    let s := for_range 0 k (fun i s =>
      s [+] at_ N N L k i [*] at_ N N L j i) s in
    let s := (at_ N N A j k [-] s) [/] at_ N N L k k in
    let L := set_ N N L j k s in
    let d := d [+] s [*] s in
    let spd := spd && (at_ N N A k j [==] at_ N N A j k) in
    (spd, L, d)) st.

(** [cholesky_decompose(A, L)]: the returned flag with the final contents
    of [L]; [L0] is what [L] holds when the function is entered. *)
Definition cholesky_decompose (N : nat) (A : Mat) (L0 : Mat) : bool * Mat :=
  for_range 0 N (fun j '(spd, L) =>
    let d := zero in
    let '(spd, L, d) := cholesky_row N A j (spd, L, d) in
    let d := at_ N N A j j [-] d in
    let spd := spd && (d [>] zero) in
    let L := set_ N N L j j (ssqrt (if d [>] zero then d else zero)) in
    let L := for_range (j + 1) N (fun k L => set_ N N L j k zero) L in
    (spd, L)) (true, L0).

(** *** Rotation from three Euler angles *)

Context {TR : TrigOp T}.

(** The nine assignments [m(0, 0) = s00; m(0, 1) = s01; ...] in the order
    the source writes them (row by row). *)
Definition Mat3_rows (s00 s01 s02 s10 s11 s12 s20 s21 s22 : T) : Mat :=
  let m := Mat_default 3 3 in
  let m := set_ 3 3 m 0 0 s00 in
  let m := set_ 3 3 m 0 1 s01 in
  let m := set_ 3 3 m 0 2 s02 in
  let m := set_ 3 3 m 1 0 s10 in
  let m := set_ 3 3 m 1 1 s11 in
  let m := set_ 3 3 m 1 2 s12 in
  let m := set_ 3 3 m 2 0 s20 in
  let m := set_ 3 3 m 2 1 s21 in
  set_ 3 3 m 2 2 s22.

Definition rot_x (x : T) : Mat :=
  Mat3_rows one  zero     zero
            zero (scos x) ([~] ssin x)
            zero (ssin x) (scos x).

Definition rot_y (y : T) : Mat :=
  Mat3_rows (scos y)     zero (ssin y)
            zero         one  zero
            ([~] ssin y) zero (scos y).

Definition rot_z (z : T) : Mat :=
  Mat3_rows (scos z) ([~] ssin z) zero
            (ssin z) (scos z)     zero
            zero     zero         one.

(** [operator*(const Mat3<T> &lhs, const Mat3<T> &rhs)]. *)
Definition mul_Mat3 (lhs rhs : Mat) : Mat := mat_mul 3 3 3 lhs rhs.

(** [Mat3<T>::rotation(T x, T y, T z, int order)], with what it wrote to
    the error log. *)
Definition rotation_Mat3 (x y z : T) (order : Z) : Mat * list string :=
  let rx := rot_x x in
  let ry := rot_y y in
  let rz := rot_z z in
  if Z.eqb order 123 then (mul_Mat3 (mul_Mat3 rz ry) rx, [])
  else if Z.eqb order 132 then (mul_Mat3 (mul_Mat3 ry rz) rx, [])
  else if Z.eqb order 213 then (mul_Mat3 (mul_Mat3 rz rx) ry, [])
  else if Z.eqb order 231 then (mul_Mat3 (mul_Mat3 rx rz) ry, [])
  else if Z.eqb order 312 then (mul_Mat3 (mul_Mat3 ry rx) rz, [])
  else if Z.eqb order 321 then (mul_Mat3 (mul_Mat3 rx ry) rz, [])
  else (mul_Mat3 (mul_Mat3 rx rz) ry, ["invalid rotation order"%string]).

End Model.

(** ** Scalar types *)

(** [T = double]: IEEE 754 binary64, the kernel's primitive floats. *)
#[export] Instance Scalar_float : Scalar PrimFloat.float := {
  zero := PrimFloat.zero;
  one := PrimFloat.one;
  add := PrimFloat.add;
  sub := PrimFloat.sub;
  mul := PrimFloat.mul;
  div := PrimFloat.div;
  neg := PrimFloat.opp;
  sabs := PrimFloat.abs;
  sltb := PrimFloat.ltb;
  sleb := PrimFloat.leb;
  seqb := PrimFloat.eqb;
  of_size_t := fun n => PrimFloat.of_uint63 (Uint63.of_Z (Z.of_nat n));
  indet := PrimFloat.nan
}.

#[export] Instance SqrtOp_float : SqrtOp PrimFloat.float := {
  ssqrt := PrimFloat.sqrt
}.

(** Exact rational arithmetic: the templates instantiated at a scalar type
    without rounding. *)
#[export] Instance Scalar_Qc : Scalar Qc := {
  zero := 0%Qc;
  one := 1%Qc;
  add := Qcplus;
  sub := Qcminus;
  mul := Qcmult;
  div := Qcdiv;
  neg := Qcopp;
  sabs := Qcabs;
  sltb := fun a b => match (a ?= b)%Qc with Lt => true | _ => false end;
  sleb := fun a b => match (a ?= b)%Qc with Gt => false | _ => true end;
  seqb := fun a b => match (a ?= b)%Qc with Eq => true | _ => false end;
  of_size_t := fun n => Q2Qc (inject_Z (Z.of_nat n));
  indet := 0%Qc
}.

(** Real arithmetic, with the elementary functions of the reals. *)
#[export] Instance Scalar_R : Scalar R := {
  zero := 0%R;
  one := 1%R;
  add := Rplus;
  sub := Rminus;
  mul := Rmult;
  div := Rdiv;
  neg := Ropp;
  sabs := Rabs;
  sltb := fun a b => if Rlt_dec a b then true else false;
  sleb := fun a b => if Rle_dec a b then true else false;
  seqb := fun a b => if Req_dec_T a b then true else false;
  of_size_t := INR;
  indet := 0%R
}.

#[export] Instance SqrtOp_R : SqrtOp R := { ssqrt := R_sqrt.sqrt }.
#[export] Instance TrigOp_R : TrigOp R := { scos := cos; ssin := sin }.

(** The constants used in the examples.  Modelled from the spec:
    [constant.h] is not among the sources; the spec names [1e-6] as the
    epsilon of well-scaled inputs, and [min<T>()] is taken as the least
    positive normal number of the type ([2^-1022] for a double, about
    [1.18e-38] for a float).  The matrices of the examples hold powers of two
    only, so that every operation on them is exact in single and in double
    precision alike, and their small pivots ([2^-50]) are under any epsilon
    from [1e-12] up. *)
Definition Constants_float : Constants PrimFloat.float := {|
  epsilon := 0x1.0c6f7a0b5ed8dp-20%float;          (* 1e-6 *)
  min_ := 0x1p-1022%float
|}.

Definition Constants_Qc : Constants Qc := {|
  epsilon := Q2Qc (1 # 1000000);
  min_ := Q2Qc (1 # 100000000000000000000000000000000000000)
|}.

(** ** The other members and services of [mat.h] *)

(** [std::isnan] and [std::isinf] of [<cmath>]. *)
Class ClassifyOp (T : Type) := { sisnan : T -> bool; sisinf : T -> bool }.

(** [for (int k = n - 1; k >= 0; --k) s = body k s]. *)
Definition for_down {S : Type} (n : nat) (body : nat -> S -> S) (s : S) : S :=
  do_down n body s.

Section Members.
Context {T : Type} {ST : Scalar T}.
Local Abbreviation Mat := (@Mat T).
Local Abbreviation Vec := (@Vec T).

(** [Mat<N, M, T>::Mat(const Mat<rN, rM, T> &rhs)]: the top-left block of a
    matrix that is at least as large. *)
Definition Mat_block (N M rN rM : nat) (rhs : Mat) : Mat :=
  for_range 0 N (fun i this =>
    for_range 0 M (fun j this =>
      set_ N M this i j (at_ rN rM rhs i j)) this)
    (Mat_default N M).

(** [Mat<N, M, T>::Mat(const T *m)]; [to_matrix(v)] and [transpose(v)] of a
    vector are this constructor at [M = 1] and at [N = 1]. *)
Definition Mat_of_array (N M : nat) (m : list T) : Mat :=
  for_range 0 (N * M) (fun i m_ => upd i (nth i m indet) m_) (Mat_default N M).

Definition to_matrix (N : nat) (v : Vec) : Mat := Mat_of_array N 1 v.
Definition transpose_Vec (N : nat) (v : Vec) : Mat := Mat_of_array 1 N v.

(** [Mat<N, M, T>::col(size_t c)]. *)
Definition col (N M : nat) (m : Mat) (c : nat) : Vec :=
  for_range 0 N (fun i result => upd i (at_ N M m i c) result) (Vec_default N).

(** [Mat<N, M, T>::set_col(size_t c, const Vec<vN, T> &v)]. *)
Definition set_col (N M : nat) (m : Mat) (c : nat) (v : Vec) : Mat :=
  for_range 0 N (fun i this => set_ N M this i c (vec_at v i)) m.

(** [Mat<N, M, T>::load_zero()]. *)
Definition load_zero (N M : nat) (m : Mat) : Mat :=
  let size := N * M in
  for_range 0 size (fun i m_ => upd i zero m_) m.

(** [Mat<N, M, T>::load_identity(T s)]. *)
Definition load_identity (N M : nat) (m : Mat) (s : T) : Mat :=
  for_range 0 N (fun i this =>
    for_range 0 M (fun j this =>
      if Nat.eqb i j then set_ N M this i j s
      else set_ N M this i j zero) this) m.

(** [operator+(const Mat<N, M, T> &rhs)]. *)
Definition mat_add (N M : nat) (lhs rhs : Mat) : Mat :=
  for_range 0 (N * M) (fun i result =>
    upd i (nth i lhs indet [+] nth i rhs indet) result) (Mat_default N M).

(** [operator-(const Mat<N, M, T> &rhs)]. *)
Definition mat_sub (N M : nat) (lhs rhs : Mat) : Mat :=
  for_range 0 (N * M) (fun i result =>
    upd i (nth i lhs indet [-] nth i rhs indet) result) (Mat_default N M).

(** The unary [operator-()]. *)
Definition mat_neg (N M : nat) (m : Mat) : Mat :=
  for_range 0 (N * M) (fun i result =>
    upd i ([~] nth i m indet) result) (Mat_default N M).

(** [operator*(T rhs)], the matrix on the left. *)
Definition mat_mul_scalar (N M : nat) (m : Mat) (rhs : T) : Mat :=
  for_range 0 (N * M) (fun i result =>
    upd i (nth i m indet [*] rhs) result) (Mat_default N M).

(** [operator/(T rhs)]. *)
Definition mat_div_scalar (N M : nat) (m : Mat) (rhs : T) : Mat :=
  for_range 0 (N * M) (fun i result =>
    upd i (nth i m indet [/] rhs) result) (Mat_default N M).

(** The global [operator*(T lhs, const Mat<N, M, T> &rhs)], the scalar on
    the left. *)
Definition scalar_mul_mat (N M : nat) (lhs : T) (rhs : Mat) : Mat :=
  for_range 0 (N * M) (fun i result =>
    upd i (lhs [*] nth i rhs indet) result) (Mat_default N M).

(** [operator+=(const Mat<N, M, T> &rhs)] and [operator-=]. *)
Definition mat_add_assign (N M : nat) (m rhs : Mat) : Mat :=
  for_range 0 (N * M) (fun i m_ =>
    upd i (nth i m_ indet [+] nth i rhs indet) m_) m.

Definition mat_sub_assign (N M : nat) (m rhs : Mat) : Mat :=
  for_range 0 (N * M) (fun i m_ =>
    upd i (nth i m_ indet [-] nth i rhs indet) m_) m.

(** [operator/=(T rhs)]. *)
Definition mat_div_assign (N M : nat) (m : Mat) (rhs : T) : Mat :=
  for_range 0 (N * M) (fun i m_ => upd i (nth i m_ indet [/] rhs) m_) m.

(** The member [operator*(const Vec<M, T> &rhs)]; the global operators of
    [Mat2] with [Vec<2, T>] and of [Mat3] with [Vec<3, T>] are the same two
    loops with the bounds written out. *)
Definition mat_mul_vec (N M : nat) (lhs : Mat) (rhs : Vec) : Vec :=
  for_range 0 N (fun i result =>
    let result := upd i zero result in
    for_range 0 M (fun j result =>
      upd i (vec_at result i [+] at_ N M lhs i j [*] vec_at rhs j) result) result)
    (Vec_default N).

(** [operator*(const Mat3<T> &lhs, const Vec<2, T> &rhs)], the homogeneous
    version: [Vec<3, T> tmp(rhs, T(1))], the product, the division by the
    last component, the first two components. *)
Definition mat3_mul_vec2 (lhs : Mat) (rhs : Vec) : Vec :=
  let tmp := vec_append rhs one in
  let result := mat_mul_vec 3 3 lhs tmp in
  let result := vec_div result (vec_at result 2) in
  firstn 2 result.

(** [trace(const Mat<D, D, T> &m)]. *)
Definition trace (D : nat) (m : Mat) : T :=
  for_range 1 D (fun i result => result [+] at_ D D m i i) (at_ D D m 0 0).

(** [inverse(const Mat3<T> &m)]: like the 2-by-2 version, no test of the
    determinant. *)
Definition inverse_Mat3 (m0 : Mat) : Mat :=
  let m := at_ 3 3 m0 in
  let result := Mat_default 3 3 in
  let result := set_ 3 3 result 0 0
    (m 1 1 [*] m 2 2 [-] m 2 1 [*] m 1 2) in
  let result := set_ 3 3 result 0 1
    ([~] (m 0 1 [*] m 2 2 [-] m 0 2 [*] m 2 1)) in
  let result := set_ 3 3 result 0 2
    (m 0 1 [*] m 1 2 [-] m 0 2 [*] m 1 1) in
  let result := set_ 3 3 result 1 0
    ([~] (m 1 0 [*] m 2 2 [-] m 1 2 [*] m 2 0)) in
  let result := set_ 3 3 result 1 1
    (m 0 0 [*] m 2 2 [-] m 0 2 [*] m 2 0) in
  let result := set_ 3 3 result 1 2
    ([~] (m 0 0 [*] m 1 2 [-] m 1 0 [*] m 0 2)) in
  let result := set_ 3 3 result 2 0
    (m 1 0 [*] m 2 1 [-] m 2 0 [*] m 1 1) in
  let result := set_ 3 3 result 2 1
    ([~] (m 0 0 [*] m 2 1 [-] m 2 0 [*] m 0 1)) in
  let result := set_ 3 3 result 2 2
    (m 0 0 [*] m 1 1 [-] m 1 0 [*] m 0 1) in
  let det := determinant_Mat3 m0 in
  let det := one [/] det in
  mat_scale_assign 3 3 result det.

(** [inverse(const Mat4<T> &m)]. *)
Definition inverse_Mat4 (m0 : Mat) : Mat :=
  let m := at_ 4 4 m0 in
  let result := Mat_default 4 4 in
  let result := set_ 4 4 result 0 0
    (m 1 2 [*] m 2 3 [*] m 3 1 [-] m 1 3 [*] m 2 2 [*] m 3 1
     [+] m 1 3 [*] m 2 1 [*] m 3 2 [-] m 1 1 [*] m 2 3 [*] m 3 2
     [-] m 1 2 [*] m 2 1 [*] m 3 3 [+] m 1 1 [*] m 2 2 [*] m 3 3) in
  let result := set_ 4 4 result 0 1
    (m 0 3 [*] m 2 2 [*] m 3 1 [-] m 0 2 [*] m 2 3 [*] m 3 1
     [-] m 0 3 [*] m 2 1 [*] m 3 2 [+] m 0 1 [*] m 2 3 [*] m 3 2
     [+] m 0 2 [*] m 2 1 [*] m 3 3 [-] m 0 1 [*] m 2 2 [*] m 3 3) in
  let result := set_ 4 4 result 0 2
    (m 0 2 [*] m 1 3 [*] m 3 1 [-] m 0 3 [*] m 1 2 [*] m 3 1
     [+] m 0 3 [*] m 1 1 [*] m 3 2 [-] m 0 1 [*] m 1 3 [*] m 3 2
     [-] m 0 2 [*] m 1 1 [*] m 3 3 [+] m 0 1 [*] m 1 2 [*] m 3 3) in
  let result := set_ 4 4 result 0 3
    (m 0 3 [*] m 1 2 [*] m 2 1 [-] m 0 2 [*] m 1 3 [*] m 2 1
     [-] m 0 3 [*] m 1 1 [*] m 2 2 [+] m 0 1 [*] m 1 3 [*] m 2 2
     [+] m 0 2 [*] m 1 1 [*] m 2 3 [-] m 0 1 [*] m 1 2 [*] m 2 3) in
  let result := set_ 4 4 result 1 0
    (m 1 3 [*] m 2 2 [*] m 3 0 [-] m 1 2 [*] m 2 3 [*] m 3 0
     [-] m 1 3 [*] m 2 0 [*] m 3 2 [+] m 1 0 [*] m 2 3 [*] m 3 2
     [+] m 1 2 [*] m 2 0 [*] m 3 3 [-] m 1 0 [*] m 2 2 [*] m 3 3) in
  let result := set_ 4 4 result 1 1
    (m 0 2 [*] m 2 3 [*] m 3 0 [-] m 0 3 [*] m 2 2 [*] m 3 0
     [+] m 0 3 [*] m 2 0 [*] m 3 2 [-] m 0 0 [*] m 2 3 [*] m 3 2
     [-] m 0 2 [*] m 2 0 [*] m 3 3 [+] m 0 0 [*] m 2 2 [*] m 3 3) in
  let result := set_ 4 4 result 1 2
    (m 0 3 [*] m 1 2 [*] m 3 0 [-] m 0 2 [*] m 1 3 [*] m 3 0
     [-] m 0 3 [*] m 1 0 [*] m 3 2 [+] m 0 0 [*] m 1 3 [*] m 3 2
     [+] m 0 2 [*] m 1 0 [*] m 3 3 [-] m 0 0 [*] m 1 2 [*] m 3 3) in
  let result := set_ 4 4 result 1 3
    (m 0 2 [*] m 1 3 [*] m 2 0 [-] m 0 3 [*] m 1 2 [*] m 2 0
     [+] m 0 3 [*] m 1 0 [*] m 2 2 [-] m 0 0 [*] m 1 3 [*] m 2 2
     [-] m 0 2 [*] m 1 0 [*] m 2 3 [+] m 0 0 [*] m 1 2 [*] m 2 3) in
  let result := set_ 4 4 result 2 0
    (m 1 1 [*] m 2 3 [*] m 3 0 [-] m 1 3 [*] m 2 1 [*] m 3 0
     [+] m 1 3 [*] m 2 0 [*] m 3 1 [-] m 1 0 [*] m 2 3 [*] m 3 1
     [-] m 1 1 [*] m 2 0 [*] m 3 3 [+] m 1 0 [*] m 2 1 [*] m 3 3) in
  let result := set_ 4 4 result 2 1
    (m 0 3 [*] m 2 1 [*] m 3 0 [-] m 0 1 [*] m 2 3 [*] m 3 0
     [-] m 0 3 [*] m 2 0 [*] m 3 1 [+] m 0 0 [*] m 2 3 [*] m 3 1
     [+] m 0 1 [*] m 2 0 [*] m 3 3 [-] m 0 0 [*] m 2 1 [*] m 3 3) in
  let result := set_ 4 4 result 2 2
    (m 0 1 [*] m 1 3 [*] m 3 0 [-] m 0 3 [*] m 1 1 [*] m 3 0
     [+] m 0 3 [*] m 1 0 [*] m 3 1 [-] m 0 0 [*] m 1 3 [*] m 3 1
     [-] m 0 1 [*] m 1 0 [*] m 3 3 [+] m 0 0 [*] m 1 1 [*] m 3 3) in
  let result := set_ 4 4 result 2 3
    (m 0 3 [*] m 1 1 [*] m 2 0 [-] m 0 1 [*] m 1 3 [*] m 2 0
     [-] m 0 3 [*] m 1 0 [*] m 2 1 [+] m 0 0 [*] m 1 3 [*] m 2 1
     [+] m 0 1 [*] m 1 0 [*] m 2 3 [-] m 0 0 [*] m 1 1 [*] m 2 3) in
  let result := set_ 4 4 result 3 0
    (m 1 2 [*] m 2 1 [*] m 3 0 [-] m 1 1 [*] m 2 2 [*] m 3 0
     [-] m 1 2 [*] m 2 0 [*] m 3 1 [+] m 1 0 [*] m 2 2 [*] m 3 1
     [+] m 1 1 [*] m 2 0 [*] m 3 2 [-] m 1 0 [*] m 2 1 [*] m 3 2) in
  let result := set_ 4 4 result 3 1
    (m 0 1 [*] m 2 2 [*] m 3 0 [-] m 0 2 [*] m 2 1 [*] m 3 0
     [+] m 0 2 [*] m 2 0 [*] m 3 1 [-] m 0 0 [*] m 2 2 [*] m 3 1
     [-] m 0 1 [*] m 2 0 [*] m 3 2 [+] m 0 0 [*] m 2 1 [*] m 3 2) in
  let result := set_ 4 4 result 3 2
    (m 0 2 [*] m 1 1 [*] m 3 0 [-] m 0 1 [*] m 1 2 [*] m 3 0
     [-] m 0 2 [*] m 1 0 [*] m 3 1 [+] m 0 0 [*] m 1 2 [*] m 3 1
     [+] m 0 1 [*] m 1 0 [*] m 3 2 [-] m 0 0 [*] m 1 1 [*] m 3 2) in
  let result := set_ 4 4 result 3 3
    (m 0 1 [*] m 1 2 [*] m 2 0 [-] m 0 2 [*] m 1 1 [*] m 2 0
     [+] m 0 2 [*] m 1 0 [*] m 2 1 [-] m 0 0 [*] m 1 2 [*] m 2 1
     [-] m 0 1 [*] m 1 0 [*] m 2 2 [+] m 0 0 [*] m 1 1 [*] m 2 2) in
  let det := determinant_Mat4 m0 in
  let det := one [/] det in
  mat_scale_assign 4 4 result det.

(** [tensor(const Vec<M, T> &u, const Vec<N, T> &v)]: [Mat<N, 1, T> mu(u)]
    and [Mat<1, M, T> mv(v)] are built from the arrays of the two vectors,
    and multiplied. *)
Definition tensor (M N : nat) (u v : Vec) : Mat :=
  let mu := Mat_of_array N 1 u in
  let mv := Mat_of_array 1 M v in
  mat_mul N 1 M mu mv.

(** [cholesky_solve(L, b, x)] on vectors; [x0] is what [x] holds when the
    function is entered. *)
Definition cholesky_solve (N : nat) (L : Mat) (b : Vec) (x0 : Vec) : Vec :=
  let x := x0 in
  let x := b in
  let x := for_range 0 N (fun k x =>
    let x := for_range 0 k (fun i x =>
      upd k (vec_at x k [-] vec_at x i [*] at_ N N L k i) x) x in
    upd k (vec_at x k [/] at_ N N L k k) x) x in
  for_down N (fun k x =>
    let x := for_range (k + 1) N (fun i x =>
      upd k (vec_at x k [-] vec_at x i [*] at_ N N L i k) x) x in
    upd k (vec_at x k [/] at_ N N L k k) x) x.

(** [has_nan(const Mat<N, M, T> &m)]. *)
Definition has_nan {CO : ClassifyOp T} (N M : nat) (m : Mat) : bool :=
  match
    for_range_ret 0 N (fun i (_ : unit) =>
      for_range_ret 0 M (fun j (_ : unit) =>
        if sisnan (at_ N M m i j) || sisinf (at_ N M m i j)
        then inr true else inl tt) tt) tt
  with
  | inr r => r
  | inl _ => false
  end.

(** [Mat3(const Mat<3, 3, T> &rhs)]: the conversion from the generic type,
    which copies the buffer. *)
Definition Mat3_of_Mat (rhs : Mat) : Mat :=
  for_range 0 9 (fun i this => upd i (nth i rhs indet) this) (Mat_default 3 3).

(** *** [Mat2] *)

(** [Mat2(T s00, T s01, T s10, T s11)]. *)
Definition Mat2_rows (s00 s01 s10 s11 : T) : Mat :=
  let m := Mat_default 2 2 in
  let m := set_ 2 2 m 0 0 s00 in
  let m := set_ 2 2 m 0 1 s01 in
  let m := set_ 2 2 m 1 0 s10 in
  set_ 2 2 m 1 1 s11.

(** [Mat2(const Mat<3, 3, T> &rhs)]. *)
Definition Mat2_of_Mat3 (rhs : Mat) : Mat :=
  let m := Mat_default 2 2 in
  let m := set_ 2 2 m 0 0 (at_ 3 3 rhs 0 0) in
  let m := set_ 2 2 m 0 1 (at_ 3 3 rhs 0 1) in
  let m := set_ 2 2 m 1 0 (at_ 3 3 rhs 1 0) in
  set_ 2 2 m 1 1 (at_ 3 3 rhs 1 1).

(** [Mat2(const T *m)], the column-major branch. *)
Definition Mat2_of_array (a : list T) : Mat :=
  let m := fun i => nth i a indet in
  let this := Mat_default 2 2 in
  let this := set_ 2 2 this 0 0 (m 0) in
  let this := set_ 2 2 this 0 1 (m 2) in
  let this := set_ 2 2 this 1 0 (m 1) in
  set_ 2 2 this 1 1 (m 3).

(** [Mat2(const Vec<2, T> &x, const Vec<2, T> &y)], the column-major
    branch. *)
Definition Mat2_of_cols (x y : Vec) : Mat :=
  let this := Mat_default 2 2 in
  let this := set_col 2 2 this 0 x in
  set_col 2 2 this 1 y.

(** [Mat2<T>::scale(T s)] and [Mat2<T>::scale(T x, T y)]. *)
Definition scale_Mat2 (s : T) : Mat := Mat2_rows s zero zero s.
Definition scale_Mat2_xy (x y : T) : Mat := Mat2_rows x zero zero y.

(** *** [Mat3] *)

(** [Mat3(const Mat<4, 4, T> &rhs)]. *)
Definition Mat3_of_Mat4 (rhs : Mat) : Mat :=
  let r := at_ 4 4 rhs in
  Mat3_rows (r 0 0) (r 0 1) (r 0 2)
            (r 1 0) (r 1 1) (r 1 2)
            (r 2 0) (r 2 1) (r 2 2).

(** [Mat3(const T *m)], the column-major branch. *)
Definition Mat3_of_array (a : list T) : Mat :=
  let m := fun i => nth i a indet in
  Mat3_rows (m 0) (m 3) (m 6)
            (m 1) (m 4) (m 7)
            (m 2) (m 5) (m 8).

(** [Mat3(const Vec<3, T> &x, const Vec<3, T> &y, const Vec<3, T> &z)], the
    column-major branch. *)
Definition Mat3_of_cols (x y z : Vec) : Mat :=
  let this := Mat_default 3 3 in
  let this := set_col 3 3 this 0 x in
  let this := set_col 3 3 this 1 y in
  set_col 3 3 this 2 z.

(** [Mat3(const Mat<2, 2, T> &rhs)], assignment by assignment: the first
    two of each line of the source write the same element. *)
Definition Mat3_of_Mat2 (rhs : Mat) : Mat :=
  let r := at_ 2 2 rhs in
  let this := Mat_default 3 3 in
  let this := set_ 3 3 this 0 0 (r 0 1) in
  let this := set_ 3 3 this 0 0 (r 0 1) in
  let this := set_ 3 3 this 0 2 zero in
  let this := set_ 3 3 this 1 0 (r 1 1) in
  let this := set_ 3 3 this 1 0 (r 1 1) in
  let this := set_ 3 3 this 1 2 zero in
  let this := set_ 3 3 this 2 0 zero in
  let this := set_ 3 3 this 2 0 zero in
  set_ 3 3 this 2 2 one.

(** [Mat3<T>::sub()]. *)
Definition sub_Mat3 (this : Mat) : Mat :=
  for_range 0 2 (fun i mat =>
    for_range 0 2 (fun j mat => set_ 2 2 mat i j (at_ 3 3 this i j)) mat)
    (Mat_default 2 2).

(** [Mat3<T>::scale(T s)] and [Mat3<T>::scale(T x, T y, T z)]. *)
Definition scale_Mat3 (s : T) : Mat :=
  Mat3_rows s    zero zero
            zero s    zero
            zero zero s.

Definition scale_Mat3_xyz (x y z : T) : Mat :=
  Mat3_rows x    zero zero
            zero y    zero
            zero zero z.

(** The members [x], [y], [z], [w] of a [Quat<T>] ([quat.h] is not among
    the sources; the constructors below read these four members only). *)
Record Quat : Type := mk_Quat { qx : T; qy : T; qz : T; qw : T }.

(** The literals [1.0] and [2.0] of the next functions, in the scalar type
    ([2.0] is [1.0 + 1.0] without rounding). *)
Definition two : T := one [+] one.

(** [Mat3(const Quat<T> &q)] and [Mat3<T>::rotation(const Quat<T> &q)],
    which make the same nine assignments. *)
Definition Mat3_of_Quat (q : Quat) : Mat :=
  let x := qx q in
  let y := qy q in
  let z := qz q in
  let w := qw q in
  Mat3_rows
    (one [-] two [*] (y [*] y [+] z [*] z)) (two [*] (x [*] y [-] w [*] z))
    (two [*] (x [*] z [+] w [*] y))
    (two [*] (x [*] y [+] w [*] z)) (one [-] two [*] (x [*] x [+] z [*] z))
    (two [*] (y [*] z [-] w [*] x))
    (two [*] (x [*] z [-] w [*] y)) (two [*] (y [*] z [+] w [*] x))
    (one [-] two [*] (x [*] x [+] y [*] y)).

(** *** [Mat4] *)

(** [Mat4(T s00, ..., T s33)], sixteen assignments row by row. *)
Definition Mat4_rows (s00 s01 s02 s03 s10 s11 s12 s13
                      s20 s21 s22 s23 s30 s31 s32 s33 : T) : Mat :=
  let m := Mat_default 4 4 in
  let m := set_ 4 4 m 0 0 s00 in
  let m := set_ 4 4 m 0 1 s01 in
  let m := set_ 4 4 m 0 2 s02 in
  let m := set_ 4 4 m 0 3 s03 in
  let m := set_ 4 4 m 1 0 s10 in
  let m := set_ 4 4 m 1 1 s11 in
  let m := set_ 4 4 m 1 2 s12 in
  let m := set_ 4 4 m 1 3 s13 in
  let m := set_ 4 4 m 2 0 s20 in
  let m := set_ 4 4 m 2 1 s21 in
  let m := set_ 4 4 m 2 2 s22 in
  let m := set_ 4 4 m 2 3 s23 in
  let m := set_ 4 4 m 3 0 s30 in
  let m := set_ 4 4 m 3 1 s31 in
  let m := set_ 4 4 m 3 2 s32 in
  set_ 4 4 m 3 3 s33.

(** [Mat4(const T *m)], the column-major branch. *)
Definition Mat4_of_array (a : list T) : Mat :=
  let m := fun i => nth i a indet in
  Mat4_rows (m 0) (m 4) (m 8)  (m 12)
            (m 1) (m 5) (m 9)  (m 13)
            (m 2) (m 6) (m 10) (m 14)
            (m 3) (m 7) (m 11) (m 15).

(** [Mat4(const Vec<4, T> &x, ..., const Vec<4, T> &w)], the column-major
    branch. *)
Definition Mat4_of_cols (x y z w : Vec) : Mat :=
  let this := Mat_default 4 4 in
  let this := set_col 4 4 this 0 x in
  let this := set_col 4 4 this 1 y in
  let this := set_col 4 4 this 2 z in
  set_col 4 4 this 3 w.

(** [Mat4(const Mat<3, 3, T> &rhs)]. *)
Definition Mat4_of_Mat3 (rhs : Mat) : Mat :=
  let r := at_ 3 3 rhs in
  Mat4_rows (r 0 0) (r 0 1) (r 0 2) zero
            (r 1 0) (r 1 1) (r 1 2) zero
            (r 2 0) (r 2 1) (r 2 2) zero
            zero    zero    zero    one.

(** [Mat4<T>::sub()]. *)
Definition sub_Mat4 (this : Mat) : Mat :=
  for_range 0 3 (fun i mat =>
    for_range 0 3 (fun j mat => set_ 3 3 mat i j (at_ 4 4 this i j)) mat)
    (Mat_default 3 3).

(** [Mat4(const Vec<3, T> &s, const Quat<T> &rot, const Vec<3, T> &t)]. *)
Definition Mat4_of_srt (s : Vec) (rot : Quat) (t : Vec) : Mat :=
  let r := Mat3_of_Quat rot in
  let r := set_ 3 3 r 0 0 (at_ 3 3 r 0 0 [*] vec_at s 0) in
  let r := set_ 3 3 r 0 1 (at_ 3 3 r 0 1 [*] vec_at s 1) in
  let r := set_ 3 3 r 0 2 (at_ 3 3 r 0 2 [*] vec_at s 2) in
  let r := set_ 3 3 r 1 0 (at_ 3 3 r 1 0 [*] vec_at s 0) in
  let r := set_ 3 3 r 1 1 (at_ 3 3 r 1 1 [*] vec_at s 1) in
  let r := set_ 3 3 r 1 2 (at_ 3 3 r 1 2 [*] vec_at s 2) in
  let r := set_ 3 3 r 2 0 (at_ 3 3 r 2 0 [*] vec_at s 0) in
  let r := set_ 3 3 r 2 1 (at_ 3 3 r 2 1 [*] vec_at s 1) in
  let r := set_ 3 3 r 2 2 (at_ 3 3 r 2 2 [*] vec_at s 2) in
  let r := at_ 3 3 r in
  Mat4_rows (r 0 0) (r 0 1) (r 0 2) (vec_at t 0)
            (r 1 0) (r 1 1) (r 1 2) (vec_at t 1)
            (r 2 0) (r 2 1) (r 2 2) (vec_at t 2)
            zero    zero    zero    one.

(** [Mat4<T>::scale(T s)] (the last diagonal element is [T(1)]) and
    [Mat4<T>::scale(T x, T y, T z, T w)]. *)
Definition scale_Mat4 (s : T) : Mat :=
  Mat4_rows s    zero zero zero
            zero s    zero zero
            zero zero s    zero
            zero zero zero one.

Definition scale_Mat4_xyzw (x y z w : T) : Mat :=
  Mat4_rows x    zero zero zero
            zero y    zero zero
            zero zero z    zero
            zero zero zero w.

(** [Mat4<T>::translation(const Vec<3, T> &t)] and
    [Mat4<T>::translation(T x, T y, T z)]. *)
Definition translation_Mat4 (x y z : T) : Mat :=
  Mat4_rows one  zero zero x
            zero one  zero y
            zero zero one  z
            zero zero zero one.

Definition translation_Mat4_Vec (t : Vec) : Mat :=
  Mat4_rows one  zero zero (vec_at t 0)
            zero one  zero (vec_at t 1)
            zero zero one  (vec_at t 2)
            zero zero zero one.

(** *** Rotations *)

Context {TR : TrigOp T}.

(** [Mat2<T>::rotation(T angle)]. *)
Definition rotation_Mat2 (angle : T) : Mat :=
  Mat2_rows (scos angle) ([~] ssin angle)
            (ssin angle) (scos angle).

(** [Mat3<T>::rotation(const Vec<3, T> &axis, T angle)]: the cross-product
    matrix of the axis, the tensor product of the axis with itself, and
    [identity() * c + cpm * s + tpm * rc]. *)
Definition rotation_Mat3_axis (axis : Vec) (angle : T) : Mat :=
  let a := vec_at axis in
  let cpm := Mat3_rows zero        ([~] a 2) (a 1)
                       (a 2)       zero      ([~] a 0)
                       ([~] a 1)   (a 0)     zero in
  let tpm := Mat3_of_Mat (tensor 3 3 axis axis) in
  let c := scos angle in
  let rc := one [-] c in
  let s := ssin angle in
  Mat3_of_Mat
    (mat_add 3 3
       (mat_add 3 3 (mat_mul_scalar 3 3 (identity 3 3) c) (mat_mul_scalar 3 3 cpm s))
       (mat_mul_scalar 3 3 tpm rc)).

(** [Mat4<T>::rotation(const Vec<3, T> &axis, T angle)]. *)
Definition rotation_Mat4_axis (axis : Vec) (angle : T) : Mat :=
  Mat4_of_Mat3 (rotation_Mat3_axis axis angle).

(** The three factors of [Mat4<T>::rotation(T x, T y, T z, int order)]. *)
Definition rot4_x (x : T) : Mat :=
  Mat4_rows one  zero     zero         zero
            zero (scos x) ([~] ssin x) zero
            zero (ssin x) (scos x)     zero
            zero zero     zero         one.

Definition rot4_y (y : T) : Mat :=
  Mat4_rows (scos y)     zero (ssin y) zero
            zero         one  zero     zero
            ([~] ssin y) zero (scos y) zero
            zero         zero zero     one.

Definition rot4_z (z : T) : Mat :=
  Mat4_rows (scos z) ([~] ssin z) zero zero
            (ssin z) (scos z)     zero zero
            zero     zero         one  zero
            zero     zero         zero one.

(** [operator*(const Mat4<T> &lhs, const Mat4<T> &rhs)]. *)
Definition mul_Mat4 (lhs rhs : Mat) : Mat := mat_mul 4 4 4 lhs rhs.

(** [Mat4<T>::rotation(T x, T y, T z, int order)], with what it wrote to
    the error log. *)
Definition rotation_Mat4 (x y z : T) (order : Z) : Mat * list string :=
  let rx := rot4_x x in
  let ry := rot4_y y in
  let rz := rot4_z z in
  if Z.eqb order 123 then (mul_Mat4 (mul_Mat4 rz ry) rx, [])
  else if Z.eqb order 132 then (mul_Mat4 (mul_Mat4 ry rz) rx, [])
  else if Z.eqb order 213 then (mul_Mat4 (mul_Mat4 rz rx) ry, [])
  else if Z.eqb order 231 then (mul_Mat4 (mul_Mat4 rx rz) ry, [])
  else if Z.eqb order 312 then (mul_Mat4 (mul_Mat4 ry rx) rz, [])
  else if Z.eqb order 321 then (mul_Mat4 (mul_Mat4 rx ry) rz, [])
  else (mul_Mat4 (mul_Mat4 rx rz) ry, ["invalid rotation order"%string]).

End Members.

(** [std::isnan] and [std::isinf] on doubles. *)
#[export] Instance ClassifyOp_float : ClassifyOp PrimFloat.float := {
  sisnan := PrimFloat.is_nan;
  sisinf := PrimFloat.is_infinity
}.

(** * Properties *)

Unset Implicit Arguments.

(** ** Loops *)

Lemma for_loop_ind {S : Type} (P : nat -> S -> Prop) (body : nat -> S -> S) :
  forall n lo s,
    P lo s ->
    (forall i s', lo <= i < lo + n -> P i s' -> P (Datatypes.S i) (body i s')) ->
    P (lo + n) (for_loop n lo body s).
Proof.
  induction n as [|n IH]; intros lo s H0 Hstep; simpl.
  - now rewrite Nat.add_0_r.
  - replace (lo + Datatypes.S n) with (Datatypes.S lo + n) by lia.
    apply IH.
    + apply Hstep; [lia | exact H0].
    + intros i s' Hi. apply Hstep. lia.
Qed.

Lemma for_range_ind {S : Type} (P : nat -> S -> Prop) (body : nat -> S -> S) :
  forall lo hi s,
    lo <= hi ->
    P lo s ->
    (forall i s', lo <= i < hi -> P i s' -> P (Datatypes.S i) (body i s')) ->
    P hi (for_range lo hi body s).
Proof.
  intros lo hi s Hle H0 Hstep. unfold for_range.
  replace hi with (lo + (hi - lo)) at 1 by lia.
  apply for_loop_ind; auto.
  intros i s' Hi. apply Hstep. lia.
Qed.

(** An invariant that does not mention the index. *)
Lemma for_range_inv {S : Type} (I : S -> Prop) (body : nat -> S -> S) lo hi s :
  I s ->
  (forall i s', lo <= i < hi -> I s' -> I (body i s')) ->
  I (for_range lo hi body s).
Proof.
  intros H0 Hstep.
  destruct (Nat.le_gt_cases lo hi) as [Hle|Hgt].
  - apply (for_range_ind (fun _ => I)); auto.
  - unfold for_range. replace (hi - lo) with 0 by lia. exact H0.
Qed.

(** Each turn [i] establishes [Q i] and keeps [I] and the [Q k] of the turns
    before it. *)
Lemma for_range_each {S : Type} (I : S -> Prop) (Q : nat -> S -> Prop)
      (body : nat -> S -> S) lo hi s :
  I s ->
  (forall i s', lo <= i < hi -> I s' ->
     I (body i s') /\ Q i (body i s') /\
     (forall k, lo <= k < i -> Q k s' -> Q k (body i s'))) ->
  I (for_range lo hi body s) /\
  (forall k, lo <= k < hi -> Q k (for_range lo hi body s)).
Proof.
  intros H0 Hstep.
  destruct (Nat.le_gt_cases lo hi) as [Hle|Hgt].
  - assert (G : I (for_range lo hi body s) /\
                forall k, lo <= k < hi -> Q k (for_range lo hi body s)).
    { apply (for_range_ind (fun i st => I st /\ forall k, lo <= k < i -> Q k st));
        auto.
      - split; auto. intros k Hk; lia.
      - intros i s' Hi [HI HQ].
        destruct (Hstep i s' Hi HI) as (HI' & HQi & Hkeep).
        split; auto. intros k Hk.
        destruct (Nat.eq_dec k i) as [->|Hne]; auto.
        apply Hkeep; [lia|]. apply HQ. lia. }
    exact G.
  - split.
    + unfold for_range. replace (hi - lo) with 0 by lia. exact H0.
    + intros k Hk; lia.
Qed.

Lemma for_loop_ext {S : Type} (f g : nat -> S -> S) n lo s :
  (forall i s', lo <= i < lo + n -> f i s' = g i s') ->
  for_loop n lo f s = for_loop n lo g s.
Proof.
  revert lo s; induction n as [|n IH]; intros lo s H; simpl; auto.
  rewrite (H lo s) by lia. apply IH. intros i s' Hi. apply H. lia.
Qed.

Lemma for_range_ext {S : Type} (f g : nat -> S -> S) lo hi s :
  (forall i s', lo <= i < hi -> f i s' = g i s') ->
  for_range lo hi f s = for_range lo hi g s.
Proof.
  intros H. unfold for_range. apply for_loop_ext.
  intros i s' Hi. apply H. lia.
Qed.

Lemma do_down_ind {S : Type} (P : nat -> S -> Prop) (body : nat -> S -> S) :
  forall n s,
    P n s ->
    (forall i s', i < n -> P (Datatypes.S i) s' -> P i (body i s')) ->
    P 0 (do_down n body s).
Proof.
  induction n as [|n IH]; intros s H0 Hstep; simpl.
  - exact H0.
  - apply IH.
    + apply Hstep; [lia | exact H0].
    + intros i s' Hi. apply Hstep. lia.
Qed.

(** ** Flat buffers *)

Section Buffer.
Context {T : Type}.

Lemma upd_length i (v : T) buf : length (upd i v buf) = length buf.
Proof.
  revert i; induction buf as [|x tl IH]; intros [|i]; simpl; auto.
Qed.

Lemma nth_upd_same i (v : T) buf d : i < length buf -> nth i (upd i v buf) d = v.
Proof.
  revert i; induction buf as [|x tl IH]; intros [|i]; simpl; intros H;
    try lia; auto.
  apply IH; lia.
Qed.

Lemma nth_upd_other i j (v : T) buf d : i <> j -> nth j (upd i v buf) d = nth j buf d.
Proof.
  revert i j; induction buf as [|x tl IH]; intros [|i] [|j]; simpl; intros H;
    try lia; auto.
Qed.

Lemma nth_upd i j (v : T) buf d :
  i < length buf ->
  nth j (upd i v buf) d = if Nat.eqb i j then v else nth j buf d.
Proof.
  intros H. destruct (Nat.eqb_spec i j) as [->|Hne].
  - now apply nth_upd_same.
  - now apply nth_upd_other.
Qed.

Lemma nth_ext_len (l1 l2 : list T) d :
  length l1 = length l2 ->
  (forall i, i < length l1 -> nth i l1 d = nth i l2 d) ->
  l1 = l2.
Proof.
  revert l2; induction l1 as [|x tl IH]; intros [|y tl2]; simpl; intros HL H;
    try discriminate; auto.
  f_equal.
  - apply (H 0); lia.
  - apply IH; [lia|]. intros i Hi. apply (H (Datatypes.S i)); lia.
Qed.
End Buffer.

(** ** Elements of a matrix *)

Section MatLemmas.
Context {T : Type} {ST : Scalar T}.
Local Abbreviation Mat := (@Mat T).

Lemma Mat_default_wf N M : wf N M (Mat_default N M : Mat).
Proof. unfold wf, Mat_default. apply repeat_length. Qed.

Lemma set_wf N M (m : Mat) r c v : wf N M m -> wf N M (set_ N M m r c v).
Proof. unfold wf, set_. now rewrite upd_length. Qed.

Lemma index_lt N M r c : r < N -> c < M -> c * N + r < N * M.
Proof.
  intros Hr Hc.
  assert (H : Datatypes.S c * N <= M * N) by (apply Nat.mul_le_mono_r; lia).
  simpl in H. lia.
Qed.

Lemma index_inj N r c r' c' :
  r < N -> r' < N -> c * N + r = c' * N + r' -> r = r' /\ c = c'.
Proof.
  intros Hr Hr' H.
  assert (Hc : c = c').
  { destruct (Nat.lt_trichotomy c c') as [Hlt|[E|Hlt]]; auto; exfalso.
    - assert (Datatypes.S c * N <= c' * N) by (apply Nat.mul_le_mono_r; lia).
      simpl in *. lia.
    - assert (Datatypes.S c' * N <= c * N) by (apply Nat.mul_le_mono_r; lia).
      simpl in *. lia. }
  subst c'. split; [lia | reflexivity].
Qed.

Lemma at_set_same N M (m : Mat) r c v :
  wf N M m -> r < N -> c < M -> at_ N M (set_ N M m r c v) r c = v.
Proof.
  intros Hwf Hr Hc. unfold at_, set_. apply nth_upd_same.
  rewrite Hwf. now apply index_lt.
Qed.

Lemma at_set_other N M (m : Mat) r c v r' c' :
  r < N -> r' < N -> (r, c) <> (r', c') ->
  at_ N M (set_ N M m r c v) r' c' = at_ N M m r' c'.
Proof.
  intros Hr Hr' Hne. unfold at_, set_. apply nth_upd_other.
  intros E. apply index_inj in E; auto. destruct E; subst. now apply Hne.
Qed.

Lemma at_set N M (m : Mat) r c v r' c' :
  wf N M m -> r < N -> c < M -> r' < N ->
  at_ N M (set_ N M m r c v) r' c' =
  if (Nat.eqb r r' && Nat.eqb c c')%bool then v else at_ N M m r' c'.
Proof.
  intros Hwf Hr Hc Hr'.
  destruct (Nat.eqb_spec r r') as [->|Hn]; simpl.
  - destruct (Nat.eqb_spec c c') as [->|Hn]; simpl.
    + now apply at_set_same.
    + apply at_set_other; auto. congruence.
  - apply at_set_other; auto. congruence.
Qed.

(** Two buffers of the same shape with the same elements are the same
    buffer. *)
Lemma mat_ext N M (a b : Mat) :
  wf N M a -> wf N M b ->
  (forall r c, r < N -> c < M -> at_ N M a r c = at_ N M b r c) ->
  a = b.
Proof.
  intros Ha Hb H. apply nth_ext_len with (d := indet).
  - now rewrite Ha, Hb.
  - intros i Hi. rewrite Ha in Hi.
    assert (HN : 0 < N) by (destruct N; simpl in *; lia).
    specialize (H (i mod N) (i / N)).
    unfold at_ in H.
    assert (E : i / N * N + i mod N = i)
      by (pose proof (Nat.div_mod_eq i N); lia).
    rewrite E in H. apply H.
    + apply Nat.mod_upper_bound. lia.
    + apply Nat.Div0.div_lt_upper_bound. lia.
Qed.

(** A double loop that assigns [f i j] to the element [pos i j] of an
    [R]-by-[C] buffer, for [i < N] and [j < M], leaves [f i j] there. *)
Section FillLoops.
Variables (R C N M : nat) (pos : nat -> nat -> nat * nat) (f : nat -> nat -> T).
Hypothesis Hpos :
  forall i j, i < N -> j < M -> fst (pos i j) < R /\ snd (pos i j) < C.
Hypothesis Hinj :
  forall i j i' j', i < N -> j < M -> i' < N -> j' < M ->
    pos i j = pos i' j' -> i = i' /\ j = j'.

Let cell (i j : nat) (m : Mat) : Prop :=
  at_ R C m (fst (pos i j)) (snd (pos i j)) = f i j.
Let write (i j : nat) (m : Mat) : Mat :=
  set_ R C m (fst (pos i j)) (snd (pos i j)) (f i j).

Lemma write_cell i j i' j' (m : Mat) :
  wf R C m -> i < N -> j < M -> i' < N -> j' < M ->
  cell i' j' (write i j m) <-> ((i, j) = (i', j') \/ ((i, j) <> (i', j') /\ cell i' j' m)).
Proof.
  intros Hwf Hi Hj Hi' Hj'. unfold cell, write.
  destruct (Hpos i j Hi Hj) as [Hr Hc]. destruct (Hpos i' j' Hi' Hj') as [Hr' Hc'].
  destruct (Nat.eq_dec i i') as [Ei|Ni];
    [destruct (Nat.eq_dec j j') as [Ej|Nj]|].
  - subst. rewrite at_set_same by auto. split; auto.
  - rewrite at_set_other; auto.
    + split; [intros H; right; split; [congruence|exact H] | intros [H|[_ H]]; [congruence|exact H]].
    + intros E.
      assert (E' : pos i j = pos i' j')
        by (destruct (pos i j), (pos i' j'); simpl in *; congruence).
      apply Hinj in E'; auto. lia.
  - rewrite at_set_other; auto.
    + split; [intros H; right; split; [congruence|exact H] | intros [H|[_ H]]; [congruence|exact H]].
    + intros E.
      assert (E' : pos i j = pos i' j')
        by (destruct (pos i j), (pos i' j'); simpl in *; congruence).
      apply Hinj in E'; auto. lia.
Qed.

Lemma fill_inner i (m : Mat) :
  wf R C m -> i < N ->
  (forall i' j', i' < i -> j' < M -> cell i' j' m) ->
  let m' := for_range 0 M (fun j m => write i j m) m in
  wf R C m' /\ forall i' j', i' <= i -> j' < M -> cell i' j' m'.
Proof.
  intros Hwf Hi Hold m'.
  destruct (@for_range_each _
             (fun m1 => wf R C m1 /\
                forall i' j', i' < i -> j' < M -> cell i' j' m1)
             (fun j m1 => cell i j m1)
             (fun j m => write i j m) 0 M m) as [[Hwf' Hold'] Hnew].
  - split; auto.
  - intros j m1 Hj [Hwf1 Hold1]. split; [split|split].
    + now apply set_wf.
    + intros i' j' Hi' Hj'. apply write_cell; auto; try lia.
      right. split; [intros E; inversion E; lia | apply Hold1; auto].
    + apply write_cell; auto; lia.
    + intros k Hk Hprev. apply write_cell; auto; try lia.
      right. split; [intros E; inversion E; lia | exact Hprev].
  - split; [exact Hwf'|].
    intros i' j' Hi' Hj'.
    destruct (Nat.eq_dec i' i) as [->|Hne].
    + apply Hnew. lia.
    + apply Hold'; auto. lia.
Qed.

Lemma fill_loops_at (m0 : Mat) :
  wf R C m0 ->
  let m := for_range 0 N (fun i m =>
             for_range 0 M (fun j m =>
               set_ R C m (fst (pos i j)) (snd (pos i j)) (f i j)) m) m0 in
  wf R C m /\
  forall i j, i < N -> j < M ->
    at_ R C m (fst (pos i j)) (snd (pos i j)) = f i j.
Proof.
  intros Hwf m.
  assert (G : (fun i m1 => wf R C m1 /\
                 forall i' j', i' < i -> j' < M -> cell i' j' m1) N m).
  { apply for_range_ind; [lia| |].
    - split; auto. intros; lia.
    - intros i m1 Hi [Hwf1 Hold1].
      destruct (@fill_inner i m1 Hwf1) as [Hw Hc]; [lia|exact Hold1|].
      split; [exact Hw|]. intros i' j' Hi' Hj'. apply Hc; auto. lia. }
  destruct G as [G1 G2]. split; [exact G1|].
  intros i j Hi Hj. apply G2; auto.
Qed.
End FillLoops.

End MatLemmas.

(** ** Constructors and transposition *)

Section Constructors.
Context {T : Type} {ST : Scalar T}.
Local Abbreviation Mat := (@Mat T).

(** The body of the constructors' loops assigns one element per turn. *)
Lemma diag_loops_at (N M : nat) (s : T) :
  let m : Mat :=
    for_range 0 N (fun i this =>
      for_range 0 M (fun j this =>
        if Nat.eqb i j then set_ N M this i j s
        else set_ N M this i j zero) this)
      (Mat_default N M) in
  wf N M m /\
  forall r c, r < N -> c < M ->
    at_ N M m r c = if Nat.eqb r c then s else zero.
Proof.
  intros m.
  assert (E : m = for_range 0 N (fun i m =>
                    for_range 0 M (fun j m =>
                      set_ N M m (fst (i, j)) (snd (i, j))
                           (if Nat.eqb i j then s else zero)) m)
                    (Mat_default N M)).
  { unfold m. apply for_range_ext. intros i m1 _.
    apply for_range_ext. intros j m2 _. simpl.
    now destruct (Nat.eqb i j). }
  rewrite E.
  apply (@fill_loops_at T ST N M N M (fun i j => (i, j))
           (fun i j => if Nat.eqb i j then s else zero)).
  - intros i j Hi Hj. simpl. auto.
  - intros i j i' j' _ _ _ _ H. inversion H. auto.
  - apply Mat_default_wf.
Qed.

Lemma Mat_fill_wf N M (s : T) : wf N M (Mat_fill N M s).
Proof. apply (diag_loops_at N M s). Qed.

Lemma identity_wf N M : wf N M (identity N M : Mat).
Proof. apply (diag_loops_at N M one). Qed.

Lemma at_identity N M r c :
  r < N -> c < M ->
  at_ N M (identity N M : Mat) r c = if Nat.eqb r c then one else zero.
Proof. apply (diag_loops_at N M one). Qed.

(** C7: for every shape [N]-by-[M], square or not, and every scalar [s],
    the fill constructor [Mat(s)] leaves [s] at every diagonal position
    ([r = c]) and zero at every other position, and [identity()] leaves
    one on the diagonal positions and zero elsewhere; both fill the whole
    buffer of [N * M] elements. *)
Theorem Mat_fill_and_identity_elements :
  forall (N M : nat) (s : T) (r c : nat),
    r < N -> c < M ->
    at_ N M (Mat_fill N M s) r c = (if Nat.eqb r c then s else zero) /\
    at_ N M (identity N M : Mat) r c = (if Nat.eqb r c then one else zero) /\
    wf N M (Mat_fill N M s) /\ wf N M (identity N M : Mat).
Proof.
  intros N M s r c Hr Hc.
  split; [|split; [|split]].
  - now apply (diag_loops_at N M s).
  - now apply at_identity.
  - apply Mat_fill_wf.
  - apply identity_wf.
Qed.

Lemma transpose_spec N M (m : Mat) :
  wf M N (transpose N M m) /\
  forall i j, i < N -> j < M ->
    at_ M N (transpose N M m) j i = at_ N M m i j.
Proof.
  unfold transpose.
  apply (@fill_loops_at T ST M N N M (fun i j => (j, i))
           (fun i j => at_ N M m i j)).
  - intros i j Hi Hj. simpl. auto.
  - intros i j i' j' _ _ _ _ H. inversion H. auto.
  - apply Mat_default_wf.
Qed.

(** C8: for every [N]-by-[M] matrix [A] (a buffer of [N * M] scalars, of
    any scalar type, floating point included), [transpose(transpose(A))] is
    [A] itself, element for element: no arithmetic is performed. *)
Theorem transpose_involutive :
  forall (N M : nat) (A : Mat),
    wf N M A ->
    transpose M N (transpose N M A) = A.
Proof.
  intros N M A HA.
  destruct (transpose_spec N M A) as [Hw1 He1].
  destruct (transpose_spec M N (transpose N M A)) as [Hw2 He2].
  apply (@mat_ext T ST N M); auto.
  intros r c Hr Hc. rewrite He2 by auto. now apply He1.
Qed.

End Constructors.

(** C7 at a 2-by-3 shape of doubles: the element (1, 1) of [Mat(5)] is 5. *)
Lemma Mat_fill_and_identity_elements_witness :
  at_ 2 3 (Mat_fill 2 3 5%float) 1 1 = (if Nat.eqb 1 1 then 5%float else zero) /\
  at_ 2 3 (identity 2 3 : list float) 1 1 = (if Nat.eqb 1 1 then one else zero) /\
  wf 2 3 (Mat_fill 2 3 5%float) /\ wf 2 3 (identity 2 3 : list float).
Proof.
  apply (@Mat_fill_and_identity_elements float Scalar_float 2 3 5%float 1 1); lia.
Defined.

(** C8 at a 2-by-3 matrix of doubles. *)
Lemma transpose_involutive_witness :
  transpose 3 2 (transpose 2 3 [1; 2; 3; 4; 5; 6]%float) = [1; 2; 3; 4; 5; 6]%float.
Proof.
  apply (@transpose_involutive float Scalar_float 2 3 [1; 2; 3; 4; 5; 6]%float).
  reflexivity.
Defined.

(** ** A 4-by-4 matrix applied to a 3-component vector *)

Section Homogeneous.
Context {T : Type} {ST : Scalar T}.

(** Row [i] of [lhs] times [(x, y, z, w)], summed from the left as the loop
    of [operator*] does, starting from [result[i] = 0]. *)
Definition row_dot4 (lhs : @Mat T) (x y z w : T) (i : nat) : T :=
  zero [+] at_ 4 4 lhs i 0 [*] x [+] at_ 4 4 lhs i 1 [*] y
       [+] at_ 4 4 lhs i 2 [*] z [+] at_ 4 4 lhs i 3 [*] w.

Lemma mat4_mul_vec4_rows (lhs : @Mat T) (x y z w : T) :
  wf 4 4 lhs ->
  mat4_mul_vec4 lhs [x; y; z; w] =
  [row_dot4 lhs x y z w 0; row_dot4 lhs x y z w 1;
   row_dot4 lhs x y z w 2; row_dot4 lhs x y z w 3].
Proof.
  intros H. unfold wf in H.
  do 17 (destruct lhs as [|? lhs]; try discriminate H).
  reflexivity.
Qed.

Lemma mat4_mul_vec3_rows (lhs : @Mat T) (x y z : T) :
  wf 4 4 lhs ->
  mat4_mul_vec3 lhs [x; y; z] =
  [row_dot4 lhs x y z one 0 [/] row_dot4 lhs x y z one 3;
   row_dot4 lhs x y z one 1 [/] row_dot4 lhs x y z one 3;
   row_dot4 lhs x y z one 2 [/] row_dot4 lhs x y z one 3].
Proof.
  intros H. unfold mat4_mul_vec3, vec_append. simpl app.
  rewrite mat4_mul_vec4_rows by exact H. reflexivity.
Qed.

End Homogeneous.

(** In binary64 arithmetic a quotient by a zero (of either sign) is an
    infinity or a NaN, whatever the numerator. *)
Lemma float_div_zero_not_finite (x y : float) :
  PrimFloat.is_zero y = true -> PrimFloat.is_finite (x / y)%float = false.
Proof.
  unfold PrimFloat.is_zero, PrimFloat.is_finite, PrimFloat.is_nan,
         PrimFloat.is_infinity.
  rewrite !FloatAxioms.eqb_spec, FloatAxioms.abs_spec, FloatAxioms.div_spec.
  change (Prim2SF PrimFloat.zero) with (S754_zero false).
  change (Prim2SF infinity) with (S754_infinity false).
  unfold SF64div.
  destruct (Prim2SF y) as [sy|sy| |sy my ey]; simpl;
    try discriminate; try (destruct sy; discriminate).
  intros _.
  destruct (Prim2SF x) as [sx|sx| |sx mx ex]; simpl; try reflexivity;
    destruct (xorb sx sy); reflexivity.
Qed.

(** C10: multiplying a [Mat4] by a 3-component vector [(x, y, z)] appends a
    fourth component 1, multiplies by the matrix (each row summed from the
    left), divides the four results by the fourth one and returns the first
    three quotients; in binary64 arithmetic, whenever that fourth result is
    zero none of the three returned components is finite. *)
Theorem mat4_mul_vec3_homogeneous :
  forall (lhs : list float) (x y z : float),
    wf 4 4 lhs ->
    let r := mat4_mul_vec4 lhs (vec_append [x; y; z] one) in
    r = [row_dot4 lhs x y z one 0; row_dot4 lhs x y z one 1;
         row_dot4 lhs x y z one 2; row_dot4 lhs x y z one 3] /\
    mat4_mul_vec3 lhs [x; y; z] =
      [vec_at r 0 [/] vec_at r 3; vec_at r 1 [/] vec_at r 3;
       vec_at r 2 [/] vec_at r 3] /\
    (PrimFloat.is_zero (vec_at r 3) = true ->
     forall c, In c (mat4_mul_vec3 lhs [x; y; z]) -> PrimFloat.is_finite c = false).
Proof.
  intros lhs x y z H r.
  assert (Er : r = [row_dot4 lhs x y z one 0; row_dot4 lhs x y z one 1;
                    row_dot4 lhs x y z one 2; row_dot4 lhs x y z one 3])
    by (apply mat4_mul_vec4_rows; exact H).
  assert (Em : mat4_mul_vec3 lhs [x; y; z] =
               [vec_at r 0 [/] vec_at r 3; vec_at r 1 [/] vec_at r 3;
                vec_at r 2 [/] vec_at r 3])
    by (rewrite Er; apply mat4_mul_vec3_rows; exact H).
  split; [exact Er|]. split; [exact Em|].
  intros Hz c Hc. rewrite Em in Hc. simpl in Hc.
  destruct Hc as [<-|[<-|[<-|[]]]]; now apply float_div_zero_not_finite.
Qed.

(** C10 at the projection onto the plane [w = 0] (the last row of the matrix
    is zero) and the point [(1, 2, 3)]: the fourth component is [0] and the
    three components returned are infinite. *)
Lemma mat4_mul_vec3_homogeneous_witness :
  mat4_mul_vec3 [1; 0; 0; 0; 0; 1; 0; 0; 0; 0; 1; 0; 0; 0; 0; 0]%float
                [1; 2; 3]%float = [infinity; infinity; infinity] /\
  (forall c,
     In c (mat4_mul_vec3 [1; 0; 0; 0; 0; 1; 0; 0; 0; 0; 1; 0; 0; 0; 0; 0]%float
                         [1; 2; 3]%float) ->
     PrimFloat.is_finite c = false).
Proof.
  split; [reflexivity|].
  apply (@mat4_mul_vec3_homogeneous
           [1; 0; 0; 0; 0; 1; 0; 0; 0; 0; 1; 0; 0; 0; 0; 0]%float
           1%float 2%float 3%float); reflexivity.
Defined.

(** ** Rotation from Euler angles: the order argument *)

Section Rotation.
Context {T : Type} {ST : Scalar T} {TR : TrigOp T}.

(** The six orders the [switch] names. *)
Definition valid_order (order : Z) : bool :=
  (Z.eqb order 123 || Z.eqb order 132 || Z.eqb order 213 ||
   Z.eqb order 231 || Z.eqb order 312 || Z.eqb order 321)%bool.

(** The composition the spec calls the default ordering 312. *)
Definition compose_312 (x y z : T) : @Mat T :=
  mul_Mat3 (mul_Mat3 (rot_y y) (rot_x x)) (rot_z z).

(** The composition of [case 231]. *)
Definition compose_231 (x y z : T) : @Mat T :=
  mul_Mat3 (mul_Mat3 (rot_x x) (rot_z z)) (rot_y y).

Lemma rotation_312 x y z : rotation_Mat3 x y z 312 = (compose_312 x y z, []).
Proof. unfold rotation_Mat3, compose_312. simpl Z.eqb. cbv iota. reflexivity. Qed.

Lemma rotation_231 x y z : rotation_Mat3 x y z 231 = (compose_231 x y z, []).
Proof. unfold rotation_Mat3, compose_231. simpl Z.eqb. cbv iota. reflexivity. Qed.

Lemma rotation_default_branch (x y z : T) (order : Z) :
  valid_order order = false ->
  rotation_Mat3 x y z order =
    (compose_231 x y z, ["invalid rotation order"%string]).
Proof.
  intros H. unfold valid_order in H.
  repeat (apply orb_false_iff in H; destruct H as [H ?]).
  unfold rotation_Mat3, compose_231. cbv zeta.
  repeat match goal with E : Z.eqb order _ = false |- _ => rewrite E; clear E end.
  cbv beta iota. reflexivity.
Qed.

(** C6, amended: for every order argument other than 123, 132, 213, 231,
    312 and 321 the constructor returns a matrix (it has no other exit), logs
    the one error "invalid rotation order", and the matrix is [rx * rz * ry],
    the composition of [case 231] (first Y, then Z, then X), not the
    [ry * rx * rz] of the default argument 312. *)
Theorem rotation_invalid_order_fallback :
  forall (x y z : T) (order : Z),
    valid_order order = false ->
    rotation_Mat3 x y z order =
      (mul_Mat3 (mul_Mat3 (rot_x x) (rot_z z)) (rot_y y),
       ["invalid rotation order"%string]) /\
    fst (rotation_Mat3 x y z order) = fst (rotation_Mat3 x y z 231).
Proof.
  intros x y z order H.
  rewrite rotation_231, (rotation_default_branch x y z order H).
  unfold compose_231, fst. split; reflexivity.
Qed.

Lemma Mat3_rows_buffer (s00 s01 s02 s10 s11 s12 s20 s21 s22 : T) :
  Mat3_rows s00 s01 s02 s10 s11 s12 s20 s21 s22 =
  [s00; s10; s20; s01; s11; s21; s02; s12; s22].
Proof. vm_compute. reflexivity. Qed.

(** The element (0, 1) of a product of two 3-by-3 buffers. *)
Lemma mul_Mat3_at_0_1 (a0 a1 a2 a3 a4 a5 a6 a7 a8 b0 b1 b2 b3 b4 b5 b6 b7 b8 : T) :
  at_ 3 3 (mul_Mat3 [a0; a1; a2; a3; a4; a5; a6; a7; a8]
                    [b0; b1; b2; b3; b4; b5; b6; b7; b8]) 0 1 =
  zero [+] a0 [*] b3 [+] a3 [*] b4 [+] a6 [*] b5.
Proof. vm_compute. reflexivity. Qed.

Lemma mul_Mat3_buffer (a0 a1 a2 a3 a4 a5 a6 a7 a8 b0 b1 b2 b3 b4 b5 b6 b7 b8 : T) :
  mul_Mat3 [a0; a1; a2; a3; a4; a5; a6; a7; a8]
           [b0; b1; b2; b3; b4; b5; b6; b7; b8] =
  [zero [+] a0 [*] b0 [+] a3 [*] b1 [+] a6 [*] b2;
   zero [+] a1 [*] b0 [+] a4 [*] b1 [+] a7 [*] b2;
   zero [+] a2 [*] b0 [+] a5 [*] b1 [+] a8 [*] b2;
   zero [+] a0 [*] b3 [+] a3 [*] b4 [+] a6 [*] b5;
   zero [+] a1 [*] b3 [+] a4 [*] b4 [+] a7 [*] b5;
   zero [+] a2 [*] b3 [+] a5 [*] b4 [+] a8 [*] b5;
   zero [+] a0 [*] b6 [+] a3 [*] b7 [+] a6 [*] b8;
   zero [+] a1 [*] b6 [+] a4 [*] b7 [+] a7 [*] b8;
   zero [+] a2 [*] b6 [+] a5 [*] b7 [+] a8 [*] b8].
Proof. vm_compute. reflexivity. Qed.

End Rotation.

(** C6 as stated fails: over the reals, with the angles [x = y = PI / 2],
    [z = 0] and the invalid order [0], the element (0, 1) of the matrix
    returned is [0], while the element (0, 1) of [ry * rx * rz] (order 312)
    is [1]. *)
Lemma rotation_invalid_order_not_312 :
  at_ 3 3 (fst (rotation_Mat3 (PI / 2)%R (PI / 2)%R 0%R 0%Z)) 0 1 = 0%R /\
  at_ 3 3 (compose_312 (PI / 2)%R (PI / 2)%R 0%R) 0 1 = 1%R /\
  fst (rotation_Mat3 (PI / 2)%R (PI / 2)%R 0%R 0%Z)
    <> fst (rotation_Mat3 (PI / 2)%R (PI / 2)%R 0%R 312%Z).
Proof.
  assert (E1 : at_ 3 3 (fst (rotation_Mat3 (PI / 2)%R (PI / 2)%R 0%R 0%Z)) 0 1 = 0%R).
  { rewrite rotation_default_branch by reflexivity. unfold fst.
    unfold compose_231, rot_x, rot_y, rot_z.
    rewrite !Mat3_rows_buffer, mul_Mat3_buffer, mul_Mat3_at_0_1.
    cbn [zero one add mul neg scos ssin Scalar_R TrigOp_R].
    rewrite ?cos_PI2, ?sin_PI2, ?cos_0, ?sin_0. lra. }
  assert (E2 : at_ 3 3 (compose_312 (PI / 2)%R (PI / 2)%R 0%R) 0 1 = 1%R).
  { unfold compose_312, rot_x, rot_y, rot_z.
    rewrite !Mat3_rows_buffer, mul_Mat3_buffer, mul_Mat3_at_0_1.
    cbn [zero one add mul neg scos ssin Scalar_R TrigOp_R].
    rewrite ?cos_PI2, ?sin_PI2, ?cos_0, ?sin_0. lra. }
  split; [exact E1|]. split; [exact E2|].
  rewrite rotation_312. cbn [fst]. intros E.
  rewrite E in E1. rewrite E1 in E2. lra.
Qed.

(** The amended C6 at the reals and the order 0. *)
Lemma rotation_invalid_order_fallback_witness :
  rotation_Mat3 1%R 2%R 3%R 0%Z =
    (mul_Mat3 (mul_Mat3 (rot_x 1%R) (rot_z 3%R)) (rot_y 2%R),
     ["invalid rotation order"%string]) /\
  fst (rotation_Mat3 1%R 2%R 3%R 0%Z) = fst (rotation_Mat3 1%R 2%R 3%R 231%Z).
Proof.
  apply (@rotation_invalid_order_fallback R Scalar_R TrigOp_R 1%R 2%R 3%R 0%Z).
  reflexivity.
Defined.

(** ** Cholesky decomposition: the flag and the upper triangle *)

Lemma for_loop_S {S : Type} (body : nat -> S -> S) n lo s :
  for_loop (Datatypes.S n) lo body s = body (lo + n) (for_loop n lo body s).
Proof.
  revert lo s; induction n as [|n IH]; intros lo s.
  - simpl. now rewrite Nat.add_0_r.
  - change (for_loop (Datatypes.S (Datatypes.S n)) lo body s)
      with (for_loop (Datatypes.S n) (Datatypes.S lo) body (body lo s)).
    rewrite IH. simpl. f_equal. lia.
Qed.

Lemma for_range_S {S : Type} (body : nat -> S -> S) lo hi s :
  lo <= hi ->
  for_range lo (Datatypes.S hi) body s = body hi (for_range lo hi body s).
Proof.
  intros H. unfold for_range.
  replace (Datatypes.S hi - lo) with (Datatypes.S (hi - lo)) by lia.
  rewrite for_loop_S. f_equal. lia.
Qed.

Lemma for_range_nil {S : Type} (body : nat -> S -> S) lo hi s :
  hi <= lo -> for_range lo hi body s = s.
Proof.
  intros H. unfold for_range. replace (hi - lo) with 0 by lia. reflexivity.
Qed.

Section Cholesky.
Context {T : Type} {ST : Scalar T} {SQ : SqrtOp T}.
Local Abbreviation Mat := (@Mat T).

(** The sum [d] of the loop over [k < j]: the squares of the first [k]
    elements of row [j] of [L], added from the left starting from [0]. *)
Definition sum_squares (N : nat) (L : Mat) (j k : nat) : T :=
  for_range 0 k (fun i d => d [+] at_ N N L j i [*] at_ N N L j i) zero.

(** The diagonal term [d = A(j, j) - d] whose square root becomes [L(j, j)]. *)
Definition diag_term (N : nat) (A L : Mat) (j : nat) : T :=
  at_ N N A j j [-] sum_squares N L j j.

(** [A(k, j) == A(j, k)] for every [k < n]. *)
Definition symmetric_upto (N : nat) (A : Mat) (j n : nat) : bool :=
  forallb (fun k => at_ N N A k j [==] at_ N N A j k) (seq 0 n).

Lemma sum_squares_ext N (L L' : Mat) j k :
  (forall i, i < k -> at_ N N L j i = at_ N N L' j i) ->
  sum_squares N L j k = sum_squares N L' j k.
Proof.
  intros H. unfold sum_squares. apply for_range_ext.
  intros i d Hi. rewrite H by lia. reflexivity.
Qed.

Lemma sum_squares_S N (L : Mat) j k :
  sum_squares N L j (Datatypes.S k) =
  sum_squares N L j k [+] at_ N N L j k [*] at_ N N L j k.
Proof. unfold sum_squares. rewrite for_range_S by lia. reflexivity. Qed.

Lemma symmetric_upto_S N (A : Mat) j n :
  symmetric_upto N A j (Datatypes.S n) =
  (symmetric_upto N A j n && (at_ N N A n j [==] at_ N N A j n))%bool.
Proof.
  unfold symmetric_upto. rewrite seq_S, forallb_app. simpl.
  now rewrite andb_true_r.
Qed.

Lemma symmetric_upto_true N (A : Mat) j n :
  symmetric_upto N A j n = true <->
  forall k, k < n -> at_ N N A k j [==] at_ N N A j k = true.
Proof.
  unfold symmetric_upto. rewrite forallb_forall. split.
  - intros H k Hk. apply H. apply in_seq. lia.
  - intros H k Hk. apply in_seq in Hk. apply H. lia.
Qed.

(** The loop over [k < j]: it writes the elements [(j, k)], [k < j], and
    nothing else; it leaves in [d] the sum of their squares and in [spd] the
    conjunction of the comparisons [A(k, j) == A(j, k)]. *)
Lemma cholesky_row_spec N (A L : Mat) j (spd : bool) :
  wf N N L -> j < N ->
  let r := cholesky_row N A j (spd, L, zero) in
  wf N N (snd (fst r)) /\
  (forall a b, a < N -> (a <> j \/ j <= b) ->
     at_ N N (snd (fst r)) a b = at_ N N L a b) /\
  snd r = sum_squares N (snd (fst r)) j j /\
  fst (fst r) = (spd && symmetric_upto N A j j)%bool.
Proof.
  intros HL Hj r. unfold r, cholesky_row.
  apply (for_range_ind
           (fun k (st : bool * Mat * T) =>
              wf N N (snd (fst st)) /\
              (forall a b, a < N -> (a <> j \/ k <= b) ->
                 at_ N N (snd (fst st)) a b = at_ N N L a b) /\
              snd st = sum_squares N (snd (fst st)) j k /\
              fst (fst st) = (spd && symmetric_upto N A j k)%bool)).
  - lia.
  - simpl. repeat split; auto. now rewrite andb_true_r.
  - intros k [[spd1 L1] d1] Hk (Hwf & Hfr & Hd & Hs). simpl in *.
    set (s := (at_ N N A j k [-]
               for_range 0 k (fun i s0 => s0 [+] at_ N N L1 k i [*] at_ N N L1 j i) zero)
              [/] at_ N N L1 k k).
    assert (Hat : forall b, b < k ->
              at_ N N (set_ N N L1 j k s) j b = at_ N N L1 j b).
    { intros b Hb. apply at_set_other; auto. intros E. inversion E. lia. }
    repeat split.
    + now apply set_wf.
    + intros a b Ha Hab. rewrite at_set_other; auto.
      * apply Hfr; auto. destruct Hab; [left; auto | right; lia].
      * intros E. inversion E. lia.
    + rewrite sum_squares_S.
      rewrite at_set_same by (auto; lia).
      rewrite (sum_squares_ext N (set_ N N L1 j k s) L1 j k Hat).
      now rewrite Hd.
    + rewrite symmetric_upto_S, Hs. now rewrite andb_assoc.
Qed.

(** Writing zeros right of the diagonal of row [j]. *)
Lemma zero_right_spec N (L : Mat) j :
  wf N N L -> j < N ->
  let L' := for_range (j + 1) N (fun k L => set_ N N L j k zero) L in
  wf N N L' /\
  (forall a b, a < N -> (a <> j \/ b <= j) -> at_ N N L' a b = at_ N N L a b) /\
  (forall b, j < b < N -> at_ N N L' j b = zero).
Proof.
  intros HL Hj L'. unfold L'.
  apply (for_range_ind
           (fun k (L1 : Mat) =>
              wf N N L1 /\
              (forall a b, a < N -> (a <> j \/ b <= j) ->
                 at_ N N L1 a b = at_ N N L a b) /\
              (forall b, j < b < k -> at_ N N L1 j b = zero))).
  - lia.
  - repeat split; auto. intros b Hb; lia.
  - intros k L1 Hk (Hwf & Hfr & Hz). repeat split.
    + now apply set_wf.
    + intros a b Ha Hab. rewrite at_set_other; auto.
      intros E. inversion E. lia.
    + intros b Hb. destruct (Nat.eq_dec b k) as [->|Hne].
      * apply at_set_same; auto. lia.
      * rewrite at_set_other; auto.
        -- apply Hz. lia.
        -- intros E. inversion E. lia.
Qed.

(** One turn [j] of the outer loop. *)
Lemma cholesky_turn_spec N (A L : Mat) j (spd : bool) :
  wf N N L -> j < N ->
  let d := zero in
  let '(spd1, L1, d1) := cholesky_row N A j (spd, L, d) in
  let d2 := at_ N N A j j [-] d1 in
  let L2 := set_ N N L1 j j (ssqrt (if d2 [>] zero then d2 else zero)) in
  let L3 := for_range (j + 1) N (fun k L => set_ N N L j k zero) L2 in
  wf N N L3 /\
  (forall a b, a < N -> a <> j -> at_ N N L3 a b = at_ N N L a b) /\
  (forall b, j < b < N -> at_ N N L3 j b = zero) /\
  d2 = diag_term N A L3 j /\
  spd1 = (spd && symmetric_upto N A j j)%bool.
Proof.
  intros HL Hj d.
  pose proof (cholesky_row_spec N A L j spd HL Hj) as H.
  destruct (cholesky_row N A j (spd, L, d)) as [[spd1 L1] d1] eqn:E.
  unfold d in E. rewrite E in H. simpl in H.
  destruct H as (Hwf1 & Hfr1 & Hd1 & Hs1).
  intros d2 L2 L3.
  assert (Hwf2 : wf N N L2) by (now apply set_wf).
  destruct (zero_right_spec N L2 j Hwf2 Hj) as (Hwf3 & Hfr3 & Hz3).
  fold L3 in Hwf3, Hfr3, Hz3.
  repeat split; auto.
  - intros a b Ha Hne. rewrite Hfr3 by auto.
    unfold L2. rewrite at_set_other; auto.
    intros E'. inversion E'. lia.
  - unfold diag_term, d2. f_equal. rewrite Hd1.
    apply sum_squares_ext. intros i Hi.
    rewrite Hfr3 by (auto; right; lia).
    unfold L2. rewrite at_set_other; auto.
    intros E'. inversion E'. lia.
Qed.

Lemma diag_term_ext N (A L L' : Mat) j :
  (forall i, i < j -> at_ N N L j i = at_ N N L' j i) ->
  diag_term N A L j = diag_term N A L' j.
Proof. intros H. unfold diag_term. f_equal. now apply sum_squares_ext. Qed.

(** The invariant of the outer loop after [n] turns. *)
Definition cholesky_inv (N : nat) (A : Mat) (n : nat) (st : bool * Mat) : Prop :=
  wf N N (snd st) /\
  (forall a b, a < n -> a < b < N -> at_ N N (snd st) a b = zero) /\
  (fst st = true <->
   (forall j k, k < j -> j < n -> at_ N N A k j [==] at_ N N A j k = true) /\
   (forall j, j < n -> diag_term N A (snd st) j [>] zero = true)).

Lemma cholesky_inv_final N (A L0 : Mat) :
  wf N N L0 -> cholesky_inv N A N (cholesky_decompose N A L0).
Proof.
  intros HL0. unfold cholesky_decompose.
  apply (for_range_ind (cholesky_inv N A)).
  - lia.
  - unfold cholesky_inv. simpl. repeat split; auto; intros; lia.
  - intros j [spd L] Hj (Hwf & Hz & Hflag). simpl in Hwf, Hz, Hflag.
    pose proof (cholesky_turn_spec N A L j spd Hwf (proj2 Hj)) as H.
    cbv zeta in H.
    destruct (cholesky_row N A j (spd, L, zero)) as [[spd1 L1] d1].
    destruct H as (Hwf3 & Hfr3 & Hz3 & Hd & Hs).
    unfold cholesky_inv. cbn [fst snd].
    set (d2 := at_ N N A j j [-] d1) in *.
    set (L3 := for_range (j + 1) N (fun k L4 => set_ N N L4 j k zero)
                 (set_ N N L1 j j (ssqrt (if d2 [>] zero then d2 else zero)))) in *.
    split; [exact Hwf3|]. split.
    + intros a b Ha Hb. destruct (Nat.eq_dec a j) as [->|Hne].
      * now apply Hz3.
      * rewrite Hfr3 by lia. apply Hz; lia.
    + assert (Hdiag : forall r, r < j -> diag_term N A L3 r = diag_term N A L r).
      { intros r Hr. apply diag_term_ext. intros i Hi. apply Hfr3; lia. }
      rewrite Hs, !andb_true_iff, Hflag, symmetric_upto_true, Hd. split.
      * intros [[[Hsym Hpos] Hsymj] Hposj]. split.
        -- intros r k Hk Hr. destruct (Nat.eq_dec r j) as [->|Hne];
             [now apply Hsymj | apply Hsym; lia].
        -- intros r Hr. destruct (Nat.eq_dec r j) as [->|Hne];
             [exact Hposj | rewrite Hdiag by lia; apply Hpos; lia].
      * intros [Hsym Hpos]. repeat split.
        -- intros r k Hk Hr. apply Hsym; lia.
        -- intros r Hr. rewrite <- Hdiag by lia. apply Hpos; lia.
        -- intros k Hk. apply Hsym; lia.
        -- apply Hpos; lia.
Qed.

(** C4, amended: [cholesky_decompose(A, L)] returns [true] exactly when
    [A(k, j) == A(j, k)] holds (exact comparison of the scalar type) for
    every pair [k < j < N] and every diagonal term [A(j, j) - sum of the
    squares of L(j, 0..j-1)], computed before its square root, is strictly
    greater than [0]; and, whatever the flag, every element of the returned
    [L] above the diagonal is [0]. *)
Theorem cholesky_decompose_flag_and_upper_triangle :
  forall (N : nat) (A L0 : Mat),
    wf N N L0 ->
    let spd := fst (cholesky_decompose N A L0) in
    let L := snd (cholesky_decompose N A L0) in
    (spd = true <->
     (forall j k, k < j -> j < N -> at_ N N A k j [==] at_ N N A j k = true) /\
     (forall j, j < N -> diag_term N A L j [>] zero = true)) /\
    (forall j k, j < k < N -> at_ N N L j k = zero) /\
    wf N N L.
Proof.
  intros N A L0 HL0 spd L.
  destruct (cholesky_inv_final N A L0 HL0) as (Hwf & Hz & Hflag).
  split; [exact Hflag|]. split; [|exact Hwf].
  intros j k Hjk. apply Hz; lia.
Qed.

End Cholesky.

(** C4 as stated fails at the 1-by-1 matrix [(0)] of doubles: it is
    symmetric and its only diagonal term is [0], which is [>= 0], yet the
    flag returned is [false]. *)
Lemma cholesky_zero_diagonal_term_rejected :
  fst (cholesky_decompose 1 [0%float] [0%float]) = false /\
  diag_term 1 [0%float] (snd (cholesky_decompose 1 [0%float] [0%float])) 0
    = 0%float /\
  (diag_term 1 [0%float] (snd (cholesky_decompose 1 [0%float] [0%float])) 0
     [>=] zero) = true /\
  (forall j k, k < j -> j < 1 ->
     (at_ 1 1 [0%float] k j [==] at_ 1 1 [0%float] j k) = true).
Proof.
  repeat split; try (vm_compute; reflexivity).
  intros j k Hk Hj. lia.
Qed.

(** The amended C4 at a symmetric positive-definite 2-by-2 matrix of doubles,
    [[4, 2], [2, 3]]. *)
Lemma cholesky_decompose_flag_and_upper_triangle_witness :
  (fst (cholesky_decompose 2 [4; 2; 2; 3]%float [0; 0; 0; 0]%float) = true <->
   (forall j k, k < j -> j < 2 ->
      (at_ 2 2 [4; 2; 2; 3]%float k j [==] at_ 2 2 [4; 2; 2; 3]%float j k) = true) /\
   (forall j, j < 2 ->
      (diag_term 2 [4; 2; 2; 3]%float
         (snd (cholesky_decompose 2 [4; 2; 2; 3]%float [0; 0; 0; 0]%float)) j
       [>] zero) = true)) /\
  (forall j k, j < k < 2 ->
     at_ 2 2 (snd (cholesky_decompose 2 [4; 2; 2; 3]%float [0; 0; 0; 0]%float)) j k
     = zero) /\
  wf 2 2 (snd (cholesky_decompose 2 [4; 2; 2; 3]%float [0; 0; 0; 0]%float)).
Proof.
  apply (@cholesky_decompose_flag_and_upper_triangle
           float Scalar_float SqrtOp_float 2 [4; 2; 2; 3]%float [0; 0; 0; 0]%float).
  reflexivity.
Defined.

(** ** Loops that may return *)

Lemma for_loop_ret_inr {S R : Type} (body : nat -> S -> S + R) n :
  forall lo s r,
    for_loop_ret n lo body s = inr r <->
    exists i s', i < n /\ for_loop_ret i lo body s = inl s' /\
                 body (lo + i) s' = inr r.
Proof.
  induction n as [|n IH]; intros lo s r; simpl.
  - split; [discriminate | intros (i & s' & Hi & _); lia].
  - destruct (body lo s) as [s1|r1] eqn:E.
    + rewrite IH. split.
      * intros (i & s' & Hi & Hp & Hb).
        exists (Datatypes.S i), s'. simpl. rewrite E.
        repeat split; [lia | exact Hp |].
        now replace (lo + Datatypes.S i) with (Datatypes.S lo + i) by lia.
      * intros (i & s' & Hi & Hp & Hb).
        destruct i as [|i]; simpl in Hp.
        -- inversion Hp; subst s'. rewrite Nat.add_0_r in Hb. congruence.
        -- rewrite E in Hp. exists i, s'.
           repeat split; [lia | exact Hp |].
           now replace (Datatypes.S lo + i) with (lo + Datatypes.S i) by lia.
    + split.
      * intros H. exists 0, s. simpl. rewrite Nat.add_0_r.
        repeat split; [lia | congruence].
      * intros (i & s' & Hi & Hp & Hb).
        destruct i as [|i]; simpl in Hp.
        -- inversion Hp; subst s'. rewrite Nat.add_0_r in Hb. congruence.
        -- rewrite E in Hp. discriminate.
Qed.

Lemma for_loop_ret_inl_S {S R : Type} (body : nat -> S -> S + R) n :
  forall lo s s',
    for_loop_ret (Datatypes.S n) lo body s = inl s' <->
    exists s1, for_loop_ret n lo body s = inl s1 /\ body (lo + n) s1 = inl s'.
Proof.
  induction n as [|n IH]; intros lo s s'.
  - simpl. rewrite Nat.add_0_r. split.
    + intros H. exists s. split; auto. destruct (body lo s); congruence.
    + intros (s1 & H1 & H2). inversion H1; subst. now rewrite H2.
  - change (for_loop_ret (Datatypes.S (Datatypes.S n)) lo body s)
      with (match body lo s with
            | inl s1 => for_loop_ret (Datatypes.S n) (Datatypes.S lo) body s1
            | inr r => inr r
            end).
    change (for_loop_ret (Datatypes.S n) lo body s)
      with (match body lo s with
            | inl s1 => for_loop_ret n (Datatypes.S lo) body s1
            | inr r => inr r
            end).
    destruct (body lo s) as [s1|r1].
    + rewrite IH.
      now replace (Datatypes.S lo + n) with (lo + Datatypes.S n) by lia.
    + split; [discriminate | intros (s1 & H1 & _); discriminate].
Qed.

(** A loop that ran [n] turns without returning ran its first [i] turns
    without returning. *)
Lemma for_loop_ret_prefix {S R : Type} (body : nat -> S -> S + R) n :
  forall lo s s' i,
    for_loop_ret n lo body s = inl s' -> i <= n ->
    exists si, for_loop_ret i lo body s = inl si.
Proof.
  induction n as [|n IH]; intros lo s s' i H Hi.
  - replace i with 0 by lia. exists s. reflexivity.
  - destruct (Nat.eq_dec i (Datatypes.S n)) as [->|Hne]; [eauto|].
    apply for_loop_ret_inl_S in H. destruct H as (s1 & H1 & _).
    apply (IH lo s s1 i H1). lia.
Qed.

(** An invariant of the turns that do not return. *)
Lemma for_loop_ret_ind {S R : Type} (P : nat -> S -> Prop)
      (body : nat -> S -> S + R) n :
  forall s s',
    P 0 s ->
    (forall i si si', i < n -> P i si -> body i si = inl si' ->
       P (Datatypes.S i) si') ->
    for_loop_ret n 0 body s = inl s' ->
    P n s'.
Proof.
  induction n as [|n IH]; intros s s' H0 Hstep H.
  - simpl in H. inversion H; subst. exact H0.
  - apply for_loop_ret_inl_S in H. destruct H as (s1 & H1 & H2).
    simpl in H2. apply (Hstep n s1 s'); [lia| |exact H2].
    apply (IH s s1); [exact H0| |exact H1].
    intros i si si' Hi. apply Hstep. lia.
Qed.

(** ** Gauss-Jordan elimination: the flag and the buffers on failure *)

Section GaussJordanFlag.
Context {T : Type} {ST : Scalar T} {CT : Constants T}.
Local Abbreviation Mat := (@Mat T).

(** [ipiv] after [for (i < N) ipiv[i] = 0]. *)
Definition ipiv_init (N : nat) : list nat :=
  for_range 0 N (fun i ipiv => upd i 0 ipiv) (repeat 0 N).

(** The state in which the main loop is entered: the buffers hold copies of
    [a] and [b]. *)
Definition gj_init (N : nat) (a b : Mat) : gj_state :=
  (a, b, ipiv_init N, repeat 0 N, repeat 0 N).

(** The first [n] turns of the main loop. *)
Definition gj_turns (N M n : nat) (a b : Mat) : gj_state + outcome (bool * Mat * Mat) :=
  for_loop_ret n 0 (gj_step N M) (gj_init N a b).

(** What a turn has in hand when it tests for a singular matrix: the pivot
    position [(maxr, maxc)] found by the search, and the two buffers after
    the exchange of the rows [maxr] and [maxc]. *)
Definition gj_at_test (N M : nat) (st : gj_state) : option (nat * nat * Mat * Mat) :=
  let '(amat, bmat, ipiv, _, _) := st in
  let found := find_pivot N ipiv amat in
  match ps_maxr found, ps_maxc found with
  | Some maxr, Some maxc =>
      if negb (Nat.eqb maxr maxc)
      then Some (maxr, maxc, swap_rows N N amat maxr maxc, swap_rows N M bmat maxr maxc)
      else Some (maxr, maxc, amat, bmat)
  | _, _ => None
  end.

Lemma gauss_jordan_elimination_turns N M (a b ainv0 x0 : Mat) :
  gauss_jordan_elimination N M a b ainv0 x0 =
  match gj_turns N M N a b with
  | inr r => r
  | inl (amat, bmat, _, indxr, indxc) =>
      Ret (true, undo_column_swaps N indxr indxc amat, bmat)
  end.
Proof.
  unfold gauss_jordan_elimination, gj_turns, gj_init, ipiv_init, for_range_ret.
  now rewrite Nat.sub_0_r.
Qed.

Lemma gj_step_false N M i (st : gj_state) (ainv x : Mat) :
  gj_step N M i st = inr (Ret (false, ainv, x)) <->
  exists maxr maxc,
    gj_at_test N M st = Some (maxr, maxc, ainv, x) /\
    sabs (at_ N N ainv maxc maxc) [<] epsilon = true.
Proof.
  destruct st as [[[[amat bmat] ipiv] indxr] indxc].
  unfold gj_step, gj_at_test.
  destruct (ps_maxr (find_pivot N ipiv amat)) as [maxr|];
    [|split; [discriminate | intros (? & ? & ? & _); discriminate]].
  destruct (ps_maxc (find_pivot N ipiv amat)) as [maxc|];
    [|split; [discriminate | intros (? & ? & ? & _); discriminate]].
  destruct (negb (Nat.eqb maxr maxc)).
  - destruct (sabs (at_ N N (swap_rows N N amat maxr maxc) maxc maxc) [<] epsilon) eqn:E.
    + split.
      * intros H. inversion H; subst. exists maxr, maxc. split; auto.
      * intros (r & c & H & _). inversion H; subst. reflexivity.
    + split.
      * destruct (gj_reduce_rows _ _ _ _ _); discriminate.
      * intros (r & c & H & Hlt). inversion H; subst. congruence.
  - destruct (sabs (at_ N N amat maxc maxc) [<] epsilon) eqn:E.
    + split.
      * intros H. inversion H; subst. exists maxr, maxc. split; auto.
      * intros (r & c & H & _). inversion H; subst. reflexivity.
    + split.
      * destruct (gj_reduce_rows _ _ _ _ _); discriminate.
      * intros (r & c & H & Hlt). inversion H; subst. congruence.
Qed.

Lemma gj_step_continues N M i (st st' : gj_state) :
  gj_step N M i st = inl st' ->
  exists maxr maxc amat bmat,
    gj_at_test N M st = Some (maxr, maxc, amat, bmat) /\
    sabs (at_ N N amat maxc maxc) [<] epsilon = false.
Proof.
  destruct st as [[[[amat bmat] ipiv] indxr] indxc].
  unfold gj_step, gj_at_test.
  destruct (ps_maxr (find_pivot N ipiv amat)) as [maxr|]; [|discriminate].
  destruct (ps_maxc (find_pivot N ipiv amat)) as [maxc|]; [|discriminate].
  destruct (negb (Nat.eqb maxr maxc)).
  - destruct (sabs (at_ N N (swap_rows N N amat maxr maxc) maxc maxc) [<] epsilon) eqn:E;
      [discriminate|]. intros _. eauto 6.
  - destruct (sabs (at_ N N amat maxc maxc) [<] epsilon) eqn:E;
      [discriminate|]. intros _. eauto 6.
Qed.

Lemma gj_step_accepts N M i (st : gj_state) maxr maxc amat bmat :
  gj_at_test N M st = Some (maxr, maxc, amat, bmat) ->
  sabs (at_ N N amat maxc maxc) [<] epsilon = false ->
  exists st', gj_step N M i st = inl st'.
Proof.
  destruct st as [[[[amat0 bmat0] ipiv] indxr] indxc].
  unfold gj_step, gj_at_test.
  destruct (ps_maxr (find_pivot N ipiv amat0)) as [r|]; [|discriminate].
  destruct (ps_maxc (find_pivot N ipiv amat0)) as [c|]; [|discriminate].
  destruct (negb (Nat.eqb r c)); intros H Hlt; inversion H; subst;
    rewrite Hlt; destruct (gj_reduce_rows _ _ _ _ _); eauto.
Qed.

Lemma gj_step_never_true N M i (st : gj_state) (ainv x : Mat) :
  gj_step N M i st <> inr (Ret (true, ainv, x)).
Proof.
  destruct st as [[[[amat bmat] ipiv] indxr] indxc].
  unfold gj_step.
  destruct (ps_maxr (find_pivot N ipiv amat)) as [maxr|]; [|discriminate].
  destruct (ps_maxc (find_pivot N ipiv amat)) as [maxc|]; [|discriminate].
  destruct (negb (Nat.eqb maxr maxc)).
  - destruct (sabs _ [<] epsilon); [discriminate|].
    destruct (gj_reduce_rows _ _ _ _ _); discriminate.
  - destruct (sabs _ [<] epsilon); [discriminate|].
    destruct (gj_reduce_rows _ _ _ _ _); discriminate.
Qed.

(** The function returns [false] with the buffers [ainv], [x] exactly when
    some turn [i], reached after [i] complete turns, tests a pivot of
    magnitude under [epsilon]; the buffers are those of that moment. *)
Lemma gauss_jordan_false_iff N M (a b ainv0 x0 ainv x : Mat) :
  gauss_jordan_elimination N M a b ainv0 x0 = Ret (false, ainv, x) <->
  exists i st maxr maxc,
    i < N /\ gj_turns N M i a b = inl st /\
    gj_at_test N M st = Some (maxr, maxc, ainv, x) /\
    sabs (at_ N N ainv maxc maxc) [<] epsilon = true.
Proof.
  rewrite gauss_jordan_elimination_turns. unfold gj_turns. split.
  - destruct (for_loop_ret N 0 (gj_step N M) (gj_init N a b)) as [st|r] eqn:E.
    + destruct st as [[[[amat bmat] ipiv] indxr] indxc]. discriminate.
    + intros ->. apply for_loop_ret_inr in E.
      destruct E as (i & st & Hi & Hp & Hb). simpl in Hb.
      apply gj_step_false in Hb. destruct Hb as (maxr & maxc & Ht & Hlt).
      exists i, st, maxr, maxc. auto.
  - intros (i & st & maxr & maxc & Hi & Hp & Ht & Hlt).
    assert (E : for_loop_ret N 0 (gj_step N M) (gj_init N a b)
                = inr (Ret (false, ainv, x))).
    { apply for_loop_ret_inr. exists i, st. repeat split; auto.
      simpl. apply gj_step_false. eauto. }
    now rewrite E.
Qed.

Lemma gauss_jordan_true_iff N M (a b ainv0 x0 : Mat) :
  (exists ainv x, gauss_jordan_elimination N M a b ainv0 x0 = Ret (true, ainv, x)) <->
  exists st, gj_turns N M N a b = inl st.
Proof.
  rewrite gauss_jordan_elimination_turns. unfold gj_turns. split.
  - intros (ainv & x & H).
    destruct (for_loop_ret N 0 (gj_step N M) (gj_init N a b)) as [st|r] eqn:E;
      [eauto|].
    subst r. apply for_loop_ret_inr in E.
    destruct E as (i & st & _ & _ & Hb). now apply gj_step_never_true in Hb.
  - intros (st & H). rewrite H.
    destruct st as [[[[amat bmat] ipiv] indxr] indxc]. eauto.
Qed.

(** C3, amended: [gauss_jordan_elimination] returns [false] exactly when, at
    some turn of its main loop reached after complete turns, the pivot that
    the full search selected has a magnitude strictly under [epsilon] (a
    magnitude equal to [epsilon] is accepted); it returns [true] exactly when
    each of the [N] turns finds a pivot and accepts it. *)
Theorem gauss_jordan_flag :
  forall (N M : nat) (a b ainv0 x0 : Mat),
    (forall ainv x,
       gauss_jordan_elimination N M a b ainv0 x0 = Ret (false, ainv, x) <->
       exists i st maxr maxc,
         i < N /\ gj_turns N M i a b = inl st /\
         gj_at_test N M st = Some (maxr, maxc, ainv, x) /\
         sabs (at_ N N ainv maxc maxc) [<] epsilon = true) /\
    ((exists ainv x,
        gauss_jordan_elimination N M a b ainv0 x0 = Ret (true, ainv, x)) <->
     forall i, i < N ->
       exists st maxr maxc amat bmat,
         gj_turns N M i a b = inl st /\
         gj_at_test N M st = Some (maxr, maxc, amat, bmat) /\
         sabs (at_ N N amat maxc maxc) [<] epsilon = false).
Proof.
  intros N M a b ainv0 x0. split.
  - intros ainv x. apply gauss_jordan_false_iff.
  - rewrite gauss_jordan_true_iff. unfold gj_turns. split.
    + intros (st & H) i Hi.
      destruct (for_loop_ret_prefix _ N 0 _ st (Datatypes.S i) H) as (s1 & H1); [lia|].
      apply for_loop_ret_inl_S in H1. destruct H1 as (si & Hsi & Hb).
      simpl in Hb. apply gj_step_continues in Hb.
      destruct Hb as (maxr & maxc & amat & bmat & Ht & Hlt).
      exists si, maxr, maxc, amat, bmat. auto.
    + intros H.
      assert (G : forall n, n <= N ->
                exists st, for_loop_ret n 0 (gj_step N M) (gj_init N a b) = inl st).
      { induction n as [|n IH]; intros Hn.
        - exists (gj_init N a b). reflexivity.
        - destruct (H n) as (st & maxr & maxc & amat & bmat & Hp & Ht & Hlt); [lia|].
          destruct (gj_step_accepts N M n st _ _ _ _ Ht Hlt) as (st' & Hst').
          exists st'. apply for_loop_ret_inl_S. exists st. split; auto. }
      apply G. lia.
Qed.

(** C9: when [gauss_jordan_elimination(a, b, ainv, x)] returns [false], what
    [*ainv] and [*x] held before the call plays no role in what they hold
    after it: they hold the copies of [a] and [b] as reduced by the complete
    turns that came before, with the rows of the failing turn's pivot
    already exchanged. *)
Theorem gauss_jordan_failure_overwrites_outputs :
  forall (N M : nat) (a b ainv0 x0 ainv x : Mat),
    gauss_jordan_elimination N M a b ainv0 x0 = Ret (false, ainv, x) ->
    (forall ainv1 x1,
       gauss_jordan_elimination N M a b ainv1 x1 = Ret (false, ainv, x)) /\
    exists i st maxr maxc,
      i < N /\ gj_turns N M i a b = inl st /\
      gj_at_test N M st = Some (maxr, maxc, ainv, x).
Proof.
  intros N M a b ainv0 x0 ainv x H.
  apply gauss_jordan_false_iff in H.
  split.
  - intros ainv1 x1. now apply gauss_jordan_false_iff.
  - destruct H as (i & st & maxr & maxc & Hi & Hp & Ht & _).
    exists i, st, maxr, maxc. auto.
Qed.

End GaussJordanFlag.

(** *** Examples on doubles *)

(** C3 as stated fails, in two ways.  A pivot whose magnitude is exactly
    [epsilon] is accepted: the 1-by-1 matrix [(epsilon)] gives [true].  And
    the non-singular matrix [diag(2^60, 2^-50)], of determinant [2^10], gives
    [false], because its second pivot [2^-50] is under [epsilon]. *)
Lemma gauss_jordan_flag_counterexample :
  @gauss_jordan_elimination float Scalar_float Constants_float 1 1
     [@epsilon float Constants_float] [1%float] [0%float] [0%float]
  = Ret (true, [1000000%float], [1000000%float]) /\
  @gauss_jordan_elimination float Scalar_float Constants_float 2 1
     [0x1p60; 0; 0; 0x1p-50]%float [1; 1]%float [9; 9; 9; 9]%float [9; 9]%float
  = Ret (false, [0x1p-60; 0; 0; 0x1p-50]%float, [0x1p-60; 1]%float) /\
  determinant_Mat2 [0x1p60; 0; 0; 0x1p-50]%float = 0x1p10%float.
Proof. repeat split; vm_compute; reflexivity. Qed.

(** C9 at the matrix [diag(2^60, 2^-50)] with the right-hand side [(1, 1)]:
    the call fails at its second turn; the buffers, which held nines, hold
    the first row scaled by [2^-60] and the second row untouched. *)
Lemma gauss_jordan_failure_overwrites_outputs_witness :
  (forall ainv1 x1,
     @gauss_jordan_elimination float Scalar_float Constants_float 2 1
        [0x1p60; 0; 0; 0x1p-50]%float [1; 1]%float ainv1 x1
     = Ret (false, [0x1p-60; 0; 0; 0x1p-50]%float, [0x1p-60; 1]%float)) /\
  exists i st maxr maxc,
    i < 2 /\
    @gj_turns float Scalar_float Constants_float 2 1 i
       [0x1p60; 0; 0; 0x1p-50]%float [1; 1]%float = inl st /\
    gj_at_test 2 1 st =
      Some (maxr, maxc, [0x1p-60; 0; 0; 0x1p-50]%float, [0x1p-60; 1]%float).
Proof.
  apply (@gauss_jordan_failure_overwrites_outputs float Scalar_float Constants_float
           2 1 [0x1p60; 0; 0; 0x1p-50]%float [1; 1]%float
           [9; 9; 9; 9]%float [9; 9]%float).
  vm_compute. reflexivity.
Defined.

(** ** The rank-1 matrix [[1, 2], [2, 4]] *)

(** C5 as stated fails for [inverse]: the closed-form [inverse(Mat2)]
    divides by the determinant [0] and returns four infinities, with no flag
    and no log; the generic [inverse] finds no element of positive magnitude
    at its second turn and reads the pivot indices it never assigned, so it
    does not reach its error message either.  [lu_decomposition] does return
    [false]. *)
Lemma rank_one_inverse_not_flagged :
  inverse_Mat2 [1; 2; 2; 4]%float =
    [infinity; neg_infinity; neg_infinity; infinity] /\
  @inverse float Scalar_float Constants_float 2 [1; 2; 2; 4]%float = Undef /\
  @lu_decomposition float Scalar_float Constants_float 2 [1; 2; 2; 4]%float
     [0; 0]%float
  = Ret (false, [2; 0.5; 4; 0]%float, [1; 1]%float, (-1)%float).
Proof. repeat split; vm_compute; reflexivity. Qed.

(** C5, amended: for the rank-1 matrix [[1, 2], [2, 4]], on doubles,
    [lu_decomposition] returns [false] (the second pivot is exactly [0]) and
    the closed-form determinant is exactly [0]; the closed-form
    [inverse(Mat2)] makes no test and returns the adjugate multiplied by
    [1 / 0], four infinite entries. *)
Theorem rank_one_singularity :
  (exists alu rowp d,
     @lu_decomposition float Scalar_float Constants_float 2 [1; 2; 2; 4]%float
        [0; 0]%float = Ret (false, alu, rowp, d) /\
     at_ 2 2 alu 1 1 = 0%float) /\
  determinant_Mat2 [1; 2; 2; 4]%float = 0%float /\
  (forall c, In c (inverse_Mat2 [1; 2; 2; 4]%float) ->
     PrimFloat.is_infinity c = true).
Proof.
  split; [|split].
  - exists [2; 0.5; 4; 0]%float, [1; 1]%float, (-1)%float.
    split; vm_compute; reflexivity.
  - vm_compute; reflexivity.
  - intros c Hc.
    replace (inverse_Mat2 [1; 2; 2; 4]%float)
      with [infinity; neg_infinity; neg_infinity; infinity] in Hc
      by (vm_compute; reflexivity).
    simpl in Hc.
    destruct Hc as [<-|[<-|[<-|[<-|[]]]]]; vm_compute; reflexivity.
Qed.

(** ** The row and column primitives, element by element *)

Lemma for_loop_ext_inv {S : Type} (I : S -> Prop) (f g : nat -> S -> S) n :
  forall lo s,
    I s ->
    (forall i s', lo <= i < lo + n -> I s' -> f i s' = g i s' /\ I (g i s')) ->
    for_loop n lo f s = for_loop n lo g s /\ I (for_loop n lo g s).
Proof.
  induction n as [|n IH]; intros lo s H0 Hstep; simpl.
  - auto.
  - destruct (Hstep lo s) as [E HI]; [lia|exact H0|].
    rewrite E. apply IH; auto.
    intros i s' Hi. apply Hstep. lia.
Qed.

Lemma for_range_ext_inv {S : Type} (I : S -> Prop) (f g : nat -> S -> S) lo hi s :
  I s ->
  (forall i s', lo <= i < hi -> I s' -> f i s' = g i s' /\ I (g i s')) ->
  for_range lo hi f s = for_range lo hi g s /\ I (for_range lo hi g s).
Proof.
  intros H0 Hstep. unfold for_range. apply for_loop_ext_inv; auto.
  intros i s' Hi. apply Hstep. lia.
Qed.

(** Case analysis on the comparisons of indices left in a goal. *)
Ltac nat_cases :=
  repeat match goal with
         | |- context [Nat.eqb ?x ?y] => destruct (Nat.eqb_spec x y)
         | |- context [Nat.ltb ?x ?y] => destruct (Nat.ltb_spec x y)
         end;
  simpl; subst; try lia; try reflexivity; try congruence.

Section Primitives.
Context {T : Type} {ST : Scalar T}.
Local Abbreviation Mat := (@Mat T).

(** The transposition of the indices [a] and [b]. *)
Definition transp (a b r : nat) : nat :=
  if Nat.eqb r a then b else if Nat.eqb r b then a else r.

Lemma transp_lt a b r N : a < N -> b < N -> r < N -> transp a b r < N.
Proof.
  intros Ha Hb Hr. unfold transp.
  destruct (Nat.eqb r a); [exact Hb|]. destruct (Nat.eqb r b); auto.
Qed.

Lemma transp_involutive a b r : transp a b (transp a b r) = r.
Proof.
  unfold transp.
  destruct (Nat.eqb_spec r a) as [->|Hra].
  - destruct (Nat.eqb_spec b a) as [->|Hba]; [reflexivity|].
    now rewrite Nat.eqb_refl.
  - destruct (Nat.eqb_spec r b) as [->|Hrb].
    + now rewrite Nat.eqb_refl.
    + destruct (Nat.eqb_spec r a); [contradiction|].
      destruct (Nat.eqb_spec r b); [contradiction|reflexivity].
Qed.

Lemma transp_same a r : transp a a r = r.
Proof.
  unfold transp. destruct (Nat.eqb_spec r a) as [->|H]; reflexivity.
Qed.

Lemma transp_fix a b r : r <> a -> r <> b -> transp a b r = r.
Proof.
  intros Ha Hb. unfold transp.
  destruct (Nat.eqb_spec r a); [contradiction|].
  destruct (Nat.eqb_spec r b); [contradiction|reflexivity].
Qed.

Lemma upd_upd (i : nat) (v w : T) (l : list T) : upd i v (upd i w l) = upd i v l.
Proof.
  revert i; induction l as [|x tl IH]; intros [|i]; simpl; auto.
  now rewrite IH.
Qed.

Lemma set_set N M (m : Mat) r c v w :
  set_ N M (set_ N M m r c w) r c v = set_ N M m r c v.
Proof. unfold set_. apply upd_upd. Qed.

(** [swap_rows]. *)
Lemma swap_rows_spec N M (m : Mat) a b :
  wf N M m -> a < N -> b < N ->
  wf N M (swap_rows N M m a b) /\
  forall r c, r < N -> c < M ->
    at_ N M (swap_rows N M m a b) r c = at_ N M m (transp a b r) c.
Proof.
  intros Hwf Ha Hb. unfold swap_rows.
  pose (P := fun i (m1 : Mat) =>
               wf N M m1 /\
               forall r c, r < N -> c < M ->
                 at_ N M m1 r c =
                 if Nat.ltb c i then at_ N M m (transp a b r) c
                 else at_ N M m r c).
  assert (G : P M (for_range 0 M (fun i this =>
                 let tmp := at_ N M this a i in
                 let this := set_ N M this a i (at_ N M this b i) in
                 set_ N M this b i tmp) m)).
  { apply (for_range_ind P); [lia| |]; unfold P.
    - split; [exact Hwf | intros r c _ _; reflexivity].
    - intros i m1 Hi [Hwf1 Hat]. cbv zeta. split.
      + now repeat apply set_wf.
      + intros r c Hr Hc.
        rewrite !at_set by (auto; try lia; now apply set_wf).
        rewrite !Hat by (auto; lia). unfold transp.
        nat_cases. }
  destruct G as [G1 G2]. split; auto.
  intros r c Hr Hc. rewrite G2 by auto.
  now replace (Nat.ltb c M) with true by (symmetry; apply Nat.ltb_lt; lia).
Qed.

(** [swap_cols]. *)
Lemma swap_cols_spec N M (m : Mat) a b :
  wf N M m -> a < M -> b < M ->
  wf N M (swap_cols N M m a b) /\
  forall r c, r < N -> c < M ->
    at_ N M (swap_cols N M m a b) r c = at_ N M m r (transp a b c).
Proof.
  intros Hwf Ha Hb. unfold swap_cols.
  pose (P := fun i (m1 : Mat) =>
               wf N M m1 /\
               forall r c, r < N -> c < M ->
                 at_ N M m1 r c =
                 if Nat.ltb r i then at_ N M m r (transp a b c)
                 else at_ N M m r c).
  assert (G : P N (for_range 0 N (fun i this =>
                 let tmp := at_ N M this i a in
                 let this := set_ N M this i a (at_ N M this i b) in
                 set_ N M this i b tmp) m)).
  { apply (for_range_ind P); [lia| |]; unfold P.
    - split; [exact Hwf | intros r c _ _; reflexivity].
    - intros i m1 Hi [Hwf1 Hat]. cbv zeta. split.
      + now repeat apply set_wf.
      + intros r c Hr Hc.
        rewrite !at_set by (auto; try lia; now apply set_wf).
        rewrite !Hat by (auto; lia). unfold transp.
        nat_cases. }
  destruct G as [G1 G2]. split; auto.
  intros r c Hr Hc. rewrite G2 by auto.
  now replace (Nat.ltb r N) with true by (symmetry; apply Nat.ltb_lt; lia).
Qed.

Lemma Vec_default_length N : length (Vec_default N : @Vec T) = N.
Proof. apply repeat_length. Qed.

(** [row]. *)
Lemma row_spec N M (m : Mat) r :
  length (row N M m r) = M /\
  forall i, i < M -> vec_at (row N M m r) i = at_ N M m r i.
Proof.
  unfold row.
  pose (P := fun i (v : @Vec T) =>
               length v = M /\
               forall k, k < i -> vec_at v k = at_ N M m r k).
  assert (G : P M (for_range 0 M
                     (fun i result => upd i (at_ N M m r i) result)
                     (Vec_default M))).
  { apply (for_range_ind P); [lia| |]; unfold P.
    - split; [apply Vec_default_length | intros k Hk; lia].
    - intros i v Hi [Hlen Hat]. split.
      + now rewrite upd_length.
      + intros k Hk. unfold vec_at. rewrite nth_upd by lia.
        destruct (Nat.eqb_spec i k) as [->|Hne]; [reflexivity|].
        apply Hat. lia. }
  exact G.
Qed.

Lemma vec_scale_spec (v : @Vec T) (s : T) :
  length (vec_scale v s) = length v /\
  forall i, i < length v -> vec_at (vec_scale v s) i = vec_at v i [*] s.
Proof.
  unfold vec_scale, vec_at. split; [apply length_map|].
  intros i Hi.
  rewrite (nth_indep _ indet (indet [*] s)) by (now rewrite length_map).
  apply (map_nth (fun x => x [*] s)).
Qed.

(** [set_row]. *)
Lemma set_row_spec N M (m : Mat) r (v : @Vec T) :
  wf N M m -> r < N ->
  wf N M (set_row N M m r v) /\
  forall r' c, r' < N -> c < M ->
    at_ N M (set_row N M m r v) r' c =
    if Nat.eqb r' r then vec_at v c else at_ N M m r' c.
Proof.
  intros Hwf Hr. unfold set_row.
  pose (P := fun i (m1 : Mat) =>
               wf N M m1 /\
               forall r' c, r' < N -> c < M ->
                 at_ N M m1 r' c =
                 if (Nat.eqb r' r && Nat.ltb c i)%bool then vec_at v c
                 else at_ N M m r' c).
  assert (G : P M (for_range 0 M
                     (fun i this => set_ N M this r i (vec_at v i)) m)).
  { apply (for_range_ind P); [lia| |]; unfold P.
    - split; [exact Hwf|]. intros r' c _ _.
      now rewrite andb_false_r.
    - intros i m1 Hi [Hwf1 Hat]. split.
      + now apply set_wf.
      + intros r' c Hr' Hc.
        rewrite at_set by (auto; lia). rewrite Hat by auto.
        nat_cases. }
  destruct G as [G1 G2]. split; auto.
  intros r' c Hr' Hc. rewrite G2 by auto.
  replace (Nat.ltb c M) with true by (symmetry; apply Nat.ltb_lt; lia).
  now rewrite andb_true_r.
Qed.

(** The loop over [k] of "reduce rows" for one row [j <> maxc], once
    [result(j, maxc)] has been set to [0]. *)
Lemma reduce_one_row_spec N (m : Mat) j maxc (dum : T) :
  wf N N m -> j < N -> maxc < N -> j <> maxc ->
  let m' := for_range 0 N (fun k result =>
              set_ N N result j k
                (at_ N N result j k [-] at_ N N result maxc k [*] dum)) m in
  wf N N m' /\
  forall r c, r < N -> c < N ->
    at_ N N m' r c =
    if Nat.eqb r j then at_ N N m j c [-] at_ N N m maxc c [*] dum
    else at_ N N m r c.
Proof.
  intros Hwf Hj Hc Hne m'. unfold m'.
  pose (P := fun i (m1 : Mat) =>
               wf N N m1 /\
               forall r c, r < N -> c < N ->
                 at_ N N m1 r c =
                 if (Nat.eqb r j && Nat.ltb c i)%bool
                 then at_ N N m j c [-] at_ N N m maxc c [*] dum
                 else at_ N N m r c).
  assert (G : P N (for_range 0 N (fun k result =>
                set_ N N result j k
                  (at_ N N result j k [-] at_ N N result maxc k [*] dum)) m)).
  { apply (for_range_ind P); [lia| |]; unfold P.
    - split; [exact Hwf|]. intros r c _ _. now rewrite andb_false_r.
    - intros i m1 Hi [Hwf1 Hat]. split.
      + now apply set_wf.
      + intros r c Hr Hc'.
        rewrite at_set by (auto; lia). rewrite !Hat by (auto; lia).
        nat_cases. }
  destruct G as [G1 G2]. split; auto.
  intros r c Hr Hc'. rewrite G2 by auto.
  replace (Nat.ltb c N) with true by (symmetry; apply Nat.ltb_lt; lia).
  now rewrite andb_true_r.
Qed.

(** [reduce_rows]: row [maxc] is kept; in every other row [j] the element
    of column [maxc] becomes [0 - result(maxc, maxc) * result(j, maxc)] and
    the element of a column [k <> maxc] loses
    [result(maxc, k) * result(j, maxc)]. *)
Lemma reduce_rows_spec N (m : Mat) maxc :
  wf N N m -> maxc < N ->
  wf N N (reduce_rows N m maxc) /\
  forall r c, r < N -> c < N ->
    at_ N N (reduce_rows N m maxc) r c =
    if Nat.eqb r maxc then at_ N N m maxc c
    else if Nat.eqb c maxc
         then zero [-] at_ N N m maxc maxc [*] at_ N N m r maxc
         else at_ N N m r c [-] at_ N N m maxc c [*] at_ N N m r maxc.
Proof.
  intros Hwf Hc. unfold reduce_rows.
  pose (P := fun i (m1 : Mat) =>
               wf N N m1 /\
               forall r c, r < N -> c < N ->
                 at_ N N m1 r c =
                 if (Nat.ltb r i && negb (Nat.eqb r maxc))%bool
                 then if Nat.eqb c maxc
                      then zero [-] at_ N N m maxc maxc [*] at_ N N m r maxc
                      else at_ N N m r c [-] at_ N N m maxc c [*] at_ N N m r maxc
                 else at_ N N m r c).
  match goal with |- wf N N ?X /\ _ => assert (G : P N X) end.
  { apply (for_range_ind P); [lia| |]; unfold P.
    - split; [exact Hwf|]. intros r c _ _. reflexivity.
    - intros j m1 Hj [Hwf1 Hat].
      destruct (Nat.eqb_spec j maxc) as [E|Hne]; simpl negb; cbv iota.
      + split; [exact Hwf1|]. intros r c Hr Hc'. rewrite Hat by auto.
        nat_cases.
      + cbv zeta.
        destruct (reduce_one_row_spec N (set_ N N m1 j maxc zero) j maxc
                    (at_ N N m1 j maxc)) as [Hw Hr1];
          [now apply set_wf | lia | exact Hc | exact Hne |].
        split; [exact Hw|]. intros r c Hr Hc'.
        rewrite Hr1 by auto.
        rewrite !at_set by (auto; lia). rewrite !Hat by (auto; lia).
        nat_cases. }
  destruct G as [G1 G2]. split; auto.
  intros r c Hr Hc'. rewrite G2 by auto.
  replace (Nat.ltb r N) with true by (symmetry; apply Nat.ltb_lt; lia).
  nat_cases.
Qed.


(** A double loop whose body, on a buffer of the right size, amounts to one
    assignment of [f i j] to the element [(i, j)]. *)
Lemma fill_loops_body N M (w : nat -> nat -> Mat -> Mat) (f : nat -> nat -> T)
      (m0 : Mat) :
  wf N M m0 ->
  (forall i j m, i < N -> j < M -> wf N M m -> w i j m = set_ N M m i j (f i j)) ->
  let m := for_range 0 N (fun i m => for_range 0 M (fun j m => w i j m) m) m0 in
  wf N M m /\ forall i j, i < N -> j < M -> at_ N M m i j = f i j.
Proof.
  intros Hwf Hw m.
  assert (E : m = for_range 0 N (fun i m =>
                    for_range 0 M (fun j m =>
                      set_ N M m (fst (i, j)) (snd (i, j)) (f i j)) m) m0).
  { unfold m.
    apply (for_range_ext_inv (wf N M)); [exact Hwf|].
    intros i m1 Hi Hwf1.
    apply (for_range_ext_inv (wf N M)); [exact Hwf1|].
    intros j m2 Hj Hwf2. simpl. split.
    - apply Hw; auto; lia.
    - now apply set_wf. }
  rewrite E.
  apply (@fill_loops_at T ST N M N M (fun i j => (i, j)) f).
  - intros i j Hi Hj. simpl. auto.
  - intros i j i' j' _ _ _ _ H. inversion H. auto.
  - exact Hwf.
Qed.

(** The sum [f 0 + f 1 + ... + f (n - 1)], added from the left starting
    from [z], as a loop [acc += f k] computes it. *)
Definition sum_from (z : T) (n : nat) (f : nat -> T) : T :=
  for_range 0 n (fun k acc => acc [+] f k) z.

Lemma sum_from_S z n f : sum_from z (Datatypes.S n) f = sum_from z n f [+] f n.
Proof. unfold sum_from. now rewrite for_range_S by lia. Qed.

Lemma sum_from_0 z f : sum_from z 0 f = z.
Proof. reflexivity. Qed.

Lemma sum_from_ext z n f g :
  (forall k, k < n -> f k = g k) -> sum_from z n f = sum_from z n g.
Proof.
  intros H. unfold sum_from. apply for_range_ext.
  intros k acc Hk. rewrite H by lia. reflexivity.
Qed.

(** Accumulating into the element [(i, j)] of a buffer. *)
Lemma accumulate_in_place N M (res : Mat) i j (z : T) n (f : nat -> T) :
  wf N M res -> i < N -> j < M ->
  for_range 0 n (fun k result =>
    set_ N M result i j (at_ N M result i j [+] f k)) (set_ N M res i j z)
  = set_ N M res i j (sum_from z n f).
Proof.
  intros Hwf Hi Hj. induction n as [|n IH].
  - reflexivity.
  - rewrite for_range_S by lia. rewrite IH, sum_from_S.
    rewrite set_set. now rewrite at_set_same.
Qed.

(** [operator*]: each element of the product is the sum, from the left and
    starting from [0], of the products along a row and a column. *)
Lemma mat_mul_spec N M rM (lhs rhs : Mat) :
  wf N rM (mat_mul N M rM lhs rhs) /\
  forall i j, i < N -> j < rM ->
    at_ N rM (mat_mul N M rM lhs rhs) i j =
    sum_from zero M (fun k => at_ N M lhs i k [*] at_ M rM rhs k j).
Proof.
  unfold mat_mul.
  apply (fill_loops_body N rM
           (fun i j result =>
              let result := set_ N rM result i j zero in
              for_range 0 M (fun k result =>
                set_ N rM result i j
                  (at_ N rM result i j [+] at_ N M lhs i k [*] at_ M rM rhs k j))
                result)
           (fun i j => sum_from zero M (fun k => at_ N M lhs i k [*] at_ M rM rhs k j))).
  - apply Mat_default_wf.
  - intros i j m Hi Hj Hwf. cbv zeta.
    now apply (accumulate_in_place N rM m i j zero M
                 (fun k => at_ N M lhs i k [*] at_ M rM rhs k j)).
Qed.

(** The pivot search assigns [maxr] and [maxc] together, and only to a row
    with [ipiv != 1] and a column with [ipiv == 0]. *)
Definition pivot_ok (N : nat) (ipiv : list nat) (st : @pivot_search T) : Prop :=
  (ps_maxr st = None /\ ps_maxc st = None) \/
  exists r c, ps_maxr st = Some r /\ ps_maxc st = Some c /\
              r < N /\ c < N /\ nth r ipiv 0 <> 1 /\ nth c ipiv 0 = 0.

Lemma find_pivot_ok N (ipiv : list nat) (amat : Mat) :
  pivot_ok N ipiv (find_pivot N ipiv amat).
Proof.
  unfold find_pivot.
  apply (for_range_inv (pivot_ok N ipiv)).
  - left. auto.
  - intros j st Hj Hst.
    destruct (Nat.eqb_spec (nth j ipiv 0) 1) as [E|Hne]; simpl; [exact Hst|].
    apply (for_range_inv (pivot_ok N ipiv)); [exact Hst|].
    intros k st1 Hk Hst1.
    destruct (Nat.eqb_spec (nth k ipiv 0) 0) as [E0|Hne0]; [|exact Hst1].
    destruct (sabs (at_ N N amat j k) [>] ps_max st1); [|exact Hst1].
    right. exists j, k. simpl. repeat split; auto; lia.
Qed.

Lemma find_pivot_found N (ipiv : list nat) (amat : Mat) r c :
  ps_maxr (find_pivot N ipiv amat) = Some r ->
  ps_maxc (find_pivot N ipiv amat) = Some c ->
  r < N /\ c < N /\ nth r ipiv 0 <> 1 /\ nth c ipiv 0 = 0.
Proof.
  intros Hr Hc.
  destruct (find_pivot_ok N ipiv amat) as [[H _]|(r' & c' & H1 & H2 & H)].
  - congruence.
  - rewrite Hr in H1. rewrite Hc in H2. inversion H1; inversion H2; subst. exact H.
Qed.

End Primitives.

(** ** Exact arithmetic *)

(** A scalar type whose operations are those of a field, without rounding
    (the rationals, the reals). *)
Class ExactField (T : Type) {ST : Scalar T} : Prop := {
  ef_field : field_theory zero one add mul sub neg div (fun x => one [/] x) (@eq T)
}.

Lemma ExactField_Qc : @ExactField Qc Scalar_Qc.
Proof.
  constructor. simpl. destruct Qcft as [R H1 Hdiv Hinv]. constructor.
  - exact R.
  - exact H1.
  - intros p q. rewrite (Hdiv 1%Qc q), (Hdiv p q).
    now rewrite Qcmult_1_l.
  - intros p Hp. rewrite (Hdiv 1%Qc p), Qcmult_1_l. now apply Hinv.
Qed.

Lemma ExactField_R : @ExactField R Scalar_R.
Proof.
  constructor. simpl. destruct Rfield as [Rr H1 Hdiv Hinv]. constructor.
  - exact Rr.
  - exact H1.
  - intros p q. unfold Rdiv. now rewrite Rmult_1_l.
  - intros p Hp. unfold Rdiv. rewrite Rmult_1_l. now apply Hinv.
Qed.

Section ExactSums.
Context {T : Type} {ST : Scalar T} {EF : ExactField T}.
Local Abbreviation Mat := (@Mat T).

Add Field scalar_field : ef_field.

(** Kronecker's delta. *)
Definition delta (i k : nat) : T := if Nat.eqb i k then one else zero.

Lemma sum_from_zero_terms n (f : nat -> T) :
  (forall k, k < n -> f k = zero) -> sum_from zero n f = zero.
Proof.
  induction n as [|n IH]; intros H; [reflexivity|].
  rewrite sum_from_S, IH, H by (auto; intros; apply H; lia). ring.
Qed.

Lemma sum_from_linear n (f g : nat -> T) (w : T) :
  sum_from zero n (fun k => f k [+] g k [*] w) =
  sum_from zero n f [+] sum_from zero n g [*] w.
Proof.
  induction n as [|n IH].
  - rewrite !sum_from_0. ring.
  - rewrite !sum_from_S, IH. ring.
Qed.

Lemma sum_from_delta n (f : nat -> T) k :
  k < n -> sum_from zero n (fun j => f j [*] delta j k) = f k.
Proof.
  induction n as [|n IH]; intros Hk; [lia|].
  rewrite sum_from_S. destruct (Nat.eq_dec k n) as [->|Hne].
  - rewrite sum_from_zero_terms.
    + unfold delta. rewrite Nat.eqb_refl. ring.
    + intros j Hj. unfold delta.
      destruct (Nat.eqb_spec j n); [lia|]. ring.
  - rewrite IH by lia. unfold delta.
    destruct (Nat.eqb_spec n k); [lia|]. ring.
Qed.

End ExactSums.

(** ** The algebra of in-place Gauss-Jordan elimination *)

Section GaussJordanAlgebra.
Context {T : Type} {ST : Scalar T} {EF : ExactField T}.

Add Field scalar_field_gj : ef_field.

(** [v] when [i] and [k] are both used or both unused, [-v] otherwise. *)
Definition sgn (p : nat -> bool) (i k : nat) (v : T) : T :=
  if Bool.eqb (p i) (p k) then v else [~] v.

(** The in-place buffer [S], with the set [p] of the rows and columns
    already used as pivots, stands for the pair of matrices [Xm], [Ym]: a
    used row of [Xm] is the row of [S] (up to signs) and an unused one a row
    of the identity; for [Ym] it is the other way round. *)
Definition Xm (S : nat -> nat -> T) (p : nat -> bool) (i k : nat) : T :=
  if p i then sgn p i k (S i k) else delta i k.

Definition Ym (S : nat -> nat -> T) (p : nat -> bool) (i k : nat) : T :=
  if p i then delta i k else sgn p i k (S i k).

(** The invariant of the elimination: [B * Xm = Ym], where [B] is the input
    with its rows exchanged as the pivoting did so far. *)
Definition gj_rel (N : nat) (B S : nat -> nat -> T) (p : nat -> bool) : Prop :=
  forall a k, a < N -> k < N ->
    sum_from zero N (fun j => B a j [*] Xm S p j k) = Ym S p a k.

Lemma gj_rel_init N (B : nat -> nat -> T) : gj_rel N B B (fun _ => false).
Proof.
  intros a k Ha Hk. unfold Xm, Ym, sgn. simpl.
  now apply (sum_from_delta N (fun j => B a j) k).
Qed.

Lemma gj_rel_ext N (B B' S S' : nat -> nat -> T) (p p' : nat -> bool) :
  (forall a j, a < N -> j < N -> B' a j = B a j) ->
  (forall a j, a < N -> j < N -> S' a j = S a j) ->
  (forall i, i < N -> p' i = p i) ->
  gj_rel N B S p -> gj_rel N B' S' p'.
Proof.
  intros HB HS Hp H a k Ha Hk.
  rewrite (sum_from_ext zero N (fun j => B' a j [*] Xm S' p' j k)
             (fun j => B a j [*] Xm S p j k)).
  - rewrite (H a k Ha Hk). unfold Ym, sgn.
    now rewrite !Hp, HS by auto.
  - intros j Hj. rewrite HB by auto. unfold Xm, sgn.
    now rewrite !Hp, HS by auto.
Qed.

(** Exchanging two unused rows of the buffer goes with exchanging the same
    rows of [B]. *)
Lemma gj_rel_swap N (B S : nat -> nat -> T) (p : nat -> bool) r c :
  r < N -> c < N -> p r = false -> p c = false ->
  gj_rel N B S p ->
  gj_rel N (fun a j => B (transp r c a) j) (fun a k => S (transp r c a) k) p.
Proof.
  intros Hr Hc Hpr Hpc H a k Ha Hk.
  assert (Hfix : forall i, p i = true -> transp r c i = i).
  { intros i Hi. apply transp_fix; intros ->; congruence. }
  assert (Hpt : p (transp r c a) = p a).
  { unfold transp. destruct (Nat.eqb_spec a r) as [->|?]; [congruence|].
    destruct (Nat.eqb_spec a c) as [->|?]; [congruence|reflexivity]. }
  rewrite (sum_from_ext zero N _ (fun j => B (transp r c a) j [*] Xm S p j k)).
  - rewrite (H (transp r c a) k) by (auto using transp_lt).
    unfold Ym, sgn. rewrite Hpt.
    destruct (p a) eqn:Hpa; [|reflexivity].
    now rewrite (Hfix a Hpa).
  - intros j Hj. unfold Xm.
    destruct (p j) eqn:Hpj; [|reflexivity].
    now rewrite (Hfix j Hpj).
Qed.

(** A pivot step on the unused diagonal position [(c, c)]. *)
Lemma gj_rel_pivot N (B S S' : nat -> nat -> T) (p : nat -> bool) c :
  c < N -> p c = false -> S c c <> zero ->
  (forall r k, r < N -> k < N ->
     S' r k =
     if Nat.eqb r c
     then (if Nat.eqb k c then one else S c k) [*] (one [/] S c c)
     else if Nat.eqb k c
          then zero [-] (one [*] (one [/] S c c)) [*] S r c
          else S r k [-] (S c k [*] (one [/] S c c)) [*] S r c) ->
  gj_rel N B S p ->
  gj_rel N B S' (fun i => Nat.eqb i c || p i)%bool.
Proof.
  intros Hc Hpc Hpv HS' H a k Ha Hk.
  set (W := if Nat.eqb k c then one [/] S c c
            else ([~] sgn p c k (S c k)) [/] S c c).
  assert (HX : forall j, j < N ->
            Xm S' (fun i => Nat.eqb i c || p i)%bool j k =
            (if Nat.eqb k c then zero else Xm S p j k) [+] Xm S p j c [*] W).
  { intros j Hj. unfold W, Xm, sgn, delta.
    rewrite (HS' j k Hj Hk).
    destruct (Nat.eqb_spec j c) as [Ej|Nj]; destruct (Nat.eqb_spec k c) as [Ek|Nk];
      subst; rewrite ?Hpc, ?Nat.eqb_refl; simpl;
      try (destruct (Nat.eqb_spec c k); [congruence|]);
      try (destruct (Nat.eqb_spec j c); [congruence|]);
      try (destruct (Nat.eqb_spec c j); [congruence|]);
      try (destruct (Nat.eqb_spec j k); subst);
      rewrite ?Hpc; simpl;
      try destruct (p j); try destruct (p k); simpl; field; exact Hpv. }
  assert (HY : Ym S' (fun i => Nat.eqb i c || p i)%bool a k =
               (if Nat.eqb k c then zero else Ym S p a k) [+] Ym S p a c [*] W).
  { unfold W, Ym, sgn, delta.
    rewrite (HS' a k Ha Hk).
    destruct (Nat.eqb_spec a c) as [Ej|Nj]; destruct (Nat.eqb_spec k c) as [Ek|Nk];
      subst; rewrite ?Hpc, ?Nat.eqb_refl; simpl;
      try (destruct (Nat.eqb_spec c k); [congruence|]);
      try (destruct (Nat.eqb_spec a c); [congruence|]);
      try (destruct (Nat.eqb_spec c a); [congruence|]);
      try (destruct (Nat.eqb_spec a k); subst);
      rewrite ?Hpc; simpl;
      try destruct (p a); try destruct (p k); simpl; field; exact Hpv. }
  rewrite HY.
  rewrite (sum_from_ext zero N _
             (fun j => (B a j [*] (if Nat.eqb k c then zero else Xm S p j k))
                       [+] (B a j [*] Xm S p j c) [*] W)).
  - rewrite (sum_from_linear N
               (fun j => B a j [*] (if Nat.eqb k c then zero else Xm S p j k))
               (fun j => B a j [*] Xm S p j c) W).
    rewrite (H a c Ha Hc). f_equal.
    destruct (Nat.eqb k c).
    + apply sum_from_zero_terms. intros j Hj. ring.
    + apply (H a k Ha Hk).
  - intros j Hj. rewrite (HX j Hj). ring.
Qed.

End GaussJordanAlgebra.

(** ** The generic [inverse] in exact arithmetic *)

(** *** The bookkeeping arrays *)

Lemma upd_nth_same {A : Type} (i : nat) (l : list A) (d : A) :
  upd i (nth i l d) l = l.
Proof.
  revert i; induction l as [|x tl IH]; intros [|i]; simpl; auto.
  now rewrite IH.
Qed.

Lemma ipiv_init_zeros N : ipiv_init N = repeat 0 N.
Proof.
  unfold ipiv_init. apply (for_range_inv (fun l => l = repeat 0 N)); auto.
  intros i l Hi ->.
  assert (E : nth i (repeat 0 N) 0 = 0) by apply nth_repeat.
  rewrite <- E at 1. apply upd_nth_same.
Qed.

Lemma count_ones_repeat N : count_occ Nat.eq_dec (repeat 0 N) 1 = 0.
Proof. induction N as [|N IH]; simpl; auto. Qed.

Lemma count_ones_upd (l : list nat) i :
  i < length l -> nth i l 0 <> 1 ->
  count_occ Nat.eq_dec (upd i 1 l) 1 = Datatypes.S (count_occ Nat.eq_dec l 1).
Proof.
  revert i; induction l as [|x tl IH]; intros [|i]; simpl; intros Hi Hne; try lia.
  - destruct (Nat.eq_dec x 1); [contradiction|reflexivity].
  - destruct (Nat.eq_dec x 1); rewrite IH by (auto; lia); reflexivity.
Qed.

Lemma count_ones_le (l : list nat) : count_occ Nat.eq_dec l 1 <= length l.
Proof.
  induction l as [|x tl IH]; simpl; auto.
  destruct (Nat.eq_dec x 1); lia.
Qed.

Lemma count_ones_full (l : list nat) :
  count_occ Nat.eq_dec l 1 = length l ->
  forall i, i < length l -> nth i l 0 = 1.
Proof.
  induction l as [|x tl IH]; simpl; intros H i Hi; [lia|].
  pose proof (count_ones_le tl) as Hle.
  destruct (Nat.eq_dec x 1) as [->|Hne]; [|lia].
  destruct i as [|i]; [reflexivity|].
  apply IH; lia.
Qed.

(** The row of the input that the exchanges recorded in [indxr[0..i-1]],
    [indxc[0..i-1]] have brought to row [a]. *)
Fixpoint perm_upto (indxr indxc : list nat) (i : nat) (a : nat) : nat :=
  match i with
  | 0 => a
  | Datatypes.S i' =>
      perm_upto indxr indxc i' (transp (nth i' indxr 0) (nth i' indxc 0) a)
  end.

Lemma perm_upto_upd_r indxr indxc i k v a :
  i <= k -> perm_upto (upd k v indxr) indxc i a = perm_upto indxr indxc i a.
Proof.
  revert a; induction i as [|i IH]; intros a Hk; simpl; auto.
  rewrite nth_upd_other by lia. apply IH. lia.
Qed.

Lemma perm_upto_upd_c indxr indxc i k v a :
  i <= k -> perm_upto indxr (upd k v indxc) i a = perm_upto indxr indxc i a.
Proof.
  revert a; induction i as [|i IH]; intros a Hk; simpl; auto.
  rewrite nth_upd_other by lia. apply IH. lia.
Qed.

Lemma perm_upto_lt N indxr indxc i :
  (forall i', i' < i -> nth i' indxr 0 < N /\ nth i' indxc 0 < N) ->
  forall a, a < N -> perm_upto indxr indxc i a < N.
Proof.
  induction i as [|i IH]; intros H a Ha; simpl; auto.
  apply IH.
  - intros i' Hi'. apply H. lia.
  - destruct (H i) as [H1 H2]; [lia|]. now apply transp_lt.
Qed.

Lemma transp_eqb a b x y :
  Nat.eqb (transp a b x) (transp a b y) = Nat.eqb x y.
Proof.
  destruct (Nat.eqb_spec x y) as [->|Hne].
  - apply Nat.eqb_refl.
  - apply Nat.eqb_neq. intros E. apply Hne.
    rewrite <- (transp_involutive a b x), <- (transp_involutive a b y).
    now rewrite E.
Qed.

(** *** The main loop *)

Section ExactInverse.
Context {T : Type} {ST : Scalar T} {CT : Constants T} {EF : ExactField T}.
Local Abbreviation Mat := (@Mat T).

Add Field scalar_field_inv : ef_field.

(** The set of used pivots, read from [ipiv]. *)
Definition used (ipiv : list nat) (c : nat) : bool := Nat.eqb (nth c ipiv 0) 1.

(** The invariant of the main loop of [inverse] after [i] turns, for the
    input [m]. *)
Definition inverse_inv (N : nat) (m : Mat) (i : nat) (st : @inv_state T) : Prop :=
  let '(result, ipiv, indxr, indxc) := st in
  wf N N result /\ length ipiv = N /\ length indxr = N /\ length indxc = N /\
  count_occ Nat.eq_dec ipiv 1 = i /\
  (forall i', i' < i -> nth i' indxr 0 < N /\ nth i' indxc 0 < N) /\
  gj_rel N (fun a j => at_ N N m (perm_upto indxr indxc i a) j)
         (at_ N N result) (used ipiv).

Lemma inverse_inv_init N (m : Mat) :
  wf N N m -> inverse_inv N m 0 (m, ipiv_init N, repeat 0 N, repeat 0 N).
Proof.
  intros Hwf. unfold inverse_inv. rewrite ipiv_init_zeros.
  repeat split; try apply repeat_length; auto.
  - apply count_ones_repeat.
  - lia.
  - lia.
  - apply (gj_rel_ext N (at_ N N m) _ (at_ N N m) _ (fun _ => false)).
    + reflexivity.
    + reflexivity.
    + intros c Hc. unfold used. now rewrite nth_repeat.
    + apply gj_rel_init.
Qed.

(** The buffer after "multiply row by 1/pivot" and "reduce rows". *)
Lemma pivot_turn_elements N (result1 : Mat) c :
  wf N N result1 -> c < N ->
  let rpivot := one [/] at_ N N result1 c c in
  let result2 := set_ N N result1 c c one in
  let result3 := set_row N N result2 c (vec_scale (row N N result2 c) rpivot) in
  let result4 := reduce_rows N result3 c in
  wf N N result4 /\
  forall r k, r < N -> k < N ->
    at_ N N result4 r k =
    if Nat.eqb r c
    then (if Nat.eqb k c then one else at_ N N result1 c k) [*] rpivot
    else if Nat.eqb k c
         then zero [-] (one [*] rpivot) [*] at_ N N result1 r c
         else at_ N N result1 r k [-] (at_ N N result1 c k [*] rpivot) [*] at_ N N result1 r c.
Proof.
  intros Hwf Hc rpivot result2 result3 result4.
  assert (Hwf2 : wf N N result2) by (now apply set_wf).
  destruct (row_spec N N result2 c) as [Hlen Hrow].
  destruct (vec_scale_spec (row N N result2 c) rpivot) as [Hlen' Hscale].
  destruct (set_row_spec N N result2 c (vec_scale (row N N result2 c) rpivot) Hwf2 Hc)
    as [Hwf3 H3].
  fold result3 in Hwf3, H3.
  destruct (reduce_rows_spec N result3 c Hwf3 Hc) as [Hwf4 H4].
  fold result4 in Hwf4, H4.
  assert (E3 : forall r k, r < N -> k < N ->
            at_ N N result3 r k =
            if Nat.eqb r c
            then (if Nat.eqb k c then one else at_ N N result1 c k) [*] rpivot
            else at_ N N result1 r k).
  { intros r k Hr Hk. rewrite H3 by auto.
    destruct (Nat.eqb_spec r c) as [->|Hne].
    - rewrite Hscale by (rewrite Hlen; exact Hk). rewrite Hrow by exact Hk.
      unfold result2. rewrite at_set by auto. rewrite Nat.eqb_refl. simpl.
      destruct (Nat.eqb_spec c k) as [->|Hck].
      + now rewrite Nat.eqb_refl.
      + destruct (Nat.eqb_spec k c); [congruence|reflexivity].
    - unfold result2. rewrite at_set by auto.
      destruct (Nat.eqb_spec c r); [congruence|reflexivity]. }
  split; [exact Hwf4|].
  intros r k Hr Hk. rewrite H4 by auto.
  destruct (Nat.eqb_spec r c) as [->|Hne].
  - rewrite E3 by auto. now rewrite Nat.eqb_refl.
  - rewrite !E3 by auto. rewrite Nat.eqb_refl.
    destruct (Nat.eqb_spec r c); [congruence|].
    destruct (Nat.eqb_spec k c) as [->|Hkc]; reflexivity.
Qed.

(** The buffer after the exchange of the rows [r] and [c], made or skipped. *)
Lemma swap_if_distinct N M (m : Mat) r c :
  wf N M m -> r < N -> c < N ->
  let m1 := if negb (Nat.eqb r c) then swap_rows N M m r c else m in
  wf N M m1 /\
  forall a k, a < N -> k < M -> at_ N M m1 a k = at_ N M m (transp r c a) k.
Proof.
  intros Hwf Hr Hc m1. unfold m1.
  destruct (Nat.eqb_spec r c) as [->|Hne]; simpl.
  - split; [exact Hwf|]. intros a k _ _. now rewrite transp_same.
  - now apply swap_rows_spec.
Qed.

(** A nonzero test for the pivot: a magnitude that is not under [epsilon]
    is not the magnitude of [0]. *)
Hypothesis epsilon_positive : sabs zero [<] epsilon = true.

Lemma accepted_pivot_nonzero (v : T) :
  sabs v [<] epsilon = false -> v <> zero.
Proof. intros H ->. congruence. Qed.

Lemma inverse_step_keeps N (m : Mat) i (st st' : @inv_state T) :
  i < N -> inverse_inv N m i st ->
  inverse_step N i st = inl st' ->
  inverse_inv N m (Datatypes.S i) st'.
Proof.
  intros Hi Hinv.
  destruct st as [[[result ipiv] indxr] indxc].
  destruct Hinv as (Hwf & Hlp & Hlr & Hlc & Hcnt & Hrng & Hrel).
  unfold inverse_step.
  destruct (ps_maxr (find_pivot N ipiv result)) as [r|] eqn:Er; [|discriminate].
  destruct (ps_maxc (find_pivot N ipiv result)) as [c|] eqn:Ec; [|discriminate].
  destruct (find_pivot_found N ipiv result r c Er Ec) as (Hr & Hc & Hur & Huc).
  destruct (swap_if_distinct N N result r c Hwf Hr Hc) as [Hwf1 H1].
  set (result1 := if negb (Nat.eqb r c) then swap_rows N N result r c else result) in *.
  destruct (sabs (at_ N N result1 c c) [<] epsilon) eqn:Et; [discriminate|].
  pose proof (accepted_pivot_nonzero _ Et) as Hpv.
  destruct (pivot_turn_elements N result1 c Hwf1 Hc) as [Hwf4 H4].
  cbv zeta in Hwf4, H4.
  intros E. inversion E; subst st'; clear E.
  unfold inverse_inv.
  rewrite Huc.
  repeat split.
  - exact Hwf4.
  - now rewrite upd_length.
  - now rewrite upd_length.
  - now rewrite upd_length.
  - rewrite count_ones_upd by (rewrite ?Hlp; auto; lia). now rewrite Hcnt.
  - destruct (Nat.eq_dec i' i) as [->|Hne].
    + rewrite nth_upd_same by lia. exact Hr.
    + rewrite nth_upd_other by lia. apply Hrng. lia.
  - destruct (Nat.eq_dec i' i) as [->|Hne].
    + rewrite nth_upd_same by lia. exact Hc.
    + rewrite nth_upd_other by lia. apply Hrng. lia.
  - assert (Hpr : used ipiv r = false)
      by (unfold used; now apply Nat.eqb_neq).
    assert (Hpc : used ipiv c = false)
      by (unfold used; rewrite Huc; reflexivity).
    pose proof (gj_rel_swap N _ _ _ r c Hr Hc Hpr Hpc Hrel) as Hs.
    assert (Hs1 : gj_rel N
              (fun a j => at_ N N m (perm_upto indxr indxc i (transp r c a)) j)
              (at_ N N result1) (used ipiv)).
    { revert Hs. apply gj_rel_ext; auto. }
    pose proof (gj_rel_pivot N _ (at_ N N result1) _ (used ipiv) c
                  Hc Hpc Hpv H4 Hs1) as Hp.
    revert Hp. apply gj_rel_ext.
    + intros a j Ha Hj. simpl.
      rewrite !nth_upd_same by lia.
      now rewrite perm_upto_upd_r, perm_upto_upd_c by lia.
    + reflexivity.
    + intros x Hx. unfold used. rewrite nth_upd by lia.
      destruct (Nat.eqb_spec c x) as [->|Hne].
      * rewrite !Nat.eqb_refl. reflexivity.
      * destruct (Nat.eqb_spec x c); [congruence|reflexivity].
Qed.

(** The first [n] turns of the main loop of [inverse]. *)
Definition inverse_turns (N n : nat) (m : Mat)
  : @inv_state T + outcome (Mat * list String.string) :=
  for_loop_ret n 0 (inverse_step N) (m, ipiv_init N, repeat 0 N, repeat 0 N).

Lemma inverse_turns_unfold N (m : Mat) :
  inverse N m =
  match inverse_turns N N m with
  | inr r => r
  | inl (result, _, indxr, indxc) =>
      Ret (undo_column_swaps N indxr indxc result, [])
  end.
Proof.
  unfold inverse, inverse_turns, ipiv_init, for_range_ret.
  now rewrite Nat.sub_0_r.
Qed.

Lemma inverse_turns_inv N (m : Mat) n st :
  wf N N m -> n <= N ->
  inverse_turns N n m = inl st -> inverse_inv N m n st.
Proof.
  intros Hwf Hn H. unfold inverse_turns in H.
  apply (for_loop_ret_ind (inverse_inv N m) (inverse_step N) n
           (m, ipiv_init N, repeat 0 N, repeat 0 N) st).
  - now apply inverse_inv_init.
  - intros i si si' Hi Hinv Hstep.
    apply (inverse_step_keeps N m i si si'); auto. lia.
  - exact H.
Qed.

(** After [N] turns every row and column has been used, and the buffer is
    a right inverse of the input with its rows exchanged. *)
Lemma inverse_turns_final N (m result : Mat) ipiv indxr indxc :
  wf N N m ->
  inverse_turns N N m = inl (result, ipiv, indxr, indxc) ->
  wf N N result /\
  (forall i, i < N -> nth i indxr 0 < N /\ nth i indxc 0 < N) /\
  forall a k, a < N -> k < N ->
    sum_from zero N (fun j =>
      at_ N N m (perm_upto indxr indxc N a) j [*] at_ N N result j k) = delta a k.
Proof.
  intros Hwf H.
  destruct (inverse_turns_inv N m N _ Hwf (Nat.le_refl N) H)
    as (Hwfr & Hlp & _ & _ & Hcnt & Hrng & Hrel).
  split; [exact Hwfr|]. split; [exact Hrng|].
  assert (Hall : forall c, c < N -> used ipiv c = true).
  { intros c Hc. unfold used.
    rewrite (count_ones_full ipiv) by lia. reflexivity. }
  intros a k Ha Hk. specialize (Hrel a k Ha Hk).
  unfold Ym, sgn in Hrel. rewrite (Hall a Ha) in Hrel. rewrite <- Hrel.
  apply sum_from_ext. intros j Hj.
  unfold Xm, sgn. now rewrite (Hall j Hj), (Hall k Hk).
Qed.

(** "undo column swap". *)
Lemma undo_column_swaps_spec N (m result : Mat) indxr indxc :
  wf N N result ->
  (forall i, i < N -> nth i indxr 0 < N /\ nth i indxc 0 < N) ->
  (forall a k, a < N -> k < N ->
     sum_from zero N (fun j =>
       at_ N N m (perm_upto indxr indxc N a) j [*] at_ N N result j k) = delta a k) ->
  wf N N (undo_column_swaps N indxr indxc result) /\
  forall a k, a < N -> k < N ->
    sum_from zero N (fun j =>
      at_ N N m a j [*] at_ N N (undo_column_swaps N indxr indxc result) j k)
    = delta a k.
Proof.
  intros Hwf Hrng Hfin. unfold undo_column_swaps.
  pose (P := fun i (R : Mat) =>
               wf N N R /\
               forall a k, a < N -> k < N ->
                 sum_from zero N (fun j =>
                   at_ N N m (perm_upto indxr indxc i a) j [*] at_ N N R j k)
                 = delta a k).
  apply (do_down_ind P); unfold P.
  - split; assumption.
  - intros i R Hi [HwfR HR].
    destruct (Hrng i Hi) as [Hr Hc].
    set (r := nth i indxr 0) in *. set (c := nth i indxc 0) in *.
    assert (HR' : wf N N (if negb (Nat.eqb r c) then swap_cols N N R r c else R) /\
                  forall a k, a < N -> k < N ->
                    at_ N N (if negb (Nat.eqb r c) then swap_cols N N R r c else R) a k
                    = at_ N N R a (transp r c k)).
    { destruct (Nat.eqb_spec r c) as [E|Hne]; simpl.
      - split; [exact HwfR|]. intros a k _ _. rewrite E. now rewrite transp_same.
      - now apply swap_cols_spec. }
    destruct HR' as [Hwf' Hat']. split; [exact Hwf'|].
    intros a k Ha Hk.
    rewrite (sum_from_ext zero N _
               (fun j => at_ N N m (perm_upto indxr indxc (Datatypes.S i) (transp r c a)) j
                         [*] at_ N N R j (transp r c k))).
    + rewrite HR by (apply transp_lt; auto).
      unfold delta. now rewrite transp_eqb.
    + intros j Hj. rewrite Hat' by auto. simpl.
      fold r c. now rewrite transp_involutive.
Qed.


End ExactInverse.

(** The matrix a returned outcome carries (the empty buffer when there is
    none). *)
Definition returned_matrix {T : Type} (o : outcome (@Mat T * list String.string))
  : @Mat T :=
  match o with
  | Ret (result, _) => result
  | Undef => []
  end.

(** The matrix of doubles with the rows [(1e19, 2e19)] and
    [(3e19, 6e19 + 8192)], column by column; the four numbers are doubles
    ([6e19 + 8192] is the double that follows [6e19]), and the determinant
    of the matrix is [8.192e22]. *)
Definition ill_conditioned_Mat2 : list float :=
  [1e19; 3e19; 2e19; 60000000000000008192]%float.



(** ** LU decomposition in exact arithmetic *)

Section ExactLU.
Context {T : Type} {ST : Scalar T} {CT : Constants T} {EF : ExactField T}.
Local Abbreviation Mat := (@Mat T).

Add Field scalar_field_lu : ef_field.

(** The loop [sum -= f k] for [k < n]. *)
Lemma sub_fold_sum (z : T) n (f : nat -> T) :
  for_range 0 n (fun k sum => sum [-] f k) z = z [-] sum_from zero n f.
Proof.
  induction n as [|n IH].
  - rewrite for_range_nil by lia. rewrite sum_from_0. ring.
  - rewrite for_range_S by lia. rewrite IH, sum_from_S. ring.
Qed.

(** The first inner loop of column [j]: it writes the elements [(i, j)],
    [i < j], and each one, added to the products of the elements left of it
    with those above it, gives back what the column held. *)
Lemma lu_upper_spec N j (amat : Mat) :
  wf N N amat -> j < N ->
  wf N N (lu_upper N j amat) /\
  (forall a c, a < N -> c < N -> (c <> j \/ j <= a) ->
     at_ N N (lu_upper N j amat) a c = at_ N N amat a c) /\
  (forall i, i < j ->
     at_ N N amat i j =
     at_ N N (lu_upper N j amat) i j [+]
     sum_from zero i (fun k => at_ N N (lu_upper N j amat) i k [*]
                               at_ N N (lu_upper N j amat) k j)).
Proof.
  intros Hwf Hj. unfold lu_upper.
  pose (P := fun n (m1 : Mat) =>
               wf N N m1 /\
               (forall a c, a < N -> c < N -> (c <> j \/ n <= a) ->
                  at_ N N m1 a c = at_ N N amat a c) /\
               (forall i, i < n ->
                  at_ N N amat i j =
                  at_ N N m1 i j [+]
                  sum_from zero i (fun k => at_ N N m1 i k [*] at_ N N m1 k j))).
  match goal with |- wf N N ?X /\ _ => assert (G : P j X) end.
  { apply (for_range_ind P); [lia| |]; unfold P.
    - repeat split; auto. intros i Hi; lia.
    - intros i m1 Hi (Hwf1 & Hfr & Hrel). cbv zeta.
      rewrite sub_fold_sum.
      set (v := at_ N N m1 i j [-]
                sum_from zero i (fun k => at_ N N m1 i k [*] at_ N N m1 k j)).
      assert (Hsame : forall a c, a < N -> c < N -> (a, c) <> (i, j) ->
                at_ N N (set_ N N m1 i j v) a c = at_ N N m1 a c).
      { intros a c Ha Hc Hne. apply at_set_other; auto; try lia; try congruence. }
      repeat split.
      + now apply set_wf.
      + intros a c Ha Hc Hac. rewrite Hsame by (auto; intros E; inversion E; lia).
        apply Hfr; auto. destruct Hac; [left; auto | right; lia].
      + intros i' Hi'. destruct (Nat.eq_dec i' i) as [->|Hne].
        * rewrite at_set_same by (auto; lia).
          rewrite (sum_from_ext zero i _
                     (fun k => at_ N N m1 i k [*] at_ N N m1 k j)).
          -- rewrite <- (Hfr i j) by (auto; lia). unfold v. ring.
          -- intros k Hk.
             rewrite !Hsame by (auto; try lia; intros E; inversion E; lia).
             reflexivity.
        * rewrite Hsame by (auto; try lia; intros E; inversion E; lia).
          rewrite (sum_from_ext zero i' _
                     (fun k => at_ N N m1 i' k [*] at_ N N m1 k j)).
          -- apply Hrel. lia.
          -- intros k Hk.
             rewrite !Hsame by (auto; try lia; intros E; inversion E; lia).
             reflexivity. }
  destruct G as (G1 & G2 & G3). repeat split; auto.
Qed.

(** The second inner loop of column [j]: it writes the elements [(i, j)],
    [i >= j], and leaves in [imax], when it assigns it, a row from [j] on. *)
Lemma lu_lower_spec N j (scalev : @Vec T) (amat : Mat) :
  wf N N amat -> j < N ->
  let r := lu_lower N j scalev amat in
  wf N N (fst (fst r)) /\
  (forall a c, a < N -> c < N -> (c <> j \/ a < j) ->
     at_ N N (fst (fst r)) a c = at_ N N amat a c) /\
  (forall i, j <= i < N ->
     at_ N N amat i j =
     at_ N N (fst (fst r)) i j [+]
     sum_from zero j (fun k => at_ N N (fst (fst r)) i k [*]
                               at_ N N (fst (fst r)) k j)) /\
  (forall im, snd r = Some im -> j <= im < N).
Proof.
  intros Hwf Hj r. unfold r, lu_lower.
  pose (P := fun n (st : Mat * T * option nat) =>
               wf N N (fst (fst st)) /\
               (forall a c, a < N -> c < N -> (c <> j \/ a < j \/ n <= a) ->
                  at_ N N (fst (fst st)) a c = at_ N N amat a c) /\
               (forall i, j <= i < n ->
                  at_ N N amat i j =
                  at_ N N (fst (fst st)) i j [+]
                  sum_from zero j (fun k => at_ N N (fst (fst st)) i k [*]
                                            at_ N N (fst (fst st)) k j)) /\
               (forall im, snd st = Some im -> j <= im < N)).
  match goal with |- wf N N (fst (fst ?X)) /\ _ => assert (G : P N X) end.
  { apply (for_range_ind P); [lia| |]; unfold P.
    - simpl. repeat split; auto; try (intros; lia); try (intros; discriminate).
    - intros i [[m1 max] imax] Hi (Hwf1 & Hfr & Hrel & Him). simpl in *.
      rewrite sub_fold_sum.
      set (v := at_ N N m1 i j [-]
                sum_from zero j (fun k => at_ N N m1 i k [*] at_ N N m1 k j)).
      assert (Hsame : forall a c, a < N -> c < N -> (a, c) <> (i, j) ->
                at_ N N (set_ N N m1 i j v) a c = at_ N N m1 a c).
      { intros a c Ha Hc Hne. apply at_set_other; auto; try lia; try congruence. }
      assert (G : wf N N (set_ N N m1 i j v) /\
                  (forall a c, a < N -> c < N ->
                     (c <> j \/ a < j \/ Datatypes.S i <= a) ->
                     at_ N N (set_ N N m1 i j v) a c = at_ N N amat a c) /\
                  (forall i', j <= i' < Datatypes.S i ->
                     at_ N N amat i' j =
                     at_ N N (set_ N N m1 i j v) i' j [+]
                     sum_from zero j (fun k => at_ N N (set_ N N m1 i j v) i' k [*]
                                               at_ N N (set_ N N m1 i j v) k j))).
      { repeat split.
        + now apply set_wf.
        + intros a c Ha Hc Hac. rewrite Hsame by (auto; intros E; inversion E; lia).
          apply Hfr; auto. destruct Hac as [?|[?|?]]; auto. right; right; lia.
        + intros i' Hi'. destruct (Nat.eq_dec i' i) as [->|Hne].
          * rewrite at_set_same by (auto; lia).
            rewrite (sum_from_ext zero j _
                       (fun k => at_ N N m1 i k [*] at_ N N m1 k j)).
            -- rewrite <- (Hfr i j) by (auto; lia). unfold v. ring.
            -- intros k Hk.
               rewrite !Hsame by (auto; try lia; intros E; inversion E; lia).
               reflexivity.
          * rewrite Hsame by (auto; try lia; intros E; inversion E; lia).
            rewrite (sum_from_ext zero j _
                       (fun k => at_ N N m1 i' k [*] at_ N N m1 k j)).
            -- apply Hrel. lia.
            -- intros k Hk.
               rewrite !Hsame by (auto; try lia; intros E; inversion E; lia).
               reflexivity. }
      destruct G as (G1 & G2 & G3).
      destruct (vec_at scalev i [*] sabs v [>=] max); simpl;
        (split; [exact G1 | split; [exact G2 | split; [exact G3|]]]).
      + intros im E. inversion E; subst. lia.
      + exact Him. }
  destruct G as (G1 & G2 & G3 & G4). repeat split; auto.
  - intros a c Ha Hc Hac. apply G2; auto. destruct Hac; auto.
  - apply G4; auto.
  - apply G4; auto.
Qed.

(** "divide by the pivot element": the elements below the diagonal of
    column [j] are multiplied by [dum]. *)
Lemma scale_below_spec N j (amat : Mat) (dum : T) :
  wf N N amat -> j < N ->
  let m' := for_range (j + 1) N (fun i amat =>
              set_ N N amat i j (at_ N N amat i j [*] dum)) amat in
  wf N N m' /\
  forall a c, a < N -> c < N ->
    at_ N N m' a c =
    if (Nat.eqb c j && Nat.ltb j a)%bool then at_ N N amat a c [*] dum
    else at_ N N amat a c.
Proof.
  intros Hwf Hj m'. unfold m'.
  pose (P := fun n (m1 : Mat) =>
               wf N N m1 /\
               forall a c, a < N -> c < N ->
                 at_ N N m1 a c =
                 if (Nat.eqb c j && Nat.ltb j a && Nat.ltb a n)%bool
                 then at_ N N amat a c [*] dum
                 else at_ N N amat a c).
  match goal with |- wf N N ?X /\ _ => assert (G : P N X) end.
  { apply (for_range_ind P); [lia| |]; unfold P.
    - split; [exact Hwf|]. intros a c Ha Hc.
      destruct (Nat.eqb c j); simpl; [|reflexivity].
      destruct (Nat.ltb_spec j a); simpl; [|reflexivity].
      destruct (Nat.ltb_spec a (j + 1)); [lia|reflexivity].
    - intros i m1 Hi [Hwf1 Hat]. split.
      + now apply set_wf.
      + intros a c Ha Hc.
        rewrite at_set by (auto; lia). rewrite !Hat by (auto; lia).
        nat_cases. }
  destruct G as [G1 G2]. split; auto.
  intros a c Ha Hc. rewrite G2 by auto.
  replace (Nat.ltb a N) with true by (symmetry; apply Nat.ltb_lt; lia).
  now rewrite andb_true_r.
Qed.

(** The element [(a, c)] of the product of the two triangular factors packed
    in one buffer [f]: [L] is the part of [f] below the diagonal, with ones on
    the diagonal, and [U] the part on and above it. *)
Definition LUprod (f : nat -> nat -> T) (a c : nat) : T :=
  if Nat.leb a c
  then f a c [+] sum_from zero a (fun k => f a k [*] f k c)
  else sum_from zero c (fun k => f a k [*] f k c) [+] f a c [*] f c c.

(** [lu_step] with its local bindings taken apart. *)
Lemma lu_step_continues N j (amat : Mat) (scalev rowp : @Vec T) (d : T) st' :
  j < N ->
  lu_step N j (amat, scalev, rowp, d) = inl st' ->
  exists im,
    snd (lu_lower N j scalev (lu_upper N j amat)) = Some im /\
    let amat2 := fst (fst (lu_lower N j scalev (lu_upper N j amat))) in
    let amat3 := if negb (Nat.eqb j im) then swap_rows N N amat2 im j else amat2 in
    let d' := if negb (Nat.eqb j im) then [~] d else d in
    sabs (at_ N N amat3 j j) [<] epsilon = false /\
    exists scalev' rowp',
      st' = (for_range (j + 1) N (fun i amat =>
               set_ N N amat i j (at_ N N amat i j [*] (one [/] at_ N N amat3 j j)))
               amat3,
             scalev', rowp', d').
Proof.
  intros Hj. unfold lu_step.
  destruct (lu_lower N j scalev (lu_upper N j amat)) as [[amat2 max] imax].
  destruct imax as [im|]; [|discriminate].
  intros H. exists im. split; [reflexivity|]. simpl fst.
  destruct (negb (Nat.eqb j im)).
  - destruct (sabs (at_ N N (swap_rows N N amat2 im j) j j) [<] epsilon);
      [discriminate|].
    split; [reflexivity|].
    replace (negb (Nat.eqb j N)) with true in H
      by (symmetry; apply negb_true_iff, Nat.eqb_neq; lia).
    inversion H. eauto.
  - destruct (sabs (at_ N N amat2 j j) [<] epsilon); [discriminate|].
    split; [reflexivity|].
    replace (negb (Nat.eqb j N)) with true in H
      by (symmetry; apply negb_true_iff, Nat.eqb_neq; lia).
    inversion H. eauto.
Qed.

Hypothesis epsilon_positive : sabs zero [<] epsilon = true.

(** A function of the rows of a matrix that changes sign when two rows are
    exchanged: the closed-form determinants are such functions. *)
Section Alternating.
Variable N : nat.
Variable DET : (nat -> nat -> T) -> T.
Hypothesis DET_ext :
  forall f g, (forall a c, a < N -> c < N -> f a c = g a c) -> DET f = DET g.
Hypothesis DET_swap :
  forall f r s, r < N -> s < N -> r <> s ->
    DET (fun a c => f (transp r s a) c) = [~] DET f.

(** The invariant of the column loop when it enters column [j]: the
    columns from [j] on hold a matrix [B], which is the input [A] with rows
    exchanged an even ([d = 1]) or odd ([d = -1]) number of times, and the
    columns before [j] hold the factors of the columns of [B]. *)
Definition lu_inv (A : Mat) (j : nat) (st : @lu_state T) : Prop :=
  let '(amat, _, _, d) := st in
  wf N N amat /\ d [*] d = one /\
  exists B : nat -> nat -> T,
    DET B = d [*] DET (at_ N N A) /\
    (forall a c, a < N -> c < N -> j <= c -> at_ N N amat a c = B a c) /\
    (forall a c, a < N -> c < j -> B a c = LUprod (at_ N N amat) a c).

Lemma lu_inv_init (A : Mat) (scalev rowp : @Vec T) :
  wf N N A -> lu_inv A 0 (A, scalev, rowp, one).
Proof.
  intros Hwf. unfold lu_inv. split; [exact Hwf|]. split; [ring|].
  exists (at_ N N A). split; [ring|]. split; [reflexivity|].
  intros a c _ Hc. lia.
Qed.

Lemma lu_step_keeps (A : Mat) j (st st' : @lu_state T) :
  j < N -> lu_inv A j st ->
  lu_step N j st = inl st' ->
  lu_inv A (Datatypes.S j) st'.
Proof.
  intros Hj Hinv Hstep.
  destruct st as [[[amat scalev] rowp] d].
  destruct Hinv as (Hwf & Hdd & B & HDET & Hun & Hpr).
  destruct (lu_step_continues N j amat scalev rowp d st' Hj Hstep)
    as (im & Eim & Hst). cbv zeta in Hst.
  destruct Hst as (Htest & scalev' & rowp' & ->).
  destruct (lu_upper_spec N j amat Hwf Hj) as (Hwf1 & F1 & U1).
  set (amat1 := lu_upper N j amat) in *.
  destruct (lu_lower_spec N j scalev amat1 Hwf1 Hj) as (Hwf2 & F2 & L2 & Him).
  cbv zeta in Hwf2, F2, L2, Him.
  set (amat2 := fst (fst (lu_lower N j scalev amat1))) in *.
  specialize (Him im Eim).
  assert (H3 : wf N N (if negb (Nat.eqb j im) then swap_rows N N amat2 im j else amat2) /\
               forall a c, a < N -> c < N ->
                 at_ N N (if negb (Nat.eqb j im) then swap_rows N N amat2 im j
                          else amat2) a c
                 = at_ N N amat2 (transp im j a) c).
  { destruct (Nat.eqb_spec j im) as [E|Hne]; simpl.
    - split; [exact Hwf2|]. intros a c _ _. rewrite E. now rewrite transp_same.
    - apply swap_rows_spec; auto; lia. }
  destruct H3 as [Hwf3 E3].
  set (amat3 := if negb (Nat.eqb j im) then swap_rows N N amat2 im j else amat2) in *.
  pose proof (accepted_pivot_nonzero epsilon_positive _ Htest) as Hpv.
  destruct (scale_below_spec N j amat3 (one [/] at_ N N amat3 j j) Hwf3 Hj)
    as [Hwf4 E4].
  cbv zeta in Hwf4, E4.
  set (amat4 := for_range (j + 1) N (fun i amat0 =>
                  set_ N N amat0 i j
                    (at_ N N amat0 i j [*] (one [/] at_ N N amat3 j j))) amat3) in *.
  set (tau := transp im j) in *.
  assert (Htau_lt : forall a, a < N -> tau a < N)
    by (intros a Ha; apply transp_lt; auto; lia).
  assert (Htau_fix : forall a, a < j -> tau a = a)
    by (intros a Ha; apply transp_fix; lia).
  assert (Htau_ge : forall a, j <= a -> j <= tau a).
  { intros a Ha. unfold tau, transp.
    destruct (Nat.eqb a im); [lia|]. destruct (Nat.eqb a j); lia. }
  (* the columns before [j]: rows exchanged, nothing else *)
  assert (D1 : forall a c, a < N -> c < j -> at_ N N amat4 a c = at_ N N amat (tau a) c).
  { intros a c Ha Hc. rewrite E4 by (auto; lia).
    destruct (Nat.eqb_spec c j); [lia|]. simpl.
    rewrite E3 by (auto; lia). rewrite F2 by (auto; lia).
    apply F1; auto; lia. }
  (* column [j] above the diagonal *)
  assert (D3 : forall k, k < j -> at_ N N amat4 k j = at_ N N amat1 k j).
  { intros k Hk. rewrite E4 by (auto; lia).
    destruct (Nat.ltb_spec j k); [lia|]. rewrite andb_false_r.
    rewrite E3 by (auto; lia). fold tau. rewrite Htau_fix by exact Hk.
    apply F2; auto; lia. }
  (* column [j] from the diagonal down, before the division *)
  assert (D4 : forall a c, a < N -> c < N -> (c <> j \/ a <= j) ->
             at_ N N amat4 a c = at_ N N amat2 (tau a) c).
  { intros a c Ha Hc Hac. rewrite E4 by auto.
    replace (Nat.eqb c j && Nat.ltb j a)%bool with false.
    - now apply E3.
    - symmetry. apply andb_false_iff.
      destruct Hac; [left; now apply Nat.eqb_neq | right; apply Nat.ltb_ge; lia]. }
  unfold lu_inv. split; [exact Hwf4|]. split.
  { destruct (negb (Nat.eqb j im)); [|exact Hdd].
    transitivity (d [*] d); [ring | exact Hdd]. }
  exists (fun a c => B (tau a) c). split; [|split].
  - (* the sign *)
    destruct (Nat.eqb_spec j im) as [E|Hne]; simpl.
    + rewrite <- HDET. apply DET_ext. intros a c _ _.
      unfold tau. rewrite E. now rewrite transp_same.
    + unfold tau. rewrite DET_swap by (auto; lia). rewrite HDET. ring.
  - (* the columns after [j] *)
    intros a c Ha Hc Hjc.
    rewrite D4 by (auto; lia). rewrite F2 by (auto; lia).
    rewrite F1 by (auto; lia). apply Hun; auto. lia.
  - (* the columns up to [j] *)
    intros a c Ha Hc.
    destruct (Nat.eq_dec c j) as [->|Hcj].
    + (* column [j] itself *)
      rewrite <- Hun by (auto; lia).
      unfold LUprod.
      destruct (Nat.leb_spec a j) as [Hle|Hgt].
      * destruct (Nat.eq_dec a j) as [->|Haj].
        -- (* the pivot *)
           rewrite <- F1 by (auto; lia). fold amat1.
           rewrite (L2 (tau j)) by (split; [apply Htau_ge; lia | apply Htau_lt; lia]).
           rewrite D4 by (auto; lia). f_equal.
           apply sum_from_ext. intros k Hk.
           rewrite D4 by (auto; lia).
           rewrite (D4 k j) by (auto; lia).
           now rewrite (Htau_fix k Hk).
        -- (* above the pivot *)
           rewrite (Htau_fix a) by lia.
           rewrite (U1 a) by lia. fold amat1.
           rewrite D3 by lia. f_equal.
           apply sum_from_ext. intros k Hk.
           rewrite D3 by lia. rewrite D1 by (auto; lia).
           rewrite (Htau_fix a) by lia.
           rewrite F1 by (auto; lia). reflexivity.
      * (* below the pivot: the division *)
        rewrite <- F1 by (auto; try apply Htau_lt; auto;
                          right; apply Htau_ge; lia).
        fold amat1.
        rewrite (L2 (tau a)) by (split; [apply Htau_ge; lia | apply Htau_lt; lia]).
        rewrite (E4 a j) by (auto; lia). rewrite Nat.eqb_refl.
        replace (Nat.ltb j a) with true by (symmetry; apply Nat.ltb_lt; lia).
        simpl andb. cbv iota.
        rewrite (D4 j j) by (auto; lia).
        rewrite (E3 a j) by (auto; lia). fold tau.
        rewrite (sum_from_ext zero j
                   (fun k => at_ N N amat4 a k [*] at_ N N amat4 k j)
                   (fun k => at_ N N amat2 (tau a) k [*] at_ N N amat2 k j)).
        -- assert (Hp2 : at_ N N amat2 (tau j) j <> zero).
           { rewrite <- E3 by (auto; lia). exact Hpv. }
           rewrite (E3 j j) by (auto; lia). fold tau.
           field. exact Hp2.
        -- intros k Hk. rewrite D4 by (auto; lia).
           rewrite (D4 k j) by (auto; lia).
           now rewrite (Htau_fix k Hk).
    + (* a column before [j] *)
      assert (Hc' : c < j) by lia.
      rewrite (Hpr (tau a) c) by (auto; lia).
      unfold LUprod.
      assert (Hleb : Nat.leb (tau a) c = Nat.leb a c).
      { destruct (Nat.lt_ge_cases a j) as [Hlt|Hge].
        - now rewrite Htau_fix.
        - pose proof (Htau_ge a Hge).
          destruct (Nat.leb_spec (tau a) c); destruct (Nat.leb_spec a c);
            try lia; reflexivity. }
      rewrite Hleb.
      destruct (Nat.leb_spec a c) as [Hle|Hgt].
      * rewrite (Htau_fix a) by lia.
        rewrite D1 by (auto; lia). rewrite (Htau_fix a) by lia. f_equal.
        apply sum_from_ext. intros k Hk.
        rewrite !D1 by (auto; lia).
        now rewrite (Htau_fix a), (Htau_fix k) by lia.
      * rewrite !D1 by (auto; lia). rewrite (Htau_fix c) by lia. f_equal.
        apply sum_from_ext. intros k Hk.
        rewrite !D1 by (auto; lia).
        now rewrite (Htau_fix k) by lia.
Qed.

Lemma lu_step_never_true j (st : @lu_state T) alu rowp d :
  lu_step N j st <> inr (Ret (true, alu, rowp, d)).
Proof.
  destruct st as [[[amat scalev] rowp0] d0]. unfold lu_step.
  destruct (lu_lower N j scalev (lu_upper N j amat)) as [[amat2 max] imax].
  destruct imax as [im|]; [|discriminate].
  destruct (negb (Nat.eqb j im));
    (destruct (sabs (at_ _ _ _ _ _) [<] epsilon); discriminate).
Qed.

(** A successful decomposition leaves in [alu] the two factors of a matrix
    that is [A] with its rows exchanged, [d] being the parity of the
    exchanges. *)
Lemma lu_success_factors (A : Mat) (rowp0 : @Vec T) alu rowp d :
  wf N N A ->
  lu_decomposition N A rowp0 = Ret (true, alu, rowp, d) ->
  DET (LUprod (at_ N N alu)) = d [*] DET (at_ N N A) /\ d [*] d = one.
Proof.
  intros Hwf H. unfold lu_decomposition in H.
  match type of H with
  | match ?X with inl _ => _ | inr _ => _ end = _ =>
      destruct X as [scalev|u]; [|discriminate]
  end.
  unfold for_range_ret in H. rewrite Nat.sub_0_r in H.
  destruct (for_loop_ret N 0 (lu_step N) (A, scalev, rowp0, one))
    as [[[[amat sv] rp] d1]|r] eqn:E.
  - inversion H; subst; clear H.
    assert (Hinv : lu_inv A N (alu, sv, rowp, d)).
    { apply (for_loop_ret_ind (lu_inv A) (lu_step N) N
               (A, scalev, rowp0, one) (alu, sv, rowp, d)).
      - now apply lu_inv_init.
      - intros i si si' Hi Hinv Hs. now apply (lu_step_keeps A i si si').
      - exact E. }
    destruct Hinv as (_ & Hdd & B & HDET & _ & Hpr).
    split; [|exact Hdd]. rewrite <- HDET. apply DET_ext.
    intros a c Ha Hc. symmetry. now apply Hpr.
  - subst r. apply for_loop_ret_inr in E.
    destruct E as (i & st & _ & _ & Hb). now apply lu_step_never_true in Hb.
Qed.

(** When the product of the diagonal of the packed factors is the value of
    [DET] on their product, the generic determinant is [DET] of the input. *)
Hypothesis DET_LU :
  forall f, DET (LUprod f) = for_range 0 N (fun i r => r [*] f i i) one.

Lemma prod_fold (f : nat -> T) (d : T) n :
  for_range 0 n (fun i r => r [*] f i) d =
  d [*] for_range 0 n (fun i r => r [*] f i) one.
Proof.
  induction n as [|n IH].
  - rewrite !for_range_nil by lia. ring.
  - rewrite !for_range_S by lia. rewrite IH. ring.
Qed.

Lemma determinant_is_DET (A : Mat) :
  wf N N A ->
  (exists alu rowp d,
     lu_decomposition N A (Vec_default N) = Ret (true, alu, rowp, d)) ->
  determinant N A = Ret (DET (at_ N N A)).
Proof.
  intros Hwf (alu & rowp & d & H).
  destruct (lu_success_factors A (Vec_default N) alu rowp d Hwf H) as [HD Hdd].
  unfold determinant. rewrite H. f_equal.
  rewrite (prod_fold (fun i => at_ N N alu i i) d N).
  rewrite <- (DET_LU (at_ N N alu)), HD.
  transitivity ((d [*] d) [*] DET (at_ N N A)); [ring|].
  rewrite Hdd. ring.
Qed.

End Alternating.

(** *** The closed forms *)

Definition det2 (m : nat -> nat -> T) : T :=
  m 0 0 [*] m 1 1 [-] m 0 1 [*] m 1 0.

Definition det3 (m : nat -> nat -> T) : T :=
  m 0 0 [*] (m 1 1 [*] m 2 2 [-] m 2 1 [*] m 1 2) [+]
  m 0 1 [*] (m 2 0 [*] m 1 2 [-] m 1 0 [*] m 2 2) [+]
  m 0 2 [*] (m 1 0 [*] m 2 1 [-] m 2 0 [*] m 1 1).

Definition det4 (m : nat -> nat -> T) : T :=
  m 0 3 [*] m 1 2 [*] m 2 1 [*] m 3 0 [-] m 0 2 [*] m 1 3 [*] m 2 1 [*] m 3 0 [-]
  m 0 3 [*] m 1 1 [*] m 2 2 [*] m 3 0 [+] m 0 1 [*] m 1 3 [*] m 2 2 [*] m 3 0 [+]
  m 0 2 [*] m 1 1 [*] m 2 3 [*] m 3 0 [-] m 0 1 [*] m 1 2 [*] m 2 3 [*] m 3 0 [-]
  m 0 3 [*] m 1 2 [*] m 2 0 [*] m 3 1 [+] m 0 2 [*] m 1 3 [*] m 2 0 [*] m 3 1 [+]
  m 0 3 [*] m 1 0 [*] m 2 2 [*] m 3 1 [-] m 0 0 [*] m 1 3 [*] m 2 2 [*] m 3 1 [-]
  m 0 2 [*] m 1 0 [*] m 2 3 [*] m 3 1 [+] m 0 0 [*] m 1 2 [*] m 2 3 [*] m 3 1 [+]
  m 0 3 [*] m 1 1 [*] m 2 0 [*] m 3 2 [-] m 0 1 [*] m 1 3 [*] m 2 0 [*] m 3 2 [-]
  m 0 3 [*] m 1 0 [*] m 2 1 [*] m 3 2 [+] m 0 0 [*] m 1 3 [*] m 2 1 [*] m 3 2 [+]
  m 0 1 [*] m 1 0 [*] m 2 3 [*] m 3 2 [-] m 0 0 [*] m 1 1 [*] m 2 3 [*] m 3 2 [-]
  m 0 2 [*] m 1 1 [*] m 2 0 [*] m 3 3 [+] m 0 1 [*] m 1 2 [*] m 2 0 [*] m 3 3 [+]
  m 0 2 [*] m 1 0 [*] m 2 1 [*] m 3 3 [-] m 0 0 [*] m 1 2 [*] m 2 1 [*] m 3 3 [-]
  m 0 1 [*] m 1 0 [*] m 2 2 [*] m 3 3 [+] m 0 0 [*] m 1 1 [*] m 2 2 [*] m 3 3.

Lemma determinant_Mat2_det2 (m : Mat) : determinant_Mat2 m = det2 (at_ 2 2 m).
Proof. reflexivity. Qed.

Lemma determinant_Mat3_det3 (m : Mat) : determinant_Mat3 m = det3 (at_ 3 3 m).
Proof. reflexivity. Qed.

Lemma determinant_Mat4_det4 (m : Mat) : determinant_Mat4 m = det4 (at_ 4 4 m).
Proof. reflexivity. Qed.

Lemma det2_ext f g :
  (forall a c, a < 2 -> c < 2 -> f a c = g a c) -> det2 f = det2 g.
Proof. intros H. unfold det2. now rewrite !H by lia. Qed.

Lemma det3_ext f g :
  (forall a c, a < 3 -> c < 3 -> f a c = g a c) -> det3 f = det3 g.
Proof. intros H. unfold det3. now rewrite !H by lia. Qed.

Lemma det4_ext f g :
  (forall a c, a < 4 -> c < 4 -> f a c = g a c) -> det4 f = det4 g.
Proof. intros H. unfold det4. now rewrite !H by lia. Qed.

Lemma det2_swap f r s :
  r < 2 -> s < 2 -> r <> s -> det2 (fun a c => f (transp r s a) c) = [~] det2 f.
Proof.
  intros Hr Hs Hne.
  destruct r as [|[|r]]; destruct s as [|[|s]]; try lia;
    unfold det2, transp; simpl; ring.
Qed.

Lemma det3_swap f r s :
  r < 3 -> s < 3 -> r <> s -> det3 (fun a c => f (transp r s a) c) = [~] det3 f.
Proof.
  intros Hr Hs Hne.
  destruct r as [|[|[|r]]]; destruct s as [|[|[|s]]]; try lia;
    unfold det3, transp; simpl; ring.
Qed.

Lemma det4_swap f r s :
  r < 4 -> s < 4 -> r <> s -> det4 (fun a c => f (transp r s a) c) = [~] det4 f.
Proof.
  intros Hr Hs Hne.
  destruct r as [|[|[|[|r]]]]; destruct s as [|[|[|[|s]]]]; try lia;
    unfold det4, transp; simpl; ring.
Qed.

Lemma det2_LU f : det2 (LUprod f) = for_range 0 2 (fun i r => r [*] f i i) one.
Proof. unfold det2, LUprod, sum_from. cbn. ring. Qed.

Lemma det3_LU f : det3 (LUprod f) = for_range 0 3 (fun i r => r [*] f i i) one.
Proof. unfold det3, LUprod, sum_from. cbn. ring. Qed.

Lemma det4_LU f : det4 (LUprod f) = for_range 0 4 (fun i r => r [*] f i i) one.
Proof. unfold det4, LUprod, sum_from. cbn. ring. Qed.


End ExactLU.

(** Whether an outcome of [lu_decomposition] is a success. *)
Definition lu_succeeds {T : Type} (o : outcome (bool * @Mat T * @Vec T * T)) : bool :=
  match o with
  | Ret (true, _, _, _) => true
  | _ => false
  end.

Lemma lu_succeeds_true {T : Type} (o : outcome (bool * @Mat T * @Vec T * T)) :
  lu_succeeds o = true -> exists alu rowp d, o = Ret (true, alu, rowp, d).
Proof.
  destruct o as [[[[[|] alu] rowp] d]|]; simpl; try discriminate.
  intros _. eauto.
Qed.


(** The rational matrices of the witness, column by column: [[2, 1], [1, 1]],
    a 3-by-3 matrix of determinant [-5] and a 4-by-4 matrix of determinant
    [2]. *)
Definition example_Mat2 : list Qc := map Q2Qc [2; 1; 1; 1]%Q.
Definition example_Mat3 : list Qc := map Q2Qc [0; 2; 1; 1; 1; 0; 3; 0; 1]%Q.
Definition example_Mat4 : list Qc :=
  map Q2Qc [1; 3; 0; 2; 2; 4; 1; 0; 0; 0; 1; 0; 0; 1; 0; 1]%Q.


(** * The other members and services: properties *)

(** * More properties: the members of [Mat<N, M, T>] *)

(** ** Loops over the flat buffer *)

Section BufferLoops.
Context {T : Type}.

(** A loop that writes [f i] at every index [i] of a buffer. *)
Lemma fill_buffer (f : nat -> T) (d : T) n (init : list T) :
  length init = n ->
  let r := for_range 0 n (fun i res => upd i (f i) res) init in
  length r = n /\ forall i, i < n -> nth i r d = f i.
Proof.
  intros Hlen r. subst r.
  pose (P := fun (k : nat) (s : list T) =>
               length s = n /\ forall i, i < k -> nth i s d = f i).
  assert (H : P n (for_range 0 n (fun i res => upd i (f i) res) init)).
  { apply (for_range_ind P); unfold P; [lia | split; [exact Hlen | intros; lia] |].
    intros i s Hi [Hl Hs]. split; [now rewrite upd_length |].
    intros k Hk. rewrite nth_upd by lia.
    destruct (Nat.eqb_spec i k); [now subst | apply Hs; lia]. }
  exact H.
Qed.

(** A loop that replaces every element [x] at index [i] by [g i x]. *)
Lemma update_buffer (g : nat -> T -> T) (d : T) n (m : list T) :
  length m = n ->
  let r := for_range 0 n (fun i m_ => upd i (g i (nth i m_ d)) m_) m in
  length r = n /\ forall i, i < n -> nth i r d = g i (nth i m d).
Proof.
  intros Hlen r. subst r.
  pose (P := fun (k : nat) (s : list T) =>
               length s = n /\
               (forall i, i < k -> nth i s d = g i (nth i m d)) /\
               (forall i, k <= i -> nth i s d = nth i m d)).
  assert (H : P n (for_range 0 n (fun i m_ => upd i (g i (nth i m_ d)) m_) m)).
  { apply (for_range_ind P); unfold P; [lia | |].
    - split; [exact Hlen | split; [intros; lia | reflexivity]].
    - intros i s Hi (Hl & Hlo & Hhi). split; [now rewrite upd_length |]. split.
      + intros k Hk. rewrite nth_upd by lia.
        destruct (Nat.eqb_spec i k); [subst; now rewrite Hhi | apply Hlo; lia].
      + intros k Hk. rewrite nth_upd_other by lia. apply Hhi. lia. }
  destruct H as (Hl & Hlo & _). split; [exact Hl | exact Hlo].
Qed.

Lemma firstn_nth (l : list T) (d : T) n i :
  i < n -> nth i (firstn n l) d = nth i l d.
Proof.
  revert l i. induction n as [|n IH]; intros l i Hi; [lia |].
  destruct l as [|x l]; [now destruct i |].
  destruct i as [|i]; [reflexivity |]. simpl. apply IH. lia.
Qed.

End BufferLoops.

Section MemberProperties.
Context {T : Type} {ST : Scalar T}.
Local Abbreviation Mat := (@Mat T).
Local Abbreviation Vec := (@Vec T).

Lemma transp_sym a b r : transp a b r = transp b a r.
Proof.
  unfold transp.
  destruct (Nat.eqb_spec r a), (Nat.eqb_spec r b); subst; reflexivity.
Qed.

(** *** Rows and columns *)

Lemma col_spec N M (m : Mat) c :
  length (col N M m c) = N /\
  forall i, i < N -> vec_at (col N M m c) i = at_ N M m i c.
Proof.
  unfold col, vec_at.
  apply (fill_buffer (fun i => at_ N M m i c) indet N (Vec_default N)).
  apply Vec_default_length.
Qed.

Lemma set_col_spec N M (m : Mat) c (v : Vec) :
  wf N M m -> c < M ->
  wf N M (set_col N M m c v) /\
  forall r c', r < N -> c' < M ->
    at_ N M (set_col N M m c v) r c' =
    if Nat.eqb c' c then vec_at v r else at_ N M m r c'.
Proof.
  intros Hwf Hc. unfold set_col.
  pose (P := fun (k : nat) (s : Mat) =>
               wf N M s /\
               forall r c', r < N -> c' < M ->
                 at_ N M s r c' =
                 if (Nat.eqb c' c && Nat.ltb r k)%bool then vec_at v r
                 else at_ N M m r c').
  assert (H : P N (for_range 0 N (fun i this => set_ N M this i c (vec_at v i)) m)).
  { apply (for_range_ind P); unfold P; [lia | |].
    - split; [exact Hwf |]. intros r c' Hr Hc'.
      now rewrite Bool.andb_false_r.
    - intros i s Hi [Hs Hat]. split; [now apply set_wf |].
      intros r c' Hr Hc'. rewrite at_set by (try assumption; lia).
      rewrite Hat by assumption. nat_cases. }
  destruct H as [Hw Hat]. split; [exact Hw |].
  intros r c' Hr Hc'. rewrite Hat by assumption.
  destruct (Nat.eqb c' c); [| reflexivity]. simpl.
  destruct (Nat.ltb_spec r N); [reflexivity | lia].
Qed.

(** X1: reading back the row that [set_row] wrote gives the first [M]
    components of the vector, the other rows are untouched, and writing a
    row back onto itself changes nothing. *)
Theorem set_row_then_row :
  forall (N M : nat) (m : Mat) (r : nat) (v : Vec),
    wf N M m -> r < N -> M <= length v ->
    row N M (set_row N M m r v) r = firstn M v /\
    (forall r', r' < N -> r' <> r ->
       row N M (set_row N M m r v) r' = row N M m r') /\
    set_row N M m r (row N M m r) = m.
Proof.
  intros N M m r v Hwf Hr Hv.
  destruct (set_row_spec N M m r v Hwf Hr) as [Hw1 Hat1].
  split; [| split].
  - apply (nth_ext_len _ _ indet).
    + destruct (row_spec N M (set_row N M m r v) r) as [Hl _].
      rewrite Hl, length_firstn. lia.
    + intros i Hi.
      destruct (row_spec N M (set_row N M m r v) r) as [Hl Hrow].
      rewrite Hl in Hi. fold (vec_at (row N M (set_row N M m r v) r) i).
      rewrite Hrow by assumption. rewrite Hat1 by assumption.
      rewrite Nat.eqb_refl. unfold vec_at. now rewrite firstn_nth.
  - intros r' Hr' Hne. apply (nth_ext_len _ _ indet).
    + destruct (row_spec N M (set_row N M m r v) r') as [Hl _].
      destruct (row_spec N M m r') as [Hl' _]. now rewrite Hl, Hl'.
    + intros i Hi.
      destruct (row_spec N M (set_row N M m r v) r') as [Hl Hrow].
      destruct (row_spec N M m r') as [_ Hrow'].
      rewrite Hl in Hi.
      fold (vec_at (row N M (set_row N M m r v) r') i).
      fold (vec_at (row N M m r') i).
      rewrite Hrow, Hrow' by assumption. rewrite Hat1 by assumption.
      destruct (Nat.eqb_spec r' r); [contradiction | reflexivity].
  - destruct (set_row_spec N M m r (row N M m r) Hwf Hr) as [Hw2 Hat2].
    apply (mat_ext N M); [exact Hw2 | exact Hwf |].
    intros a c Ha Hc. rewrite Hat2 by assumption.
    destruct (Nat.eqb_spec a r); [subst | reflexivity].
    destruct (row_spec N M m r) as [_ Hrow]. now apply Hrow.
Qed.

(** X2: the same round trip for columns, and the columns of a matrix are
    the rows of its transpose. *)
Theorem set_col_then_col :
  forall (N M : nat) (m : Mat) (c : nat) (v : Vec),
    wf N M m -> c < M -> N <= length v ->
    col N M (set_col N M m c v) c = firstn N v /\
    set_col N M m c (col N M m c) = m /\
    col N M m c = row M N (transpose N M m) c.
Proof.
  intros N M m c v Hwf Hc Hv.
  destruct (set_col_spec N M m c v Hwf Hc) as [Hw1 Hat1].
  split; [| split].
  - apply (nth_ext_len _ _ indet).
    + destruct (col_spec N M (set_col N M m c v) c) as [Hl _].
      rewrite Hl, length_firstn. lia.
    + intros i Hi.
      destruct (col_spec N M (set_col N M m c v) c) as [Hl Hcol].
      rewrite Hl in Hi. fold (vec_at (col N M (set_col N M m c v) c) i).
      rewrite Hcol by assumption. rewrite Hat1 by assumption.
      rewrite Nat.eqb_refl. unfold vec_at. now rewrite firstn_nth.
  - destruct (set_col_spec N M m c (col N M m c) Hwf Hc) as [Hw2 Hat2].
    apply (mat_ext N M); [exact Hw2 | exact Hwf |].
    intros a k Ha Hk. rewrite Hat2 by assumption.
    destruct (Nat.eqb_spec k c); [subst | reflexivity].
    destruct (col_spec N M m c) as [_ Hcol]. now apply Hcol.
  - apply (nth_ext_len _ _ indet).
    + destruct (col_spec N M m c) as [Hl _].
      destruct (row_spec M N (transpose N M m) c) as [Hl' _]. now rewrite Hl, Hl'.
    + intros i Hi.
      destruct (col_spec N M m c) as [Hl Hcol].
      destruct (row_spec M N (transpose N M m) c) as [_ Hrow].
      rewrite Hl in Hi.
      fold (vec_at (col N M m c) i). fold (vec_at (row M N (transpose N M m) c) i).
      rewrite Hcol, Hrow by assumption.
      destruct (transpose_spec N M m) as [_ Ht]. now rewrite Ht.
Qed.

(** *** Exchanges of rows and of columns *)

(** X3: exchanging two rows twice gives the matrix back, and the order of
    the two indices does not matter; the same holds for columns; and an
    exchange of rows commutes with an exchange of columns. *)
Theorem swap_rows_cols_involutive :
  forall (N M : nat) (m : Mat) (a b c d : nat),
    wf N M m -> a < N -> b < N -> c < M -> d < M ->
    swap_rows N M (swap_rows N M m a b) a b = m /\
    swap_rows N M m a b = swap_rows N M m b a /\
    swap_cols N M (swap_cols N M m c d) c d = m /\
    swap_cols N M m c d = swap_cols N M m d c /\
    swap_rows N M (swap_cols N M m c d) a b = swap_cols N M (swap_rows N M m a b) c d.
Proof.
  intros N M m a b c d Hwf Ha Hb Hc Hd.
  destruct (swap_rows_spec N M m a b Hwf Ha Hb) as [Hw1 H1].
  destruct (swap_rows_spec N M _ a b Hw1 Ha Hb) as [Hw2 H2].
  destruct (swap_rows_spec N M m b a Hwf Hb Ha) as [Hw3 H3].
  destruct (swap_cols_spec N M m c d Hwf Hc Hd) as [Hw4 H4].
  destruct (swap_cols_spec N M _ c d Hw4 Hc Hd) as [Hw5 H5].
  destruct (swap_cols_spec N M m d c Hwf Hd Hc) as [Hw6 H6].
  destruct (swap_rows_spec N M _ a b Hw4 Ha Hb) as [Hw7 H7].
  destruct (swap_cols_spec N M _ c d Hw1 Hc Hd) as [Hw8 H8].
  repeat split; apply (mat_ext N M); try assumption; intros r k Hr Hk.
  - rewrite H2 by assumption.
    rewrite H1 by (try apply transp_lt; assumption).
    now rewrite transp_involutive.
  - rewrite H1, H3 by assumption. now rewrite transp_sym.
  - rewrite H5 by assumption.
    rewrite H4 by (try apply transp_lt; assumption).
    now rewrite transp_involutive.
  - rewrite H4, H6 by assumption. now rewrite transp_sym.
  - rewrite H7, H8 by assumption.
    rewrite H4 by (try apply transp_lt; assumption).
    rewrite H1 by (try apply transp_lt; assumption). reflexivity.
Qed.

(** *** The trace *)

(** X4: a square matrix and its transpose have the same trace, in every
    scalar type: the same elements are added in the same order. *)
Theorem trace_transpose :
  forall (D : nat) (m : Mat),
    wf D D m -> trace D (transpose D D m) = trace D m.
Proof.
  intros D m Hwf. unfold trace.
  destruct (transpose_spec D D m) as [_ Ht].
  destruct D as [|D].
  - unfold for_range. simpl. unfold wf in Hwf. simpl in Hwf.
    destruct m; [reflexivity | discriminate].
  - rewrite (Ht 0 0) by lia.
    apply for_range_ext. intros i s Hi. now rewrite (Ht i i) by lia.
Qed.

End MemberProperties.

(** X1 at a 2-by-3 matrix of doubles. *)
Lemma set_row_then_row_witness :
  row 2 3 (set_row 2 3 [1; 2; 3; 4; 5; 6]%float 1 [7; 8; 9; 10]%float) 1
    = firstn 3 [7; 8; 9; 10]%float /\
  (forall r', r' < 2 -> r' <> 1 ->
     row 2 3 (set_row 2 3 [1; 2; 3; 4; 5; 6]%float 1 [7; 8; 9; 10]%float) r'
     = row 2 3 [1; 2; 3; 4; 5; 6]%float r') /\
  set_row 2 3 [1; 2; 3; 4; 5; 6]%float 1 (row 2 3 [1; 2; 3; 4; 5; 6]%float 1)
    = [1; 2; 3; 4; 5; 6]%float.
Proof.
  apply (set_row_then_row 2 3 [1; 2; 3; 4; 5; 6]%float 1 [7; 8; 9; 10]%float);
    [reflexivity | lia | simpl; lia].
Defined.

(** X2 at a 2-by-3 matrix of doubles. *)
Lemma set_col_then_col_witness :
  col 2 3 (set_col 2 3 [1; 2; 3; 4; 5; 6]%float 2 [7; 8; 9]%float) 2
    = firstn 2 [7; 8; 9]%float /\
  set_col 2 3 [1; 2; 3; 4; 5; 6]%float 2 (col 2 3 [1; 2; 3; 4; 5; 6]%float 2)
    = [1; 2; 3; 4; 5; 6]%float /\
  col 2 3 [1; 2; 3; 4; 5; 6]%float 2
    = row 3 2 (transpose 2 3 [1; 2; 3; 4; 5; 6]%float) 2.
Proof.
  apply (set_col_then_col 2 3 [1; 2; 3; 4; 5; 6]%float 2 [7; 8; 9]%float);
    [reflexivity | lia | simpl; lia].
Defined.

(** X3 at a 3-by-2 matrix of doubles. *)
Lemma swap_rows_cols_involutive_witness :
  swap_rows 3 2 (swap_rows 3 2 [1; 2; 3; 4; 5; 6]%float 0 2) 0 2
    = [1; 2; 3; 4; 5; 6]%float /\
  swap_rows 3 2 [1; 2; 3; 4; 5; 6]%float 0 2
    = swap_rows 3 2 [1; 2; 3; 4; 5; 6]%float 2 0 /\
  swap_cols 3 2 (swap_cols 3 2 [1; 2; 3; 4; 5; 6]%float 0 1) 0 1
    = [1; 2; 3; 4; 5; 6]%float /\
  swap_cols 3 2 [1; 2; 3; 4; 5; 6]%float 0 1
    = swap_cols 3 2 [1; 2; 3; 4; 5; 6]%float 1 0 /\
  swap_rows 3 2 (swap_cols 3 2 [1; 2; 3; 4; 5; 6]%float 0 1) 0 2
    = swap_cols 3 2 (swap_rows 3 2 [1; 2; 3; 4; 5; 6]%float 0 2) 0 1.
Proof.
  apply (swap_rows_cols_involutive 3 2 [1; 2; 3; 4; 5; 6]%float 0 2 0 1);
    [reflexivity | lia | lia | lia | lia].
Defined.

(** X4 at a 2-by-2 matrix of doubles. *)
Lemma trace_transpose_witness :
  trace 2 (transpose 2 2 [1; 2; 3; 4]%float) = trace 2 [1; 2; 3; 4]%float.
Proof. apply (trace_transpose 2 [1; 2; 3; 4]%float). reflexivity. Defined.

(** ** Loops that search *)

(** A loop without state that may return: it falls through exactly when every
    turn does, and what it returns, some turn returned. *)
Lemma for_loop_ret_unit {R : Type} (body : nat -> unit -> unit + R) n :
  forall lo,
    (for_loop_ret n lo body tt = inl tt <->
     forall i, lo <= i < lo + n -> body i tt = inl tt) /\
    (forall r, for_loop_ret n lo body tt = inr r <->
     exists i, lo <= i < lo + n /\ body i tt = inr r /\
               forall k, lo <= k < i -> body k tt = inl tt).
Proof.
  induction n as [|n IH]; intros lo; simpl.
  - split; [split; [intros _ i Hi; lia | reflexivity] |].
    intros r. split; [discriminate | intros (i & Hi & _); lia].
  - destruct (IH (S lo)) as [IHl IHr].
    destruct (body lo tt) as [[]|r0] eqn:Hb.
    + split.
      * rewrite IHl. split.
        -- intros H i Hi. destruct (Nat.eq_dec i lo) as [->|Hne]; [exact Hb |].
           apply H. lia.
        -- intros H i Hi. apply H. lia.
      * intros r. rewrite IHr. split.
        -- intros (i & Hi & Hbi & Hk). exists i. split; [lia |]. split; [exact Hbi |].
           intros k Hk'. destruct (Nat.eq_dec k lo) as [->|Hne]; [exact Hb |].
           apply Hk. lia.
        -- intros (i & Hi & Hbi & Hk).
           destruct (Nat.eq_dec i lo) as [->|Hne]; [congruence |].
           exists i. split; [lia |]. split; [exact Hbi |].
           intros k Hk'. apply Hk. lia.
    + split.
      * split; [discriminate |]. intros H.
        specialize (H lo ltac:(lia)). congruence.
      * intros r. split.
        -- intros Hr. exists lo. split; [lia |]. split; [congruence |].
           intros k Hk. lia.
        -- intros (i & Hi & Hbi & Hk).
           destruct (Nat.eq_dec i lo) as [->|Hne]; [congruence |].
           specialize (Hk lo ltac:(lia)). congruence.
Qed.

Section Search.
Context {T : Type} {ST : Scalar T} {CO : ClassifyOp T}.

(** Whether an element is a NaN or an infinity, the test of [has_nan]. *)
Definition not_finite (v : T) : bool := sisnan v || sisinf v.

(** X5: [has_nan] returns [true] exactly when some element of the matrix is
    a NaN or an infinity (its name mentions the first only), and [false]
    exactly when no element is. *)
Theorem has_nan_iff :
  forall (N M : nat) (m : @Mat T),
    (has_nan N M m = true <->
     exists i j, i < N /\ j < M /\
       (sisnan (at_ N M m i j) = true \/ sisinf (at_ N M m i j) = true)) /\
    (has_nan N M m = false <->
     forall i j, i < N -> j < M ->
       sisnan (at_ N M m i j) = false /\ sisinf (at_ N M m i j) = false).
Proof.
  intros N M m.
  pose (inner := fun i (_ : unit) =>
          for_range_ret 0 M (fun j (_ : unit) =>
            if sisnan (at_ N M m i j) || sisinf (at_ N M m i j)
            then @inr unit bool true else inl tt) tt).
  assert (Hin : forall i,
            (inner i tt = inl tt <->
             forall j, j < M -> not_finite (at_ N M m i j) = false) /\
            (forall r, inner i tt = inr r ->
             r = true /\ exists j, j < M /\ not_finite (at_ N M m i j) = true)).
  { intros i. unfold inner, for_range_ret. rewrite Nat.sub_0_r.
    destruct (for_loop_ret_unit
                (fun j (_ : unit) =>
                   if sisnan (at_ N M m i j) || sisinf (at_ N M m i j)
                   then @inr unit bool true else inl tt) M 0) as [Hl Hr].
    split.
    - rewrite Hl. split; intros H j Hj.
      + specialize (H j ltac:(lia)). unfold not_finite.
        destruct (sisnan _ || sisinf _); [discriminate | reflexivity].
      + specialize (H j ltac:(lia)). unfold not_finite in H. now rewrite H.
    - intros r Hret. apply Hr in Hret. destruct Hret as (j & Hj & Hb & _).
      unfold not_finite.
      destruct (sisnan (at_ N M m i j) || sisinf (at_ N M m i j)) eqn:E;
        [| discriminate].
      split; [congruence |]. exists j. split; [lia | exact E]. }
  assert (Hout : has_nan N M m =
                 match for_loop_ret N 0 inner tt with inr r => r | inl _ => false end).
  { unfold has_nan, for_range_ret. now rewrite Nat.sub_0_r. }
  assert (Htrue : has_nan N M m = true <->
            exists i j, i < N /\ j < M /\ not_finite (at_ N M m i j) = true).
  { rewrite Hout. split.
    - destruct (for_loop_ret N 0 inner tt) as [[]|r] eqn:E; [discriminate |].
      intros ->. destruct (for_loop_ret_unit inner N 0) as [_ Hr].
      apply Hr in E. destruct E as (i & Hi & Hb & _).
      apply (proj2 (Hin i)) in Hb. destruct Hb as [_ (j & Hj & Hbad)].
      exists i, j. repeat split; [lia | exact Hj | exact Hbad].
    - intros (i & j & Hi & Hj & Hbad).
      destruct (for_loop_ret N 0 inner tt) as [[]|r] eqn:E.
      + destruct (for_loop_ret_unit inner N 0) as [Hl _].
        pose proof (proj1 Hl E i ltac:(lia)) as E'. clear E. rename E' into E.
        pose proof (proj1 (proj1 (Hin i)) E j Hj) as E2.
        rewrite E2 in Hbad. discriminate.
      + destruct (for_loop_ret_unit inner N 0) as [_ Hr].
        apply Hr in E. destruct E as (i' & _ & Hb & _).
        now apply (proj2 (Hin i')) in Hb. }
  split.
  - rewrite Htrue. unfold not_finite.
    split; intros (i & j & Hi & Hj & H); exists i, j; repeat split; try assumption.
    + now apply Bool.orb_true_iff.
    + now apply Bool.orb_true_iff in H.
  - rewrite <- Bool.not_true_iff_false, Htrue. split.
    + intros H i j Hi Hj. apply Bool.orb_false_iff. fold (not_finite (at_ N M m i j)).
      destruct (not_finite (at_ N M m i j)) eqn:E; [| reflexivity].
      exfalso. apply H. now exists i, j.
    + intros H (i & j & Hi & Hj & Hbad). destruct (H i j Hi Hj) as [H1 H2].
      unfold not_finite in Hbad. rewrite H1, H2 in Hbad. discriminate.
Qed.

End Search.

(** ** Constructors and conversions *)

Section Conversions.
Context {T : Type} {ST : Scalar T}.
Local Abbreviation Mat := (@Mat T).
Local Abbreviation Vec := (@Vec T).

Lemma Mat_block_spec N M rN rM (rhs : Mat) :
  wf N M (Mat_block N M rN rM rhs) /\
  forall i j, i < N -> j < M ->
    at_ N M (Mat_block N M rN rM rhs) i j = at_ rN rM rhs i j.
Proof.
  unfold Mat_block.
  apply (fill_loops_body N M
           (fun i j this => set_ N M this i j (at_ rN rM rhs i j))
           (fun i j => at_ rN rM rhs i j)).
  - apply Mat_default_wf.
  - reflexivity.
Qed.

Lemma Mat_of_array_spec N M (a : list T) :
  wf N M (Mat_of_array N M a) /\
  forall i, i < N * M -> nth i (Mat_of_array N M a) indet = nth i a indet.
Proof.
  unfold Mat_of_array, wf.
  apply (fill_buffer (fun i => nth i a indet) indet (N * M) (Mat_default N M)).
  apply Mat_default_wf.
Qed.

Lemma load_identity_spec N M (m : Mat) (s : T) :
  wf N M m ->
  wf N M (load_identity N M m s) /\
  forall i j, i < N -> j < M ->
    at_ N M (load_identity N M m s) i j = if Nat.eqb i j then s else zero.
Proof.
  intros Hwf. unfold load_identity.
  apply (fill_loops_body N M
           (fun i j this => if Nat.eqb i j then set_ N M this i j s
                            else set_ N M this i j zero)
           (fun i j => if Nat.eqb i j then s else zero)); [exact Hwf |].
  intros i j this _ _ _. now destruct (Nat.eqb i j).
Qed.

(** X6: [load_identity] and [load_zero] forget what the matrix held:
    [load_identity(s)] leaves the matrix that the constructor [Mat(s)]
    builds, [load_identity(T(1))] the matrix [identity()], [load_zero()] the
    matrix [Mat(T(0))]. *)
Theorem load_identity_overwrites :
  forall (N M : nat) (m : Mat) (s : T),
    wf N M m ->
    load_identity N M m s = Mat_fill N M s /\
    load_identity N M m one = identity N M /\
    load_zero N M m = Mat_fill N M zero.
Proof.
  intros N M m s Hwf. split; [| split].
  - destruct (load_identity_spec N M m s Hwf) as [Hw Hat].
    apply (mat_ext N M); [exact Hw | apply Mat_fill_wf |].
    intros i j Hi Hj. rewrite Hat by assumption.
    destruct (diag_loops_at N M s) as [_ Hd]. symmetry. now apply Hd.
  - destruct (load_identity_spec N M m one Hwf) as [Hw Hat].
    apply (mat_ext N M); [exact Hw | apply identity_wf |].
    intros i j Hi Hj. rewrite Hat by assumption. symmetry. now apply at_identity.
  - unfold load_zero.
    destruct (fill_buffer (fun _ => zero) indet (N * M) m Hwf) as [Hl Hn].
    apply (nth_ext_len _ _ indet).
    + rewrite Hl. symmetry. apply Mat_fill_wf.
    + intros i Hi. rewrite Hl in Hi. rewrite Hn by assumption.
      destruct (diag_loops_at N M zero) as [_ Hd].
      assert (HM : 0 < N) by (destruct N; simpl in Hi; lia).
      assert (Hq : i / N < M).
      { apply Nat.Div0.div_lt_upper_bound. lia. }
      assert (Hr : i mod N < N) by (apply Nat.mod_upper_bound; lia).
      specialize (Hd (i mod N) (i / N) Hr Hq). unfold at_ in Hd.
      replace (i / N * N + i mod N) with i in Hd
        by (rewrite (Nat.div_mod_eq i N) at 1; lia).
      unfold Mat_fill. rewrite Hd. now destruct (Nat.eqb _ _).
Qed.

(** X7: the constructor [Mat4(Mat3)] followed by [sub()], or by the
    constructor [Mat3(Mat4)], gives the 3-by-3 matrix back; [Mat3(Mat4)] and
    [Mat4::sub()], and [Mat2(Mat3)] and [Mat3::sub()], are the generic
    top-left block constructor. *)
Theorem Mat4_of_Mat3_then_sub :
  forall m : Mat,
    wf 3 3 m ->
    sub_Mat4 (Mat4_of_Mat3 m) = m /\
    Mat3_of_Mat4 (Mat4_of_Mat3 m) = m /\
    (forall m4 : Mat,
       Mat3_of_Mat4 m4 = Mat_block 3 3 4 4 m4 /\ sub_Mat4 m4 = Mat_block 3 3 4 4 m4) /\
    (forall m3 : Mat,
       Mat2_of_Mat3 m3 = Mat_block 2 2 3 3 m3 /\ sub_Mat3 m3 = Mat_block 2 2 3 3 m3).
Proof.
  intros m Hwf. unfold wf in Hwf.
  destruct m as [|a0 [|a1 [|a2 [|a3 [|a4 [|a5 [|a6 [|a7 [|a8 [|]]]]]]]]]];
    try discriminate.
  repeat split; try (intros; vm_compute; reflexivity).
Qed.

(** X8: [Mat3(Mat2)] does not embed its argument: the element (0, 0) of the
    result is [rhs(0, 1)], the element (1, 0) is [rhs(1, 1)], the middle
    column is never assigned, and the first column of [rhs] is never read;
    so [sub()] of the result is not [rhs]. *)
Theorem Mat3_of_Mat2_misplaces :
  forall rhs : Mat,
    Mat3_of_Mat2 rhs =
      [at_ 2 2 rhs 0 1; at_ 2 2 rhs 1 1; zero;
       indet; indet; indet;
       zero; zero; one] /\
    sub_Mat3 (Mat3_of_Mat2 rhs) = [at_ 2 2 rhs 0 1; at_ 2 2 rhs 1 1; indet; indet] /\
    (forall i, i < 3 ->
       at_ 3 3 (Mat3_of_Mat2 rhs) i 1 = at_ 3 3 (Mat_default 3 3) i 1) /\
    (forall rhs' : Mat,
       at_ 2 2 rhs' 0 1 = at_ 2 2 rhs 0 1 -> at_ 2 2 rhs' 1 1 = at_ 2 2 rhs 1 1 ->
       Mat3_of_Mat2 rhs' = Mat3_of_Mat2 rhs).
Proof.
  intros rhs.
  assert (H : Mat3_of_Mat2 rhs =
              [at_ 2 2 rhs 0 1; at_ 2 2 rhs 1 1; zero; indet; indet; indet;
               zero; zero; one]) by (vm_compute; reflexivity).
  split; [exact H |]. split; [vm_compute; reflexivity |]. split.
  - intros i Hi. rewrite H.
    destruct i as [|[|[|i]]]; try lia; reflexivity.
  - intros rhs' H1 H2. rewrite H.
    assert (H' : Mat3_of_Mat2 rhs' =
              [at_ 2 2 rhs' 0 1; at_ 2 2 rhs' 1 1; zero; indet; indet; indet;
               zero; zero; one]) by (vm_compute; reflexivity).
    rewrite H', H1, H2. reflexivity.
Qed.

(** X9: the constructors from a raw array read it in column-major order:
    [Mat2], [Mat3] and [Mat4] built from an array are the generic [Mat]
    built from it, a matrix built from its own buffer is itself, and the
    transpose of the column matrix [to_matrix(v)] is the row matrix
    [transpose(v)]. *)
Theorem Mat_of_array_round_trip :
  forall (N M : nat) (m : Mat) (a : list T),
    wf N M m ->
    Mat_of_array N M m = m /\
    Mat2_of_array a = Mat_of_array 2 2 a /\
    Mat3_of_array a = Mat_of_array 3 3 a /\
    Mat4_of_array a = Mat_of_array 4 4 a /\
    transpose N 1 (to_matrix N a) = transpose_Vec N a.
Proof.
  intros N M m a Hwf. split; [| split; [| split; [| split]]];
    try (vm_compute; reflexivity).
  - destruct (Mat_of_array_spec N M m) as [Hw Hn].
    apply (nth_ext_len _ _ indet); [now rewrite Hw, Hwf |].
    intros i Hi. rewrite Hw in Hi. now apply Hn.
  - unfold to_matrix, transpose_Vec.
    destruct (transpose_spec N 1 (Mat_of_array N 1 a)) as [Hw Ht].
    destruct (Mat_of_array_spec N 1 a) as [Hw1 Hn1].
    destruct (Mat_of_array_spec 1 N a) as [Hw2 Hn2].
    apply (mat_ext 1 N); [exact Hw | exact Hw2 |].
    intros r c Hr Hc. assert (r = 0) by lia. subst r.
    rewrite (Ht c 0) by lia. unfold at_.
    rewrite Hn1 by lia. rewrite Hn2 by lia. f_equal. lia.
Qed.

(** X10: in the column-major layout the buffer of a matrix built from its
    column vectors is the concatenation of the vectors. *)
Theorem Mat_of_cols_buffer :
  forall x2 y2 x3 y3 z3 x4 y4 z4 w4 : Vec,
    length x2 = 2 -> length y2 = 2 ->
    length x3 = 3 -> length y3 = 3 -> length z3 = 3 ->
    length x4 = 4 -> length y4 = 4 -> length z4 = 4 -> length w4 = 4 ->
    Mat2_of_cols x2 y2 = x2 ++ y2 /\
    Mat3_of_cols x3 y3 z3 = x3 ++ y3 ++ z3 /\
    Mat4_of_cols x4 y4 z4 w4 = x4 ++ y4 ++ z4 ++ w4.
Proof.
  intros x2 y2 x3 y3 z3 x4 y4 z4 w4 Hx2 Hy2 Hx3 Hy3 Hz3 Hx4 Hy4 Hz4 Hw4.
  destruct x2 as [|? [|? [|]]]; try discriminate.
  destruct y2 as [|? [|? [|]]]; try discriminate.
  destruct x3 as [|? [|? [|? [|]]]]; try discriminate.
  destruct y3 as [|? [|? [|? [|]]]]; try discriminate.
  destruct z3 as [|? [|? [|? [|]]]]; try discriminate.
  destruct x4 as [|? [|? [|? [|? [|]]]]]; try discriminate.
  destruct y4 as [|? [|? [|? [|? [|]]]]]; try discriminate.
  destruct z4 as [|? [|? [|? [|? [|]]]]]; try discriminate.
  destruct w4 as [|? [|? [|? [|? [|]]]]]; try discriminate.
  repeat split; vm_compute; reflexivity.
Qed.

(** *** The operators that work element by element *)

Lemma mat_add_spec N M (a b : Mat) :
  wf N M (mat_add N M a b) /\
  forall i, i < N * M ->
    nth i (mat_add N M a b) indet = nth i a indet [+] nth i b indet.
Proof.
  unfold mat_add, wf.
  apply (fill_buffer (fun i => nth i a indet [+] nth i b indet) indet (N * M)).
  apply Mat_default_wf.
Qed.

Lemma mat_sub_spec N M (a b : Mat) :
  wf N M (mat_sub N M a b) /\
  forall i, i < N * M ->
    nth i (mat_sub N M a b) indet = nth i a indet [-] nth i b indet.
Proof.
  unfold mat_sub, wf.
  apply (fill_buffer (fun i => nth i a indet [-] nth i b indet) indet (N * M)).
  apply Mat_default_wf.
Qed.

Lemma mat_neg_spec N M (a : Mat) :
  wf N M (mat_neg N M a) /\
  forall i, i < N * M -> nth i (mat_neg N M a) indet = [~] nth i a indet.
Proof.
  unfold mat_neg, wf.
  apply (fill_buffer (fun i => [~] nth i a indet) indet (N * M)).
  apply Mat_default_wf.
Qed.

Lemma mat_mul_scalar_spec N M (a : Mat) (s : T) :
  wf N M (mat_mul_scalar N M a s) /\
  forall i, i < N * M -> nth i (mat_mul_scalar N M a s) indet = nth i a indet [*] s.
Proof.
  unfold mat_mul_scalar, wf.
  apply (fill_buffer (fun i => nth i a indet [*] s) indet (N * M)).
  apply Mat_default_wf.
Qed.

Lemma mat_div_scalar_spec N M (a : Mat) (s : T) :
  wf N M (mat_div_scalar N M a s) /\
  forall i, i < N * M -> nth i (mat_div_scalar N M a s) indet = nth i a indet [/] s.
Proof.
  unfold mat_div_scalar, wf.
  apply (fill_buffer (fun i => nth i a indet [/] s) indet (N * M)).
  apply Mat_default_wf.
Qed.

Lemma scalar_mul_mat_spec N M (s : T) (a : Mat) :
  wf N M (scalar_mul_mat N M s a) /\
  forall i, i < N * M -> nth i (scalar_mul_mat N M s a) indet = s [*] nth i a indet.
Proof.
  unfold scalar_mul_mat, wf.
  apply (fill_buffer (fun i => s [*] nth i a indet) indet (N * M)).
  apply Mat_default_wf.
Qed.

Lemma mat_scale_assign_spec N M (a : Mat) (s : T) :
  wf N M a ->
  wf N M (mat_scale_assign N M a s) /\
  forall i, i < N * M -> nth i (mat_scale_assign N M a s) indet = nth i a indet [*] s.
Proof.
  intros Hwf. unfold mat_scale_assign, wf.
  apply (update_buffer (fun _ x => x [*] s) indet (N * M) a Hwf).
Qed.

(** The element-wise view of a buffer-wise fact. *)
Lemma at_of_nth N M (a : Mat) (f : nat -> T) :
  (forall i, i < N * M -> nth i a indet = f i) ->
  forall r c, r < N -> c < M -> at_ N M a r c = f (c * N + r).
Proof. intros H r c Hr Hc. unfold at_. apply H. now apply index_lt. Qed.

(** X11: a compound assignment leaves the matrix that the binary operator
    returns: [a += b] and [a + b], [a -= b] and [a - b], [a *= s] and
    [a * s], [a /= s] and [a / s]. *)
Theorem compound_assignment_agrees :
  forall (N M : nat) (a b : Mat) (s : T),
    wf N M a ->
    mat_add_assign N M a b = mat_add N M a b /\
    mat_sub_assign N M a b = mat_sub N M a b /\
    mat_scale_assign N M a s = mat_mul_scalar N M a s /\
    mat_div_assign N M a s = mat_div_scalar N M a s.
Proof.
  intros N M a b s Hwf.
  destruct (mat_add_spec N M a b) as [Hw1 Hn1].
  destruct (mat_sub_spec N M a b) as [Hw2 Hn2].
  destruct (mat_mul_scalar_spec N M a s) as [Hw3 Hn3].
  destruct (mat_div_scalar_spec N M a s) as [Hw4 Hn4].
  destruct (update_buffer (fun i x => x [+] nth i b indet) indet (N * M) a Hwf)
    as [Hl1 Hu1].
  destruct (update_buffer (fun i x => x [-] nth i b indet) indet (N * M) a Hwf)
    as [Hl2 Hu2].
  destruct (update_buffer (fun _ x => x [*] s) indet (N * M) a Hwf) as [Hl3 Hu3].
  destruct (update_buffer (fun _ x => x [/] s) indet (N * M) a Hwf) as [Hl4 Hu4].
  repeat split; apply (nth_ext_len _ _ indet).
  - unfold mat_add_assign. now rewrite Hl1, Hw1.
  - unfold mat_add_assign. rewrite Hl1. intros i Hi. now rewrite Hu1, Hn1.
  - unfold mat_sub_assign. now rewrite Hl2, Hw2.
  - unfold mat_sub_assign. rewrite Hl2. intros i Hi. now rewrite Hu2, Hn2.
  - unfold mat_scale_assign. now rewrite Hl3, Hw3.
  - unfold mat_scale_assign. rewrite Hl3. intros i Hi. now rewrite Hu3, Hn3.
  - unfold mat_div_assign. now rewrite Hl4, Hw4.
  - unfold mat_div_assign. rewrite Hl4. intros i Hi. now rewrite Hu4, Hn4.
Qed.

End Conversions.

(** X6 at a 2-by-3 matrix of doubles. *)
Lemma load_identity_overwrites_witness :
  load_identity 2 3 [1; 2; 3; 4; 5; 6]%float 7%float = Mat_fill 2 3 7%float /\
  load_identity 2 3 [1; 2; 3; 4; 5; 6]%float one = identity 2 3 /\
  load_zero 2 3 [1; 2; 3; 4; 5; 6]%float = Mat_fill 2 3 zero.
Proof.
  apply (load_identity_overwrites 2 3 [1; 2; 3; 4; 5; 6]%float 7%float). reflexivity.
Defined.

(** X7 at a 3-by-3 matrix of doubles. *)
Lemma Mat4_of_Mat3_then_sub_witness :
  sub_Mat4 (Mat4_of_Mat3 [1; 2; 3; 4; 5; 6; 7; 8; 9]%float)
    = [1; 2; 3; 4; 5; 6; 7; 8; 9]%float /\
  Mat3_of_Mat4 (Mat4_of_Mat3 [1; 2; 3; 4; 5; 6; 7; 8; 9]%float)
    = [1; 2; 3; 4; 5; 6; 7; 8; 9]%float /\
  (forall m4 : list float,
     Mat3_of_Mat4 m4 = Mat_block 3 3 4 4 m4 /\ sub_Mat4 m4 = Mat_block 3 3 4 4 m4) /\
  (forall m3 : list float,
     Mat2_of_Mat3 m3 = Mat_block 2 2 3 3 m3 /\ sub_Mat3 m3 = Mat_block 2 2 3 3 m3).
Proof.
  apply (Mat4_of_Mat3_then_sub [1; 2; 3; 4; 5; 6; 7; 8; 9]%float). reflexivity.
Defined.

(** X9 at a 2-by-2 matrix of doubles. *)
Lemma Mat_of_array_round_trip_witness :
  Mat_of_array 2 2 [1; 2; 3; 4]%float = [1; 2; 3; 4]%float /\
  Mat2_of_array [5; 6; 7; 8]%float = Mat_of_array 2 2 [5; 6; 7; 8]%float /\
  Mat3_of_array [5; 6; 7; 8]%float = Mat_of_array 3 3 [5; 6; 7; 8]%float /\
  Mat4_of_array [5; 6; 7; 8]%float = Mat_of_array 4 4 [5; 6; 7; 8]%float /\
  transpose 2 1 (to_matrix 2 [5; 6; 7; 8]%float) = transpose_Vec 2 [5; 6; 7; 8]%float.
Proof.
  apply (Mat_of_array_round_trip 2 2 [1; 2; 3; 4]%float [5; 6; 7; 8]%float).
  reflexivity.
Defined.

(** X10 at vectors of doubles. *)
Lemma Mat_of_cols_buffer_witness :
  Mat2_of_cols [1; 2]%float [3; 4]%float = [1; 2; 3; 4]%float /\
  Mat3_of_cols [1; 2; 3]%float [4; 5; 6]%float [7; 8; 9]%float
    = [1; 2; 3; 4; 5; 6; 7; 8; 9]%float /\
  Mat4_of_cols [1; 2; 3; 4]%float [5; 6; 7; 8]%float [9; 10; 11; 12]%float
               [13; 14; 15; 16]%float
    = [1; 2; 3; 4; 5; 6; 7; 8; 9; 10; 11; 12; 13; 14; 15; 16]%float.
Proof.
  apply (Mat_of_cols_buffer [1; 2]%float [3; 4]%float
           [1; 2; 3]%float [4; 5; 6]%float [7; 8; 9]%float
           [1; 2; 3; 4]%float [5; 6; 7; 8]%float [9; 10; 11; 12]%float
           [13; 14; 15; 16]%float); reflexivity.
Defined.

(** X11 at 2-by-2 matrices of doubles. *)
Lemma compound_assignment_agrees_witness :
  mat_add_assign 2 2 [1; 2; 3; 4]%float [5; 6; 7; 8]%float
    = mat_add 2 2 [1; 2; 3; 4]%float [5; 6; 7; 8]%float /\
  mat_sub_assign 2 2 [1; 2; 3; 4]%float [5; 6; 7; 8]%float
    = mat_sub 2 2 [1; 2; 3; 4]%float [5; 6; 7; 8]%float /\
  mat_scale_assign 2 2 [1; 2; 3; 4]%float 3%float
    = mat_mul_scalar 2 2 [1; 2; 3; 4]%float 3%float /\
  mat_div_assign 2 2 [1; 2; 3; 4]%float 3%float
    = mat_div_scalar 2 2 [1; 2; 3; 4]%float 3%float.
Proof.
  apply (compound_assignment_agrees 2 2 [1; 2; 3; 4]%float [5; 6; 7; 8]%float 3%float).
  reflexivity.
Defined.

(** * More properties: matrix algebra in exact arithmetic *)

Section ExactAlgebra.
Context {T : Type} {ST : Scalar T} {EF : ExactField T}.
Local Abbreviation Mat := (@Mat T).
Local Abbreviation Vec := (@Vec T).

Add Field scalar_field_alg : ef_field.

(** *** Sums *)

Lemma sum_from_add n (f g : nat -> T) :
  sum_from zero n (fun k => f k [+] g k) = sum_from zero n f [+] sum_from zero n g.
Proof.
  induction n as [|n IH].
  - rewrite !sum_from_0. ring.
  - rewrite !sum_from_S, IH. ring.
Qed.

Lemma sum_from_scale_r n (f : nat -> T) (w : T) :
  sum_from zero n (fun k => f k [*] w) = sum_from zero n f [*] w.
Proof.
  induction n as [|n IH].
  - rewrite !sum_from_0. ring.
  - rewrite !sum_from_S, IH. ring.
Qed.

Lemma sum_from_scale_l n (f : nat -> T) (w : T) :
  sum_from zero n (fun k => w [*] f k) = w [*] sum_from zero n f.
Proof.
  induction n as [|n IH].
  - rewrite !sum_from_0. ring.
  - rewrite !sum_from_S, IH. ring.
Qed.

Lemma sum_from_swap n m (f : nat -> nat -> T) :
  sum_from zero n (fun i => sum_from zero m (fun j => f i j)) =
  sum_from zero m (fun j => sum_from zero n (fun i => f i j)).
Proof.
  induction n as [|n IH].
  - rewrite sum_from_0. symmetry. now apply sum_from_zero_terms.
  - rewrite sum_from_S, IH.
    rewrite <- sum_from_add. apply sum_from_ext.
    intros j Hj. now rewrite sum_from_S.
Qed.

Lemma sum_from_delta_l n (f : nat -> T) k :
  k < n -> sum_from zero n (fun j => delta k j [*] f j) = f k.
Proof.
  intros Hk. rewrite <- (sum_from_delta n f k Hk).
  apply sum_from_ext. intros j Hj. unfold delta.
  rewrite (Nat.eqb_sym k j). ring.
Qed.

(** A sum started from its first term. *)
Lemma sum_from_first n (f : nat -> T) :
  for_range 1 (S n) (fun i acc => acc [+] f i) (f 0) = sum_from zero (S n) f.
Proof.
  induction n as [|n IH].
  - unfold sum_from, for_range. simpl. ring.
  - rewrite for_range_S by lia. rewrite IH. now rewrite (sum_from_S zero (S n)).
Qed.

(** *** Elements of sums, differences and scalar multiples *)

Lemma at_mat_add N M (a b : Mat) r c :
  r < N -> c < M ->
  at_ N M (mat_add N M a b) r c = at_ N M a r c [+] at_ N M b r c.
Proof.
  intros Hr Hc. destruct (mat_add_spec N M a b) as [_ Hn].
  apply (at_of_nth N M _ (fun i => nth i a indet [+] nth i b indet) Hn r c Hr Hc).
Qed.

Lemma at_mat_sub N M (a b : Mat) r c :
  r < N -> c < M ->
  at_ N M (mat_sub N M a b) r c = at_ N M a r c [-] at_ N M b r c.
Proof.
  intros Hr Hc. destruct (mat_sub_spec N M a b) as [_ Hn].
  apply (at_of_nth N M _ (fun i => nth i a indet [-] nth i b indet) Hn r c Hr Hc).
Qed.

Lemma at_mat_neg N M (a : Mat) r c :
  r < N -> c < M -> at_ N M (mat_neg N M a) r c = [~] at_ N M a r c.
Proof.
  intros Hr Hc. destruct (mat_neg_spec N M a) as [_ Hn].
  apply (at_of_nth N M _ (fun i => [~] nth i a indet) Hn r c Hr Hc).
Qed.

Lemma at_mat_mul_scalar N M (a : Mat) (s : T) r c :
  r < N -> c < M -> at_ N M (mat_mul_scalar N M a s) r c = at_ N M a r c [*] s.
Proof.
  intros Hr Hc. destruct (mat_mul_scalar_spec N M a s) as [_ Hn].
  apply (at_of_nth N M _ (fun i => nth i a indet [*] s) Hn r c Hr Hc).
Qed.

Lemma at_mat_div_scalar N M (a : Mat) (s : T) r c :
  r < N -> c < M -> at_ N M (mat_div_scalar N M a s) r c = at_ N M a r c [/] s.
Proof.
  intros Hr Hc. destruct (mat_div_scalar_spec N M a s) as [_ Hn].
  apply (at_of_nth N M _ (fun i => nth i a indet [/] s) Hn r c Hr Hc).
Qed.

Lemma at_scalar_mul_mat N M (s : T) (a : Mat) r c :
  r < N -> c < M -> at_ N M (scalar_mul_mat N M s a) r c = s [*] at_ N M a r c.
Proof.
  intros Hr Hc. destruct (scalar_mul_mat_spec N M s a) as [_ Hn].
  apply (at_of_nth N M _ (fun i => s [*] nth i a indet) Hn r c Hr Hc).
Qed.

Lemma at_mat_mul N M K (a b : Mat) i j :
  i < N -> j < K ->
  at_ N K (mat_mul N M K a b) i j =
  sum_from zero M (fun k => at_ N M a i k [*] at_ M K b k j).
Proof. intros Hi Hj. now apply mat_mul_spec. Qed.

Lemma at_transpose N M (a : Mat) i j :
  i < N -> j < M -> at_ M N (transpose N M a) j i = at_ N M a i j.
Proof. intros Hi Hj. now apply transpose_spec. Qed.

(** *** The product *)

(** X12: in exact arithmetic the matrix product is associative, whatever
    the three shapes; the buffers need not even have the promised sizes. *)
Theorem mat_mul_associative :
  forall (N M K L : nat) (a b c : Mat),
    mat_mul N K L (mat_mul N M K a b) c = mat_mul N M L a (mat_mul M K L b c).
Proof.
  intros N M K L a b c.
  apply (mat_ext N L); try apply mat_mul_spec.
  intros i l Hi Hl. rewrite !at_mat_mul by assumption.
  rewrite (sum_from_ext zero K
             (fun k => at_ N K (mat_mul N M K a b) i k [*] at_ K L c k l)
             (fun k => sum_from zero M (fun j =>
                         at_ N M a i j [*] at_ M K b j k [*] at_ K L c k l))).
  2:{ intros k Hk. rewrite at_mat_mul by assumption.
      now rewrite sum_from_scale_r. }
  rewrite sum_from_swap. apply sum_from_ext. intros j Hj.
  rewrite at_mat_mul by assumption. rewrite <- sum_from_scale_l.
  apply sum_from_ext. intros k Hk. ring.
Qed.

(** X13: the matrix [identity()] is a unit of the product on both sides. *)
Theorem mat_mul_identity :
  forall (N M : nat) (a : Mat),
    wf N M a ->
    mat_mul N M M a (identity M M) = a /\
    mat_mul N N M (identity N N) a = a.
Proof.
  intros N M a Hwf. split; apply (mat_ext N M); try apply mat_mul_spec;
    try exact Hwf; intros i j Hi Hj; rewrite at_mat_mul by assumption.
  - rewrite (sum_from_ext zero M _ (fun k => at_ N M a i k [*] delta k j)).
    + now apply sum_from_delta.
    + intros k Hk. now rewrite at_identity.
  - rewrite (sum_from_ext zero N _ (fun k => delta i k [*] at_ N M a k j)).
    + now apply (sum_from_delta_l N (fun k => at_ N M a k j)).
    + intros k Hk. now rewrite at_identity.
Qed.

(** X14: the transpose of a product is the product of the transposes in the
    opposite order. *)
Theorem transpose_mat_mul :
  forall (N M K : nat) (a b : Mat),
    transpose N K (mat_mul N M K a b) =
    mat_mul K M N (transpose M K b) (transpose N M a).
Proof.
  intros N M K a b.
  apply (mat_ext K N); try apply transpose_spec; try apply mat_mul_spec.
  intros k i Hk Hi. rewrite at_transpose by assumption.
  rewrite !at_mat_mul by assumption.
  apply sum_from_ext. intros j Hj. rewrite !at_transpose by assumption. ring.
Qed.

(** X15: the product distributes over the sum on both sides, and a scalar
    factor moves out of a product. *)
Theorem mat_mul_distributes :
  forall (N M K : nat) (a a' b b' : Mat) (s : T),
    mat_mul N M K (mat_add N M a a') b =
      mat_add N K (mat_mul N M K a b) (mat_mul N M K a' b) /\
    mat_mul N M K a (mat_add M K b b') =
      mat_add N K (mat_mul N M K a b) (mat_mul N M K a b') /\
    mat_mul N M K (mat_mul_scalar N M a s) b =
      mat_mul_scalar N K (mat_mul N M K a b) s /\
    mat_mul N M K a (scalar_mul_mat M K s b) =
      scalar_mul_mat N K s (mat_mul N M K a b).
Proof.
  intros N M K a a' b b' s.
  repeat split; apply (mat_ext N K);
    try apply mat_mul_spec; try apply mat_add_spec;
    try apply mat_mul_scalar_spec; try apply scalar_mul_mat_spec;
    intros i j Hi Hj.
  - rewrite at_mat_add, !at_mat_mul by assumption. rewrite <- sum_from_add.
    apply sum_from_ext. intros k Hk. rewrite at_mat_add by assumption. ring.
  - rewrite at_mat_add, !at_mat_mul by assumption. rewrite <- sum_from_add.
    apply sum_from_ext. intros k Hk. rewrite at_mat_add by assumption. ring.
  - rewrite at_mat_mul_scalar, !at_mat_mul by assumption.
    rewrite <- sum_from_scale_r.
    apply sum_from_ext. intros k Hk. rewrite at_mat_mul_scalar by assumption. ring.
  - rewrite at_scalar_mul_mat, !at_mat_mul by assumption.
    rewrite <- sum_from_scale_l.
    apply sum_from_ext. intros k Hk. rewrite at_scalar_mul_mat by assumption. ring.
Qed.

(** *** Sums, differences and scalar multiples *)

(** X16: with [+], the unary [-] and the zero matrix, the matrices of a
    shape form a commutative group; [a - b] is [a + (-b)]; a scalar
    multiplies from either side with the same result, and dividing by [s] is
    multiplying by [1 / s]. *)
Theorem mat_add_group :
  forall (N M : nat) (a b c : Mat) (s : T),
    wf N M a -> s <> zero ->
    mat_add N M a b = mat_add N M b a /\
    mat_add N M (mat_add N M a b) c = mat_add N M a (mat_add N M b c) /\
    mat_add N M a (Mat_fill N M zero) = a /\
    mat_add N M a (mat_neg N M a) = Mat_fill N M zero /\
    mat_sub N M a b = mat_add N M a (mat_neg N M b) /\
    scalar_mul_mat N M s a = mat_mul_scalar N M a s /\
    mat_div_scalar N M a s = mat_mul_scalar N M a (one [/] s).
Proof.
  intros N M a b c s Hwf Hs.
  assert (Hz : forall r k, r < N -> k < M -> at_ N M (Mat_fill N M zero) r k = zero).
  { intros r k Hr Hk. destruct (diag_loops_at N M zero) as [_ Hd].
    unfold Mat_fill. rewrite Hd by assumption. now destruct (Nat.eqb r k). }
  repeat split; apply (mat_ext N M);
    try apply mat_add_spec; try apply mat_sub_spec; try apply Mat_fill_wf;
    try apply mat_mul_scalar_spec; try apply scalar_mul_mat_spec;
    try apply mat_div_scalar_spec; try exact Hwf;
    intros r k Hr Hk;
    rewrite ?at_mat_add, ?at_mat_sub, ?at_mat_neg, ?at_mat_add, ?at_mat_neg,
            ?at_scalar_mul_mat, ?at_mat_mul_scalar, ?at_mat_div_scalar, ?Hz
      by assumption;
    try ring.
  field. exact Hs.
Qed.

(** *** A matrix applied to a vector *)

Lemma accumulate_in_vec (res : Vec) i (z : T) n (f : nat -> T) :
  i < length res ->
  for_range 0 n (fun j result => upd i (vec_at result i [+] f j) result) (upd i z res)
  = upd i (sum_from z n f) res.
Proof.
  intros Hi. induction n as [|n IH].
  - reflexivity.
  - rewrite for_range_S by lia. rewrite IH, sum_from_S.
    rewrite upd_upd. unfold vec_at. now rewrite nth_upd_same.
Qed.

Lemma mat_mul_vec_spec N M (a : Mat) (v : Vec) :
  length (mat_mul_vec N M a v) = N /\
  forall i, i < N ->
    vec_at (mat_mul_vec N M a v) i =
    sum_from zero M (fun j => at_ N M a i j [*] vec_at v j).
Proof.
  pose (f := fun i => sum_from zero M (fun j => at_ N M a i j [*] vec_at v j)).
  assert (H : mat_mul_vec N M a v
              = for_range 0 N (fun i res => upd i (f i) res) (Vec_default N)).
  { unfold mat_mul_vec.
    apply (for_range_ext_inv (fun s : Vec => length s = N)).
    - apply Vec_default_length.
    - intros i s Hi Hs. cbv zeta. split; [| now rewrite upd_length].
      apply (accumulate_in_vec s i zero M
               (fun j => at_ N M a i j [*] vec_at v j)). lia. }
  rewrite H. unfold vec_at.
  apply (fill_buffer f indet N (Vec_default N)). apply Vec_default_length.
Qed.

(** X17: applying a product to a vector is applying the right factor, then
    the left one; the identity matrix leaves a vector as it is; and the
    product of a matrix and a vector is the product of the matrix and the
    column matrix of the vector. *)
Theorem mat_mul_vec_composes :
  forall (N M K : nat) (a b c : Mat) (v : Vec),
    length v = K ->
    mat_mul_vec N K (mat_mul N M K a b) v = mat_mul_vec N M a (mat_mul_vec M K b v) /\
    mat_mul_vec K K (identity K K) v = v /\
    to_matrix N (mat_mul_vec N K c v) = mat_mul N K 1 c (to_matrix K v).
Proof.
  intros N M K a b c v Hv. split; [| split].
  - destruct (mat_mul_vec_spec N K (mat_mul N M K a b) v) as [Hl1 H1].
    destruct (mat_mul_vec_spec N M a (mat_mul_vec M K b v)) as [Hl2 H2].
    destruct (mat_mul_vec_spec M K b v) as [Hl3 H3].
    apply (nth_ext_len _ _ indet); [now rewrite Hl1, Hl2 |].
    rewrite Hl1. intros i Hi.
    fold (vec_at (mat_mul_vec N K (mat_mul N M K a b) v) i).
    fold (vec_at (mat_mul_vec N M a (mat_mul_vec M K b v)) i).
    rewrite H1, H2 by assumption.
    rewrite (sum_from_ext zero K
               (fun k => at_ N K (mat_mul N M K a b) i k [*] vec_at v k)
               (fun k => sum_from zero M (fun j =>
                           at_ N M a i j [*] at_ M K b j k [*] vec_at v k))).
    2:{ intros k Hk. rewrite at_mat_mul by assumption.
        now rewrite sum_from_scale_r. }
    rewrite sum_from_swap. apply sum_from_ext. intros j Hj.
    rewrite H3 by assumption. rewrite <- sum_from_scale_l.
    apply sum_from_ext. intros k Hk. ring.
  - destruct (mat_mul_vec_spec K K (identity K K) v) as [Hl1 H1].
    apply (nth_ext_len _ _ indet); [now rewrite Hl1, Hv |].
    rewrite Hl1. intros i Hi.
    fold (vec_at (mat_mul_vec K K (identity K K) v) i).
    rewrite H1 by assumption.
    rewrite (sum_from_ext zero K _ (fun k => delta i k [*] vec_at v k)).
    + now apply (sum_from_delta_l K (vec_at v)).
    + intros k Hk. now rewrite at_identity.
  - unfold to_matrix.
    destruct (Mat_of_array_spec N 1 (mat_mul_vec N K c v)) as [Hw1 Hn1].
    destruct (Mat_of_array_spec K 1 v) as [Hw2 Hn2].
    destruct (mat_mul_vec_spec N K c v) as [Hl3 H3].
    apply (mat_ext N 1); [exact Hw1 | apply mat_mul_spec |].
    intros i j Hi Hj. assert (j = 0) by lia. subst j.
    rewrite at_mat_mul by assumption. unfold at_ at 1.
    rewrite Hn1 by lia. simpl.
    fold (vec_at (mat_mul_vec N K c v) i). rewrite H3 by assumption.
    apply sum_from_ext. intros k Hk. unfold at_ at 3.
    rewrite Hn2 by lia. reflexivity.
Qed.

(** *** The trace *)

Lemma trace_sum D (m : Mat) :
  trace (S D) m = sum_from zero (S D) (fun i => at_ (S D) (S D) m i i).
Proof.
  unfold trace. apply (sum_from_first D (fun i => at_ (S D) (S D) m i i)).
Qed.

(** X18: the trace is additive, and the trace of a product does not depend
    on the order of the two factors, which need not be square. *)
Theorem trace_mat_mul_commutes :
  forall (N M : nat) (a b a' : Mat),
    0 < N -> 0 < M ->
    trace N (mat_mul N M N a b) = trace M (mat_mul M N M b a) /\
    trace N (mat_add N N a a') = trace N a [+] trace N a'.
Proof.
  intros N M a b a' HN HM.
  destruct N as [|N]; [lia |]. destruct M as [|M]; [lia |].
  rewrite !trace_sum. split.
  - rewrite (sum_from_ext zero (S N) _
               (fun i => sum_from zero (S M) (fun k =>
                  at_ (S N) (S M) a i k [*] at_ (S M) (S N) b k i)))
      by (intros i Hi; now rewrite at_mat_mul).
    rewrite (sum_from_ext zero (S M) _
               (fun k => sum_from zero (S N) (fun i =>
                  at_ (S M) (S N) b k i [*] at_ (S N) (S M) a i k)))
      by (intros k Hk; now rewrite at_mat_mul).
    rewrite sum_from_swap. apply sum_from_ext. intros k Hk.
    apply sum_from_ext. intros i Hi. ring.
  - rewrite <- sum_from_add. apply sum_from_ext. intros i Hi.
    now rewrite at_mat_add.
Qed.

End ExactAlgebra.

(** *** Examples over the rationals *)

(** The rational number of an integer, and three small matrices, column by
    column: [[2, 1], [1, 1]] and [[1, 3], [2, 5]], a 3-by-3 matrix of
    determinant [-5] and a 4-by-4 matrix of determinant [2]. *)
Definition rat (n : Z) : Qc := Q2Qc (inject_Z n).
Definition rat_A2 : list Qc := map rat [2; 1; 1; 1]%Z.
Definition rat_B2 : list Qc := map rat [1; 2; 3; 5]%Z.
Definition rat_A3 : list Qc := map rat [0; 2; 1; 1; 1; 0; 3; 0; 1]%Z.
Definition rat_A4 : list Qc :=
  map rat [1; 3; 0; 2; 2; 4; 1; 0; 0; 0; 1; 0; 0; 1; 0; 1]%Z.
Definition rat_A23 : list Qc := map rat [1; 2; 3; 4; 5; 6]%Z.
Definition rat_B32 : list Qc := map rat [1; 0; 2; -1; 3; 1]%Z.

(** X12 at three rational matrices of the shapes 2-by-3, 3-by-2, 2-by-2. *)
Lemma mat_mul_associative_witness :
  mat_mul 2 2 2 (mat_mul 2 3 2 rat_A23 rat_B32) rat_A2
  = mat_mul 2 3 2 rat_A23 (mat_mul 3 2 2 rat_B32 rat_A2).
Proof.
  apply (@mat_mul_associative Qc Scalar_Qc ExactField_Qc 2 3 2 2 rat_A23 rat_B32 rat_A2).
Defined.

(** X13 at a rational 2-by-3 matrix. *)
Lemma mat_mul_identity_witness :
  mat_mul 2 3 3 rat_A23 (identity 3 3) = rat_A23 /\
  mat_mul 2 2 3 (identity 2 2) rat_A23 = rat_A23.
Proof.
  apply (@mat_mul_identity Qc Scalar_Qc ExactField_Qc 2 3 rat_A23). reflexivity.
Defined.

(** X14 at two rational matrices. *)
Lemma transpose_mat_mul_witness :
  transpose 2 2 (mat_mul 2 3 2 rat_A23 rat_B32)
  = mat_mul 2 3 2 (transpose 3 2 rat_B32) (transpose 2 3 rat_A23).
Proof.
  apply (@transpose_mat_mul Qc Scalar_Qc ExactField_Qc 2 3 2 rat_A23 rat_B32).
Defined.

(** X15 at rational 2-by-2 matrices and the scalar [3]. *)
Lemma mat_mul_distributes_witness :
  mat_mul 2 2 2 (mat_add 2 2 rat_A2 rat_B2) rat_A2 =
    mat_add 2 2 (mat_mul 2 2 2 rat_A2 rat_A2) (mat_mul 2 2 2 rat_B2 rat_A2) /\
  mat_mul 2 2 2 rat_A2 (mat_add 2 2 rat_A2 rat_B2) =
    mat_add 2 2 (mat_mul 2 2 2 rat_A2 rat_A2) (mat_mul 2 2 2 rat_A2 rat_B2) /\
  mat_mul 2 2 2 (mat_mul_scalar 2 2 rat_A2 (rat 3)) rat_A2 =
    mat_mul_scalar 2 2 (mat_mul 2 2 2 rat_A2 rat_A2) (rat 3) /\
  mat_mul 2 2 2 rat_A2 (scalar_mul_mat 2 2 (rat 3) rat_A2) =
    scalar_mul_mat 2 2 (rat 3) (mat_mul 2 2 2 rat_A2 rat_A2).
Proof.
  apply (@mat_mul_distributes Qc Scalar_Qc ExactField_Qc 2 2 2
           rat_A2 rat_B2 rat_A2 rat_B2 (rat 3)).
Defined.

(** X16 at rational 2-by-2 matrices and the scalar [3]. *)
Lemma mat_add_group_witness :
  mat_add 2 2 rat_A2 rat_B2 = mat_add 2 2 rat_B2 rat_A2 /\
  mat_add 2 2 (mat_add 2 2 rat_A2 rat_B2) rat_A2 =
    mat_add 2 2 rat_A2 (mat_add 2 2 rat_B2 rat_A2) /\
  mat_add 2 2 rat_A2 (Mat_fill 2 2 zero) = rat_A2 /\
  mat_add 2 2 rat_A2 (mat_neg 2 2 rat_A2) = Mat_fill 2 2 zero /\
  mat_sub 2 2 rat_A2 rat_B2 = mat_add 2 2 rat_A2 (mat_neg 2 2 rat_B2) /\
  scalar_mul_mat 2 2 (rat 3) rat_A2 = mat_mul_scalar 2 2 rat_A2 (rat 3) /\
  mat_div_scalar 2 2 rat_A2 (rat 3) = mat_mul_scalar 2 2 rat_A2 (one [/] rat 3).
Proof.
  apply (@mat_add_group Qc Scalar_Qc ExactField_Qc 2 2 rat_A2 rat_B2 rat_A2 (rat 3)).
  - reflexivity.
  - vm_compute. discriminate.
Defined.

(** X17 at rational matrices and the vector [(1, 2)]. *)
Lemma mat_mul_vec_composes_witness :
  mat_mul_vec 2 2 (mat_mul 2 3 2 rat_A23 rat_B32) (map rat [1; 2]%Z)
    = mat_mul_vec 2 3 rat_A23 (mat_mul_vec 3 2 rat_B32 (map rat [1; 2]%Z)) /\
  mat_mul_vec 2 2 (identity 2 2) (map rat [1; 2]%Z) = map rat [1; 2]%Z /\
  to_matrix 2 (mat_mul_vec 2 2 rat_A2 (map rat [1; 2]%Z))
    = mat_mul 2 2 1 rat_A2 (to_matrix 2 (map rat [1; 2]%Z)).
Proof.
  apply (@mat_mul_vec_composes Qc Scalar_Qc ExactField_Qc 2 3 2
           rat_A23 rat_B32 rat_A2 (map rat [1; 2]%Z)).
  reflexivity.
Defined.

(** X18 at rational matrices of the shapes 2-by-3 and 3-by-2. *)
Lemma trace_mat_mul_commutes_witness :
  trace 2 (mat_mul 2 3 2 rat_A23 rat_B32) = trace 3 (mat_mul 3 2 3 rat_B32 rat_A23) /\
  trace 2 (mat_add 2 2 rat_A23 rat_A2) = trace 2 rat_A23 [+] trace 2 rat_A2.
Proof.
  apply (@trace_mat_mul_commutes Qc Scalar_Qc ExactField_Qc 2 3 rat_A23 rat_B32 rat_A2);
    lia.
Defined.

(** * More properties: the closed forms in exact arithmetic *)

(** Unfolding the loops over explicit buffers, leaving the scalar
    operations as they are. *)
Ltac compute_buffers :=
  cbv beta iota zeta delta
    [mat_mul mul_Mat3 mul_Mat4 identity transpose Mat_fill
     for_range for_loop set_ at_ upd nth
     Mat_default Vec_default repeat mat_scale_assign mat_add mat_mul_scalar
     inverse_Mat2 inverse_Mat3 inverse_Mat4
     determinant_Mat2 determinant_Mat3 determinant_Mat4
     Mat2_rows Mat3_rows Mat4_rows Mat4_of_Mat3 Mat3_of_Mat4 Mat_of_array tensor
     translation_Mat4 translation_Mat4_Vec scale_Mat4 scale_Mat4_xyzw
     scale_Mat3 scale_Mat3_xyz scale_Mat2 scale_Mat2_xy
     mat4_mul_vec4 mat4_mul_vec3 mat_mul_vec mat3_mul_vec2
     vec_append vec_div vec_at vec_first3 firstn map app
     Nat.mul Nat.add Nat.sub Nat.eqb Init.Nat.mul Init.Nat.add Init.Nat.sub] in *.

(** Two explicit buffers are equal when their elements are. *)
Ltac by_elements :=
  repeat match goal with
         | |- _ :: _ = _ :: _ => f_equal
         end;
  try reflexivity.

Section ClosedForms.
Context {T : Type} {ST : Scalar T} {EF : ExactField T}.
Local Abbreviation Mat := (@Mat T).
Local Abbreviation Vec := (@Vec T).

Add Field scalar_field_closed : ef_field.

(** X19: in exact arithmetic the closed-form inverses of [Mat2], [Mat3] and
    [Mat4] are inverses on both sides of every matrix whose closed-form
    determinant is not zero. *)
Theorem closed_form_inverse_two_sided :
  forall m2 m3 m4 : Mat,
    wf 2 2 m2 -> determinant_Mat2 m2 <> zero ->
    wf 3 3 m3 -> determinant_Mat3 m3 <> zero ->
    wf 4 4 m4 -> determinant_Mat4 m4 <> zero ->
    (mat_mul 2 2 2 m2 (inverse_Mat2 m2) = identity 2 2 /\
     mat_mul 2 2 2 (inverse_Mat2 m2) m2 = identity 2 2) /\
    (mat_mul 3 3 3 m3 (inverse_Mat3 m3) = identity 3 3 /\
     mat_mul 3 3 3 (inverse_Mat3 m3) m3 = identity 3 3) /\
    (mat_mul 4 4 4 m4 (inverse_Mat4 m4) = identity 4 4 /\
     mat_mul 4 4 4 (inverse_Mat4 m4) m4 = identity 4 4).
Proof.
  intros m2 m3 m4 Hw2 Hd2 Hw3 Hd3 Hw4 Hd4. unfold wf in *.
  destruct m2 as [|a0 [|a1 [|a2 [|a3 [|]]]]]; try discriminate.
  destruct m3 as [|b0 [|b1 [|b2 [|b3 [|b4 [|b5 [|b6 [|b7 [|b8 [|]]]]]]]]]];
    try discriminate.
  destruct m4 as [|c0 [|c1 [|c2 [|c3 [|c4 [|c5 [|c6 [|c7 [|c8 [|c9 [|c10 [|c11
                    [|c12 [|c13 [|c14 [|c15 [|]]]]]]]]]]]]]]]]]; try discriminate.
  clear Hw2 Hw3 Hw4. compute_buffers.
  split; [| split]; split; by_elements; field; assumption.
Qed.

(** X20: in exact arithmetic the closed-form determinants are
    multiplicative, do not change under transposition, and are [1] on the
    identity matrix. *)
Theorem closed_form_determinant_multiplicative :
  forall a2 b2 a3 b3 a4 b4 : Mat,
    wf 2 2 a2 -> wf 2 2 b2 -> wf 3 3 a3 -> wf 3 3 b3 -> wf 4 4 a4 -> wf 4 4 b4 ->
    (determinant_Mat2 (mat_mul 2 2 2 a2 b2) = determinant_Mat2 a2 [*] determinant_Mat2 b2 /\
     determinant_Mat3 (mat_mul 3 3 3 a3 b3) = determinant_Mat3 a3 [*] determinant_Mat3 b3 /\
     determinant_Mat4 (mat_mul 4 4 4 a4 b4) = determinant_Mat4 a4 [*] determinant_Mat4 b4) /\
    (determinant_Mat2 (transpose 2 2 a2) = determinant_Mat2 a2 /\
     determinant_Mat3 (transpose 3 3 a3) = determinant_Mat3 a3 /\
     determinant_Mat4 (transpose 4 4 a4) = determinant_Mat4 a4) /\
    (determinant_Mat2 (identity 2 2) = one /\
     determinant_Mat3 (identity 3 3) = one /\
     determinant_Mat4 (identity 4 4) = one).
Proof.
  intros a2 b2 a3 b3 a4 b4 Ha2 Hb2 Ha3 Hb3 Ha4 Hb4. unfold wf in *.
  destruct a2 as [|? [|? [|? [|? [|]]]]]; try discriminate.
  destruct b2 as [|? [|? [|? [|? [|]]]]]; try discriminate.
  destruct a3 as [|? [|? [|? [|? [|? [|? [|? [|? [|? [|]]]]]]]]]]; try discriminate.
  destruct b3 as [|? [|? [|? [|? [|? [|? [|? [|? [|? [|]]]]]]]]]]; try discriminate.
  destruct a4 as [|? [|? [|? [|? [|? [|? [|? [|? [|? [|? [|? [|?
                    [|? [|? [|? [|? [|]]]]]]]]]]]]]]]]]; try discriminate.
  destruct b4 as [|? [|? [|? [|? [|? [|? [|? [|? [|? [|? [|? [|?
                    [|? [|? [|? [|? [|]]]]]]]]]]]]]]]]]; try discriminate.
  clear Ha2 Hb2 Ha3 Hb3 Ha4 Hb4. compute_buffers.
  repeat split; ring.
Qed.

(** X21: a [Mat4] applied to a 3-component point through the homogeneous
    operator: [translation(x, y, z)] adds [(x, y, z)]; [scale(s)] multiplies
    by [s]; the constructor [Mat4(s)], whose last diagonal element is [s]
    too, leaves the point where it is; and the product of two translations
    is the translation by the sum. *)
Theorem Mat4_transforms_points :
  forall x y z x' y' z' s a b c : T,
    s <> zero ->
    mat4_mul_vec3 (translation_Mat4 x y z) [a; b; c] = [a [+] x; b [+] y; c [+] z] /\
    mat4_mul_vec3 (scale_Mat4 s) [a; b; c] = [s [*] a; s [*] b; s [*] c] /\
    mat4_mul_vec3 (Mat_fill 4 4 s) [a; b; c] = [a; b; c] /\
    mul_Mat4 (translation_Mat4 x y z) (translation_Mat4 x' y' z') =
      translation_Mat4 (x [+] x') (y [+] y') (z [+] z') /\
    translation_Mat4_Vec [x; y; z] = translation_Mat4 x y z.
Proof.
  intros x y z x' y' z' s a b c Hs.
  assert (H1 : (one : T) <> zero).
  { destruct ef_field as [_ H _ _]. exact H. }
  compute_buffers.
  repeat split; by_elements; try (field; assumption); ring.
Qed.

End ClosedForms.

(** X19 at three rational matrices. *)
Lemma closed_form_inverse_two_sided_witness :
  (mat_mul 2 2 2 rat_A2 (inverse_Mat2 rat_A2) = identity 2 2 /\
   mat_mul 2 2 2 (inverse_Mat2 rat_A2) rat_A2 = identity 2 2) /\
  (mat_mul 3 3 3 rat_A3 (inverse_Mat3 rat_A3) = identity 3 3 /\
   mat_mul 3 3 3 (inverse_Mat3 rat_A3) rat_A3 = identity 3 3) /\
  (mat_mul 4 4 4 rat_A4 (inverse_Mat4 rat_A4) = identity 4 4 /\
   mat_mul 4 4 4 (inverse_Mat4 rat_A4) rat_A4 = identity 4 4).
Proof.
  apply (@closed_form_inverse_two_sided Qc Scalar_Qc ExactField_Qc
           rat_A2 rat_A3 rat_A4);
    try reflexivity; vm_compute; discriminate.
Defined.

(** X20 at rational matrices. *)
Lemma closed_form_determinant_multiplicative_witness :
  (determinant_Mat2 (mat_mul 2 2 2 rat_A2 rat_B2)
     = determinant_Mat2 rat_A2 [*] determinant_Mat2 rat_B2 /\
   determinant_Mat3 (mat_mul 3 3 3 rat_A3 rat_A3)
     = determinant_Mat3 rat_A3 [*] determinant_Mat3 rat_A3 /\
   determinant_Mat4 (mat_mul 4 4 4 rat_A4 rat_A4)
     = determinant_Mat4 rat_A4 [*] determinant_Mat4 rat_A4) /\
  (determinant_Mat2 (transpose 2 2 rat_A2) = determinant_Mat2 rat_A2 /\
   determinant_Mat3 (transpose 3 3 rat_A3) = determinant_Mat3 rat_A3 /\
   determinant_Mat4 (transpose 4 4 rat_A4) = determinant_Mat4 rat_A4) /\
  (determinant_Mat2 (identity 2 2) = (one : Qc) /\
   determinant_Mat3 (identity 3 3) = (one : Qc) /\
   determinant_Mat4 (identity 4 4) = (one : Qc)).
Proof.
  apply (@closed_form_determinant_multiplicative Qc Scalar_Qc ExactField_Qc
           rat_A2 rat_B2 rat_A3 rat_A3 rat_A4 rat_A4); reflexivity.
Defined.

(** X21 at a rational point. *)
Lemma Mat4_transforms_points_witness :
  mat4_mul_vec3 (translation_Mat4 (rat 1) (rat 2) (rat 3)) [rat 4; rat 5; rat 6]
    = [rat 4 [+] rat 1; rat 5 [+] rat 2; rat 6 [+] rat 3] /\
  mat4_mul_vec3 (scale_Mat4 (rat 2)) [rat 4; rat 5; rat 6]
    = [rat 2 [*] rat 4; rat 2 [*] rat 5; rat 2 [*] rat 6] /\
  mat4_mul_vec3 (Mat_fill 4 4 (rat 2)) [rat 4; rat 5; rat 6] = [rat 4; rat 5; rat 6] /\
  mul_Mat4 (translation_Mat4 (rat 1) (rat 2) (rat 3))
           (translation_Mat4 (rat 7) (rat 8) (rat 9)) =
    translation_Mat4 (rat 1 [+] rat 7) (rat 2 [+] rat 8) (rat 3 [+] rat 9) /\
  translation_Mat4_Vec [rat 1; rat 2; rat 3] = translation_Mat4 (rat 1) (rat 2) (rat 3).
Proof.
  apply (@Mat4_transforms_points Qc Scalar_Qc ExactField_Qc
           (rat 1) (rat 2) (rat 3) (rat 7) (rat 8) (rat 9) (rat 2)
           (rat 4) (rat 5) (rat 6)).
  vm_compute. discriminate.
Defined.

(** * More properties: rotations *)

From Stdlib Require Import RNsatz.
Close Scope R_scope.

(** The elements of the matrices below are polynomials in the sines and
    cosines; the loops are unfolded and the real operations exposed. *)
Ltac compute_rotations :=
  cbv beta iota zeta delta
    [rotation_Mat3 rotation_Mat4 rot_x rot_y rot_z rot4_x rot4_y rot4_z
     rotation_Mat2 rotation_Mat3_axis rotation_Mat4_axis Mat3_of_Quat Mat4_of_srt two
     qx qy qz qw fst snd
     mat_mul mul_Mat3 mul_Mat4 identity transpose Mat_fill trace
     for_range for_loop set_ at_ upd nth
     Mat_default Vec_default repeat mat_scale_assign mat_add mat_mul_scalar
     inverse_Mat2 determinant_Mat2 determinant_Mat3 determinant_Mat4
     Mat2_rows Mat3_rows Mat4_rows Mat4_of_Mat3 Mat3_of_Mat4 Mat3_of_Mat
     Mat_of_array tensor mat_mul_vec vec_at
     translation_Mat4 translation_Mat4_Vec scale_Mat4_xyzw
     Nat.mul Nat.add Nat.sub Nat.eqb Init.Nat.mul Init.Nat.add Init.Nat.sub
     zero one add sub mul div neg indet Scalar_R scos ssin TrigOp_R] in *.

(** X22: over the reals, whatever the three angles and the order argument
    (valid or not), the matrix that [Mat3::rotation(x, y, z, order)] returns
    is a rotation: its transpose is its inverse on both sides and its
    determinant is [1]. *)
Theorem rotation_Mat3_is_rotation :
  forall (x y z : R) (order : Z),
    let Rm := fst (rotation_Mat3 x y z order) in
    wf 3 3 Rm /\
    mat_mul 3 3 3 Rm (transpose 3 3 Rm) = identity 3 3 /\
    mat_mul 3 3 3 (transpose 3 3 Rm) Rm = identity 3 3 /\
    determinant_Mat3 Rm = 1%R.
Proof.
  intros x y z order Rm. subst Rm.
  pose proof (sin2_cos2 x) as Hx. pose proof (sin2_cos2 y) as Hy.
  pose proof (sin2_cos2 z) as Hz. unfold Rsqr in *.
  unfold rotation_Mat3.
  destruct (Z.eqb order 123); [| destruct (Z.eqb order 132);
    [| destruct (Z.eqb order 213); [| destruct (Z.eqb order 231);
      [| destruct (Z.eqb order 312); [| destruct (Z.eqb order 321)]]]]];
    compute_rotations;
    generalize dependent (cos x); generalize dependent (sin x);
    generalize dependent (cos y); generalize dependent (sin y);
    generalize dependent (cos z); generalize dependent (sin z);
    intros sz cz Hz sy cy Hy sx cx Hx;
    (split; [reflexivity |]); repeat split; by_elements; nsatz.
Qed.

(** X23: over the reals, [Mat2::rotation(angle)] is a rotation (its
    transpose is its inverse, its determinant is [1]); rotating by [a] and
    then by [b] is rotating by [a + b]; the angle [0] gives the identity; and
    the closed-form inverse of the rotation by [a] is the rotation by [-a]. *)
Theorem rotation_Mat2_is_rotation :
  forall a b : R,
    mat_mul 2 2 2 (rotation_Mat2 a) (transpose 2 2 (rotation_Mat2 a)) = identity 2 2 /\
    determinant_Mat2 (rotation_Mat2 a) = 1%R /\
    mat_mul 2 2 2 (rotation_Mat2 b) (rotation_Mat2 a) = rotation_Mat2 (a + b)%R /\
    rotation_Mat2 0%R = identity 2 2 /\
    inverse_Mat2 (rotation_Mat2 a) = rotation_Mat2 (- a)%R.
Proof.
  intros a b.
  pose proof (sin2_cos2 a) as Ha. unfold Rsqr in Ha.
  assert (Hinv : (1 / (cos a * cos a - - sin a * sin a) = 1)%R).
  { replace (cos a * cos a - - sin a * sin a)%R with 1%R by lra. lra. }
  compute_rotations. rewrite Hinv.
  rewrite cos_plus, sin_plus, cos_0, sin_0, cos_neg, sin_neg.
  repeat split; by_elements; lra.
Qed.

(** X25: over the reals, for an axis of length [1],
    [Mat3::rotation(axis, angle)] is a rotation that leaves the axis where
    it is, and its trace is [1 + 2 cos(angle)]; about the three coordinate
    axes it is the matrices [rx], [ry], [rz] of the rotation from Euler
    angles. *)
Theorem rotation_Mat3_axis_is_rotation :
  forall a0 a1 a2 angle : R,
    (a0 * a0 + a1 * a1 + a2 * a2 = 1)%R ->
    let Rm := rotation_Mat3_axis [a0; a1; a2] angle in
    (mat_mul 3 3 3 Rm (transpose 3 3 Rm) = identity 3 3 /\
     mat_mul 3 3 3 (transpose 3 3 Rm) Rm = identity 3 3 /\
     determinant_Mat3 Rm = 1%R) /\
    mat_mul_vec 3 3 Rm [a0; a1; a2] = [a0; a1; a2] /\
    trace 3 Rm = (1 + 2 * cos angle)%R /\
    (rotation_Mat3_axis [1; 0; 0]%R angle = rot_x angle /\
     rotation_Mat3_axis [0; 1; 0]%R angle = rot_y angle /\
     rotation_Mat3_axis [0; 0; 1]%R angle = rot_z angle).
Proof.
  intros a0 a1 a2 angle Ha Rm. subst Rm.
  pose proof (sin2_cos2 angle) as Hc. unfold Rsqr in Hc.
  compute_rotations.
  generalize dependent (cos angle). generalize dependent (sin angle).
  intros s c Hc.
  repeat split; by_elements; try nsatz; lra.
Qed.

(** X26: over the reals, the matrix of a quaternion of length [1] (the
    constructor [Mat3(Quat)] and [Mat3::rotation(Quat)] make the same
    assignments) is a rotation; a quaternion and its opposite give the same
    matrix; and the quaternion [(0, 0, 0, 1)] gives the identity. *)
Theorem Mat3_of_Quat_is_rotation :
  forall x y z w : R,
    (x * x + y * y + z * z + w * w = 1)%R ->
    let Rm := Mat3_of_Quat (mk_Quat x y z w) in
    mat_mul 3 3 3 Rm (transpose 3 3 Rm) = identity 3 3 /\
    mat_mul 3 3 3 (transpose 3 3 Rm) Rm = identity 3 3 /\
    determinant_Mat3 Rm = 1%R /\
    Mat3_of_Quat (mk_Quat (- x) (- y) (- z) (- w))%R = Rm /\
    Mat3_of_Quat (mk_Quat 0 0 0 1)%R = identity 3 3.
Proof.
  intros x y z w Hq Rm. subst Rm.
  compute_rotations.
  repeat split; by_elements; try nsatz; lra.
Qed.

(** X25 at the axis [(0, 0, 1)] and the angle [1]. *)
Lemma rotation_Mat3_axis_is_rotation_witness :
  (mat_mul 3 3 3 (rotation_Mat3_axis [0; 0; 1]%R 1%R)
     (transpose 3 3 (rotation_Mat3_axis [0; 0; 1]%R 1%R)) = identity 3 3 /\
   mat_mul 3 3 3 (transpose 3 3 (rotation_Mat3_axis [0; 0; 1]%R 1%R))
     (rotation_Mat3_axis [0; 0; 1]%R 1%R) = identity 3 3 /\
   determinant_Mat3 (rotation_Mat3_axis [0; 0; 1]%R 1%R) = 1%R) /\
  mat_mul_vec 3 3 (rotation_Mat3_axis [0; 0; 1]%R 1%R) [0; 0; 1]%R = [0; 0; 1]%R /\
  trace 3 (rotation_Mat3_axis [0; 0; 1]%R 1%R) = (1 + 2 * cos 1)%R /\
  (rotation_Mat3_axis [1; 0; 0]%R 1%R = rot_x 1%R /\
   rotation_Mat3_axis [0; 1; 0]%R 1%R = rot_y 1%R /\
   rotation_Mat3_axis [0; 0; 1]%R 1%R = rot_z 1%R).
Proof.
  apply (rotation_Mat3_axis_is_rotation 0%R 0%R 1%R 1%R). lra.
Defined.

(** X26 at the quaternion [(0, 0, 1, 0)]. *)
Lemma Mat3_of_Quat_is_rotation_witness :
  mat_mul 3 3 3 (Mat3_of_Quat (mk_Quat 0 0 1 0)%R)
    (transpose 3 3 (Mat3_of_Quat (mk_Quat 0 0 1 0)%R)) = identity 3 3 /\
  mat_mul 3 3 3 (transpose 3 3 (Mat3_of_Quat (mk_Quat 0 0 1 0)%R))
    (Mat3_of_Quat (mk_Quat 0 0 1 0)%R) = identity 3 3 /\
  determinant_Mat3 (Mat3_of_Quat (mk_Quat 0 0 1 0)%R) = 1%R /\
  Mat3_of_Quat (mk_Quat (- 0) (- 0) (- 1) (- 0))%R = Mat3_of_Quat (mk_Quat 0 0 1 0)%R /\
  Mat3_of_Quat (mk_Quat 0 0 0 1)%R = identity 3 3.
Proof.
  apply (Mat3_of_Quat_is_rotation 0%R 0%R 1%R 0%R). lra.
Defined.

Section RotationsExact.
Context {T : Type} {ST : Scalar T} {EF : ExactField T} {TR : TrigOp T}.
Local Abbreviation Mat := (@Mat T).
Local Abbreviation Vec := (@Vec T).

Add Field scalar_field_rot : ef_field.

Ltac compute_exact :=
  cbv beta iota zeta delta
    [rotation_Mat3 rotation_Mat4 rot_x rot_y rot_z rot4_x rot4_y rot4_z
     Mat3_of_Quat Mat4_of_srt two qx qy qz qw fst snd
     mat_mul mul_Mat3 mul_Mat4 identity
     for_range for_loop set_ at_ upd nth Mat_default Vec_default repeat
     Mat2_rows Mat3_rows Mat4_rows Mat4_of_Mat3 vec_at
     translation_Mat4 translation_Mat4_Vec scale_Mat4_xyzw
     Nat.mul Nat.add Nat.sub Nat.eqb Init.Nat.mul Init.Nat.add Init.Nat.sub] in *.

(** X24: in exact arithmetic, [Mat4::rotation(x, y, z, order)] is the
    4-by-4 matrix that the constructor [Mat4(Mat3)] builds from
    [Mat3::rotation(x, y, z, order)], with the same message in the log,
    whatever the order argument. *)
Theorem rotation_Mat4_embeds_Mat3 :
  forall (x y z : T) (order : Z),
    rotation_Mat4 x y z order =
    (Mat4_of_Mat3 (fst (rotation_Mat3 x y z order)), snd (rotation_Mat3 x y z order)).
Proof.
  intros x y z order. unfold rotation_Mat4, rotation_Mat3.
  destruct (Z.eqb order 123); [| destruct (Z.eqb order 132);
    [| destruct (Z.eqb order 213); [| destruct (Z.eqb order 231);
      [| destruct (Z.eqb order 312); [| destruct (Z.eqb order 321)]]]]];
    compute_exact; f_equal; by_elements; ring.
Qed.

(** X27: in exact arithmetic, the constructor [Mat4(s, rot, t)] builds the
    product of the translation by [t], the matrix of the quaternion [rot]
    and the scale by [s], in this order. *)
Theorem Mat4_of_srt_composes :
  forall (s0 s1 s2 t0 t1 t2 : T) (rot : @Quat T),
    Mat4_of_srt [s0; s1; s2] rot [t0; t1; t2] =
    mul_Mat4
      (mul_Mat4 (translation_Mat4 t0 t1 t2) (Mat4_of_Mat3 (Mat3_of_Quat rot)))
      (scale_Mat4_xyzw s0 s1 s2 one).
Proof.
  intros s0 s1 s2 t0 t1 t2 [x y z w].
  compute_exact. by_elements; ring.
Qed.

End RotationsExact.

(** X24 at the angles [1], [2], [3] and the order [312], over the reals. *)
Lemma rotation_Mat4_embeds_Mat3_witness :
  rotation_Mat4 1%R 2%R 3%R 312%Z =
  (Mat4_of_Mat3 (fst (rotation_Mat3 1%R 2%R 3%R 312%Z)),
   snd (rotation_Mat3 1%R 2%R 3%R 312%Z)).
Proof.
  apply (@rotation_Mat4_embeds_Mat3 R Scalar_R ExactField_R TrigOp_R 1%R 2%R 3%R 312%Z).
Defined.

(** X27 at rational scales, a rational quaternion and a rational
    translation. *)
Lemma Mat4_of_srt_composes_witness :
  Mat4_of_srt [rat 2; rat 3; rat 4] (mk_Quat (rat 0) (rat 0) (rat 1) (rat 0))
              [rat 5; rat 6; rat 7] =
  mul_Mat4
    (mul_Mat4 (translation_Mat4 (rat 5) (rat 6) (rat 7))
              (Mat4_of_Mat3 (Mat3_of_Quat (mk_Quat (rat 0) (rat 0) (rat 1) (rat 0)))))
    (scale_Mat4_xyzw (rat 2) (rat 3) (rat 4) one).
Proof.
  apply (@Mat4_of_srt_composes Qc Scalar_Qc ExactField_Qc
           (rat 2) (rat 3) (rat 4) (rat 5) (rat 6) (rat 7)
           (mk_Quat (rat 0) (rat 0) (rat 1) (rat 0))).
Defined.

(** * More properties: the Cholesky solver in exact arithmetic *)

Section CholeskySolve.
Context {T : Type} {ST : Scalar T} {EF : ExactField T}.
Local Abbreviation Mat := (@Mat T).
Local Abbreviation Vec := (@Vec T).

Add Field scalar_field_chol : ef_field.

(** *** Sums with zero terms *)

(** A sum whose terms after the index [j] are zero. *)
Lemma sum_from_until n (f : nat -> T) j :
  j < n -> (forall i, j < i < n -> f i = zero) ->
  sum_from zero n f = sum_from zero j f [+] f j.
Proof.
  induction n as [|n IH]; intros Hj Hz; [lia |].
  rewrite sum_from_S. destruct (Nat.eq_dec j n) as [->|Hne]; [reflexivity |].
  rewrite IH by (try lia; intros i Hi; apply Hz; lia).
  rewrite (Hz n) by lia. ring.
Qed.

(** A sum whose terms before the index [j] are zero. *)
Lemma sum_from_after n (f : nat -> T) j :
  j < n -> (forall i, i < j -> f i = zero) ->
  sum_from zero n f =
  f j [+] sum_from zero n (fun i => if Nat.ltb j i then f i else zero).
Proof.
  induction n as [|n IH]; intros Hj Hz; [lia |].
  rewrite !sum_from_S. destruct (Nat.eq_dec j n) as [->|Hne].
  - rewrite Nat.ltb_irrefl.
    rewrite (sum_from_zero_terms n f) by (intros; apply Hz; lia).
    rewrite (sum_from_zero_terms n (fun i => if Nat.ltb n i then f i else zero)).
    + ring.
    + intros k Hk. destruct (Nat.ltb_spec n k); [lia | reflexivity].
  - rewrite IH by (try lia; assumption).
    destruct (Nat.ltb_spec j n); [ring | lia].
Qed.

(** *** The two inner loops *)

Lemma vec_at_upd_same (x : Vec) k (v : T) :
  k < length x -> vec_at (upd k v x) k = v.
Proof. intros Hk. unfold vec_at. now apply nth_upd_same. Qed.

Lemma vec_at_upd_other (x : Vec) k i (v : T) :
  i <> k -> vec_at (upd k v x) i = vec_at x i.
Proof. intros Hk. unfold vec_at. apply nth_upd_other. lia. Qed.

(** [for (i = 0; i < n; ++i) x[k] -= x[i] * c(i)], for [n <= k]. *)
Lemma subtract_below (x : Vec) k n (c : nat -> T) :
  k < length x -> n <= k ->
  for_range 0 n (fun i x => upd k (vec_at x k [-] vec_at x i [*] c i) x) x
  = upd k (vec_at x k [-] sum_from zero n (fun i => vec_at x i [*] c i)) x.
Proof.
  intros Hk. induction n as [|n IH]; intros Hn.
  - rewrite for_range_nil by lia. rewrite sum_from_0.
    replace (vec_at x k [-] zero) with (vec_at x k) by ring.
    unfold vec_at. now rewrite upd_nth_same.
  - rewrite for_range_S by lia. rewrite IH by lia. rewrite sum_from_S.
    rewrite upd_upd. unfold vec_at.
    rewrite nth_upd_same by assumption.
    rewrite nth_upd_other by lia.
    f_equal. ring.
Qed.

(** [for (i = k + 1; i < hi; ++i) x[k] -= x[i] * c(i)]. *)
Lemma subtract_above (x : Vec) k hi (c : nat -> T) :
  k < length x ->
  for_range (k + 1) hi (fun i x => upd k (vec_at x k [-] vec_at x i [*] c i) x) x
  = upd k (vec_at x k [-]
           sum_from zero hi (fun i => if Nat.ltb k i then vec_at x i [*] c i else zero)) x.
Proof.
  intros Hk. induction hi as [|hi IH].
  - rewrite for_range_nil by lia. rewrite sum_from_0.
    replace (vec_at x k [-] zero) with (vec_at x k) by ring.
    unfold vec_at. now rewrite upd_nth_same.
  - destruct (Nat.le_gt_cases (k + 1) hi) as [Hle|Hgt].
    + rewrite for_range_S by lia. rewrite IH. rewrite sum_from_S.
      rewrite upd_upd. unfold vec_at.
      rewrite nth_upd_same by assumption.
      rewrite nth_upd_other by lia.
      destruct (Nat.ltb_spec k hi); [| lia]. f_equal. ring.
    + rewrite for_range_nil by lia.
      rewrite sum_from_zero_terms.
      * replace (vec_at x k [-] zero) with (vec_at x k) by ring.
        unfold vec_at. now rewrite upd_nth_same.
      * intros i Hi. destruct (Nat.ltb_spec k i); [lia | reflexivity].
Qed.

(** *** The two substitutions *)

(** The forward substitution of [cholesky_solve]. *)
Definition forward_substitution (N : nat) (L : Mat) (b : Vec) : Vec :=
  for_range 0 N (fun k x =>
    let x := for_range 0 k (fun i x =>
      upd k (vec_at x k [-] vec_at x i [*] at_ N N L k i) x) x in
    upd k (vec_at x k [/] at_ N N L k k) x) b.

Lemma forward_substitution_spec N (L : Mat) (b : Vec) :
  length b = N ->
  (forall k, k < N -> at_ N N L k k <> zero) ->
  let y := forward_substitution N L b in
  length y = N /\
  forall j, j < N ->
    sum_from zero j (fun i => vec_at y i [*] at_ N N L j i) [+]
    vec_at y j [*] at_ N N L j j = vec_at b j.
Proof.
  intros Hb Hd y. subst y. unfold forward_substitution.
  pose (P := fun (k : nat) (x : Vec) =>
               length x = N /\
               (forall j, j < k ->
                  sum_from zero j (fun i => vec_at x i [*] at_ N N L j i) [+]
                  vec_at x j [*] at_ N N L j j = vec_at b j) /\
               (forall j, k <= j -> vec_at x j = vec_at b j)).
  assert (H : P N (for_range 0 N (fun k x =>
                let x := for_range 0 k (fun i x =>
                  upd k (vec_at x k [-] vec_at x i [*] at_ N N L k i) x) x in
                upd k (vec_at x k [/] at_ N N L k k) x) b)).
  { apply (for_range_ind P); unfold P; [lia | |].
    - split; [exact Hb |]. split; [intros; lia | reflexivity].
    - intros k x Hk (Hl & Hlo & Hhi). cbv beta zeta.
      rewrite !(subtract_below x k k (fun i => at_ N N L k i)) by lia.
      rewrite !upd_upd. rewrite !vec_at_upd_same by lia.
      set (v := (vec_at x k [-] sum_from zero k (fun i => vec_at x i [*] at_ N N L k i))
                [/] at_ N N L k k).
      assert (Hsame : forall i, i <> k -> vec_at (upd k v x) i = vec_at x i).
      { intros i Hi. now apply vec_at_upd_other. }
      split; [now rewrite upd_length |]. split.
      + intros j Hj. destruct (Nat.eq_dec j k) as [->|Hne].
        * rewrite (sum_from_ext zero k _ (fun i => vec_at x i [*] at_ N N L k i))
            by (intros i Hi; rewrite Hsame by lia; reflexivity).
          rewrite vec_at_upd_same by lia.
          rewrite <- (Hhi k) by lia. unfold v. field. apply Hd. lia.
        * rewrite (sum_from_ext zero j _ (fun i => vec_at x i [*] at_ N N L j i))
            by (intros i Hi; rewrite Hsame by lia; reflexivity).
          rewrite Hsame by lia. apply Hlo. lia.
      + intros j Hj. rewrite Hsame by lia. apply Hhi. lia. }
  destruct H as (Hl & Hlo & _). split; [exact Hl | exact Hlo].
Qed.

(** The backward substitution of [cholesky_solve]. *)
Definition backward_substitution (N : nat) (L : Mat) (y : Vec) : Vec :=
  for_down N (fun k x =>
    let x := for_range (k + 1) N (fun i x =>
      upd k (vec_at x k [-] vec_at x i [*] at_ N N L i k) x) x in
    upd k (vec_at x k [/] at_ N N L k k) x) y.

Lemma backward_substitution_spec N (L : Mat) (y : Vec) :
  length y = N ->
  (forall k, k < N -> at_ N N L k k <> zero) ->
  let x := backward_substitution N L y in
  length x = N /\
  forall j, j < N ->
    vec_at x j [*] at_ N N L j j [+]
    sum_from zero N (fun i => if Nat.ltb j i then vec_at x i [*] at_ N N L i j else zero)
    = vec_at y j.
Proof.
  intros Hy Hd x. subst x. unfold backward_substitution, for_down.
  pose (P := fun (k : nat) (x : Vec) =>
               length x = N /\
               (forall j, k <= j < N ->
                  vec_at x j [*] at_ N N L j j [+]
                  sum_from zero N (fun i =>
                    if Nat.ltb j i then vec_at x i [*] at_ N N L i j else zero)
                  = vec_at y j) /\
               (forall j, j < k -> vec_at x j = vec_at y j)).
  assert (H : P 0 (do_down N (fun k x =>
                let x := for_range (k + 1) N (fun i x =>
                  upd k (vec_at x k [-] vec_at x i [*] at_ N N L i k) x) x in
                upd k (vec_at x k [/] at_ N N L k k) x) y)).
  { apply (do_down_ind P); unfold P.
    - split; [exact Hy |]. split; [intros; lia | reflexivity].
    - intros k x Hk (Hl & Hhi & Hlo). cbv beta zeta.
      rewrite !(subtract_above x k N (fun i => at_ N N L i k)) by lia.
      rewrite !upd_upd. rewrite !vec_at_upd_same by lia.
      set (v := (vec_at x k [-]
                 sum_from zero N (fun i =>
                   if Nat.ltb k i then vec_at x i [*] at_ N N L i k else zero))
                [/] at_ N N L k k).
      assert (Hsame : forall i, i <> k -> vec_at (upd k v x) i = vec_at x i).
      { intros i Hi. now apply vec_at_upd_other. }
      split; [now rewrite upd_length |]. split.
      + intros j Hj. destruct (Nat.eq_dec j k) as [->|Hne].
        * rewrite (sum_from_ext zero N _
                     (fun i => if Nat.ltb k i then vec_at x i [*] at_ N N L i k
                               else zero)).
          2:{ intros i Hi. destruct (Nat.ltb_spec k i); [| reflexivity].
              rewrite Hsame by lia. reflexivity. }
          rewrite vec_at_upd_same by lia.
          rewrite <- (Hlo k) by lia. unfold v. field. apply Hd. lia.
        * rewrite (sum_from_ext zero N _
                     (fun i => if Nat.ltb j i then vec_at x i [*] at_ N N L i j
                               else zero)).
          2:{ intros i Hi. destruct (Nat.ltb_spec j i); [| reflexivity].
              rewrite Hsame by lia. reflexivity. }
          rewrite Hsame by lia. apply Hhi. lia.
      + intros j Hj. rewrite Hsame by lia. apply Hlo. lia. }
  destruct H as (Hl & Hhi & _). split; [exact Hl |].
  intros j Hj. apply Hhi. lia.
Qed.

Lemma cholesky_solve_unfold N (L : Mat) (b x0 : Vec) :
  cholesky_solve N L b x0 = backward_substitution N L (forward_substitution N L b).
Proof. reflexivity. Qed.

(** What [cholesky_solve] returns, for a lower triangular [L] without a
    zero on its diagonal: the solution of [(L * transpose(L)) x = b]. *)
Lemma cholesky_solve_solves N (L : Mat) (b x0 : Vec) :
  length b = N ->
  (forall k, k < N -> at_ N N L k k <> zero) ->
  (forall j k, j < k < N -> at_ N N L j k = zero) ->
  length (cholesky_solve N L b x0) = N /\
  mat_mul_vec N N (mat_mul N N N L (transpose N N L)) (cholesky_solve N L b x0) = b.
Proof.
  intros Hb Hd Hup. rewrite cholesky_solve_unfold.
  destruct (forward_substitution_spec N L b Hb Hd) as [Hly Hy].
  destruct (backward_substitution_spec N L (forward_substitution N L b) Hly Hd)
    as [Hlx Hx].
  set (y := forward_substitution N L b) in *.
  set (x := backward_substitution N L y) in *.
  split; [exact Hlx |].
  destruct (mat_mul_vec_spec N N (mat_mul N N N L (transpose N N L)) x) as [Hl Hv].
  apply (nth_ext_len _ _ indet); [now rewrite Hl, Hb |].
  rewrite Hl. intros k Hk.
  fold (vec_at (mat_mul_vec N N (mat_mul N N N L (transpose N N L)) x) k).
  fold (vec_at b k). rewrite Hv by assumption.
  (* (L L^T x)_k = sum_i L(k, i) y_i *)
  rewrite (sum_from_ext zero N _
             (fun j => sum_from zero N (fun i =>
                         at_ N N L k i [*] at_ N N L j i [*] vec_at x j))).
  2:{ intros j Hj. rewrite at_mat_mul by assumption.
      rewrite <- sum_from_scale_r. apply sum_from_ext. intros i Hi.
      now rewrite at_transpose by assumption. }
  rewrite sum_from_swap.
  rewrite (sum_from_ext zero N _ (fun i => at_ N N L k i [*] vec_at y i)).
  2:{ intros i Hi.
      rewrite (sum_from_ext zero N _
                 (fun j => at_ N N L k i [*] (vec_at x j [*] at_ N N L j i)))
        by (intros j Hj; ring).
      rewrite sum_from_scale_l. f_equal.
      rewrite (sum_from_after N (fun j => vec_at x j [*] at_ N N L j i) i Hi).
      - apply Hx. exact Hi.
      - intros j Hj. rewrite (Hup j i) by lia. ring. }
  rewrite (sum_from_until N (fun i => at_ N N L k i [*] vec_at y i) k Hk).
  - rewrite <- (Hy k Hk). f_equal; [| ring].
    apply sum_from_ext. intros i Hi. ring.
  - intros i Hi. rewrite (Hup k i) by lia. ring.
Qed.

(** X28: in exact arithmetic, for a lower triangular matrix [L] without a
    zero on its diagonal and a vector [b], [cholesky_solve(L, b, x)] leaves
    in [x], whatever it held, a vector with [(L * transpose(L)) * x = b]. *)
Theorem cholesky_solve_correct :
  forall (N : nat) (L : Mat) (b x0 : Vec),
    length b = N ->
    (forall k, k < N -> at_ N N L k k <> zero) ->
    (forall j k, j < k < N -> at_ N N L j k = zero) ->
    let x := cholesky_solve N L b x0 in
    length x = N /\
    mat_mul_vec N N (mat_mul N N N L (transpose N N L)) x = b /\
    (forall x1 : Vec, cholesky_solve N L b x1 = x).
Proof.
  intros N L b x0 Hb Hd Hup x. subst x.
  destruct (cholesky_solve_solves N L b x0 Hb Hd Hup) as [H1 H2].
  split; [exact H1 |]. split; [exact H2 | reflexivity].
Qed.

End CholeskySolve.

(** X28 at the rational matrix [L = [[2, 0], [1, 3]]] and [b = (2, 7)]:
    [L * transpose(L)] is [[4, 2], [2, 10]]. *)
Lemma cholesky_solve_correct_witness :
  length (cholesky_solve 2 (map rat [2; 1; 0; 3]%Z) (map rat [2; 7]%Z) []) = 2 /\
  mat_mul_vec 2 2
    (mat_mul 2 2 2 (map rat [2; 1; 0; 3]%Z) (transpose 2 2 (map rat [2; 1; 0; 3]%Z)))
    (cholesky_solve 2 (map rat [2; 1; 0; 3]%Z) (map rat [2; 7]%Z) [])
    = map rat [2; 7]%Z /\
  (forall x1 : list Qc,
     cholesky_solve 2 (map rat [2; 1; 0; 3]%Z) (map rat [2; 7]%Z) x1
     = cholesky_solve 2 (map rat [2; 1; 0; 3]%Z) (map rat [2; 7]%Z) []).
Proof.
  apply (@cholesky_solve_correct Qc Scalar_Qc ExactField_Qc 2
           (map rat [2; 1; 0; 3]%Z) (map rat [2; 7]%Z) []).
  - reflexivity.
  - intros k Hk. destruct k as [|[|k]]; [| | lia]; vm_compute; discriminate.
  - intros j k Hjk. destruct j as [|j]; destruct k as [|[|k]]; try lia.
    vm_compute. reflexivity.
Defined.

(** * More properties: the Cholesky factor *)

(** ** What [cholesky_decompose] stores, in every scalar type *)

Section CholeskyValues.
Context {T : Type} {ST : Scalar T} {SQ : SqrtOp T}.
Local Abbreviation Mat := (@Mat T).

(** The elements left of the diagonal that one turn of the outer loop
    writes in row [j]. *)
Lemma cholesky_row_values N (A L : Mat) j (spd : bool) :
  wf N N L -> j < N ->
  let L1 := snd (fst (cholesky_row N A j (spd, L, zero))) in
  forall k, k < j ->
    at_ N N L1 j k =
    (at_ N N A j k [-] sum_from zero k (fun i => at_ N N L1 k i [*] at_ N N L1 j i))
    [/] at_ N N L1 k k.
Proof.
  intros HL Hj L1. subst L1. unfold cholesky_row.
  pose (P := fun (n : nat) (st : bool * Mat * T) =>
               wf N N (snd (fst st)) /\
               (forall a b, a < N -> (a <> j \/ n <= b) ->
                  at_ N N (snd (fst st)) a b = at_ N N L a b) /\
               (forall k, k < n ->
                  at_ N N (snd (fst st)) j k =
                  (at_ N N A j k [-]
                   sum_from zero k (fun i => at_ N N (snd (fst st)) k i [*]
                                             at_ N N (snd (fst st)) j i))
                  [/] at_ N N (snd (fst st)) k k)).
  assert (H : P j (for_range 0 j (fun k '(spd, L, d) =>
                let s := zero in
                let s := for_range 0 k (fun i s =>
                  s [+] at_ N N L k i [*] at_ N N L j i) s in
                let s := (at_ N N A j k [-] s) [/] at_ N N L k k in
                let L := set_ N N L j k s in
                let d := d [+] s [*] s in
                let spd := (spd && (at_ N N A k j [==] at_ N N A j k))%bool in
                (spd, L, d)) (spd, L, zero))).
  { apply (for_range_ind P); unfold P; [lia | |].
    - cbn [fst snd]. split; [exact HL |]. split; [reflexivity | intros; lia].
    - intros k [[spd1 L1] d1] Hk (Hwf & Hfr & Hval). cbn [fst snd] in *.
      set (s := (at_ N N A j k [-]
                 for_range 0 k (fun i s0 => s0 [+] at_ N N L1 k i [*] at_ N N L1 j i) zero)
                [/] at_ N N L1 k k).
      assert (Hother : forall a b, a < N -> (a, b) <> (j, k) ->
                at_ N N (set_ N N L1 j k s) a b = at_ N N L1 a b).
      { intros a b Ha Hab. apply at_set_other; try assumption; try lia.
        intros E. apply Hab. now inversion E. }
      split; [now apply set_wf |]. split.
      + intros a b Ha Hab. rewrite Hother.
        * apply Hfr; [assumption |]. destruct Hab; [now left | right; lia].
        * assumption.
        * intros E. inversion E. lia.
      + intros k' Hk'.
        assert (Hsum : sum_from zero k' (fun i =>
                         at_ N N (set_ N N L1 j k s) k' i [*]
                         at_ N N (set_ N N L1 j k s) j i)
                     = sum_from zero k' (fun i => at_ N N L1 k' i [*] at_ N N L1 j i)).
        { apply sum_from_ext. intros i Hi.
          rewrite !Hother by (try lia; intros E; inversion E; lia). reflexivity. }
        rewrite Hsum.
        rewrite (Hother k' k') by (try lia; intros E; inversion E; lia).
        destruct (Nat.eq_dec k' k) as [->|Hne].
        * rewrite at_set_same by (try assumption; lia). reflexivity.
        * rewrite Hother by (try lia; intros E; inversion E; lia).
          apply Hval. lia. }
  destruct H as (_ & _ & Hval). exact Hval.
Qed.

(** The elements of the factor that [cholesky_decompose] leaves in [L],
    whatever the flag: left of the diagonal, the quotient by the diagonal
    element of the row above; on the diagonal, the square root of the
    diagonal term, or of [0] when the term is not positive. *)
Lemma cholesky_values N (A L0 : Mat) :
  wf N N L0 ->
  let L := snd (cholesky_decompose N A L0) in
  (forall j k, k < j -> j < N ->
     at_ N N L j k =
     (at_ N N A j k [-] sum_from zero k (fun i => at_ N N L k i [*] at_ N N L j i))
     [/] at_ N N L k k) /\
  (forall j, j < N ->
     at_ N N L j j =
     ssqrt (if diag_term N A L j [>] zero then diag_term N A L j else zero)).
Proof.
  intros HL0 L. subst L. unfold cholesky_decompose.
  pose (P := fun (n : nat) (st : bool * Mat) =>
               wf N N (snd st) /\
               (forall j k, k < j -> j < n ->
                  at_ N N (snd st) j k =
                  (at_ N N A j k [-]
                   sum_from zero k (fun i => at_ N N (snd st) k i [*]
                                             at_ N N (snd st) j i))
                  [/] at_ N N (snd st) k k) /\
               (forall j, j < n ->
                  at_ N N (snd st) j j =
                  ssqrt (if diag_term N A (snd st) j [>] zero
                         then diag_term N A (snd st) j else zero))).
  assert (H : P N (for_range 0 N (fun j '(spd, L) =>
                let d := zero in
                let '(spd, L, d) := cholesky_row N A j (spd, L, d) in
                let d := at_ N N A j j [-] d in
                let spd := (spd && (d [>] zero))%bool in
                let L := set_ N N L j j (ssqrt (if d [>] zero then d else zero)) in
                let L := for_range (j + 1) N (fun k L => set_ N N L j k zero) L in
                (spd, L)) (true, L0))).
  { apply (for_range_ind P); unfold P; [lia | |].
    - cbn [snd]. split; [exact HL0 |]. split; intros; lia.
    - intros j [spd L] Hj (Hwf & Hlow & Hdia). cbn [fst snd] in *.
      pose proof (cholesky_row_spec N A L j spd Hwf (proj2 Hj)) as Hrow.
      pose proof (cholesky_row_values N A L j spd Hwf (proj2 Hj)) as Hval.
      pose proof (cholesky_turn_spec N A L j spd Hwf (proj2 Hj)) as Hturn.
      cbv zeta in Hrow, Hval, Hturn.
      destruct (cholesky_row N A j (spd, L, zero)) as [[spd1 L1] d1].
      cbn [fst snd] in *.
      destruct Hrow as (Hwf1 & Hfr1 & _ & _).
      destruct Hturn as (Hwf3 & Hfr3 & Hz3 & Hd & _).
      set (d2 := at_ N N A j j [-] d1) in *.
      set (L2 := set_ N N L1 j j (ssqrt (if d2 [>] zero then d2 else zero))) in *.
      assert (Hwf2 : wf N N L2) by (now apply set_wf).
      destruct (zero_right_spec N L2 j Hwf2 (proj2 Hj)) as (_ & Hfz & _).
      set (L3 := for_range (j + 1) N (fun k L4 => set_ N N L4 j k zero) L2) in *.
      assert (Hrowj : forall b, b < j -> at_ N N L3 j b = at_ N N L1 j b).
      { intros b Hb. rewrite Hfz by (try lia; right; lia).
        unfold L2. apply at_set_other; try lia. intros E. inversion E. lia. }
      assert (Hold : forall a b, a < j -> at_ N N L3 a b = at_ N N L a b).
      { intros a b Ha. apply Hfr3; lia. }
      assert (Hold1 : forall a b, a < j -> at_ N N L1 a b = at_ N N L a b).
      { intros a b Ha. apply Hfr1; [lia | left; lia]. }
      split; [exact Hwf3 |]. split.
      + intros r k Hk Hr. destruct (Nat.eq_dec r j) as [->|Hne].
        * rewrite Hrowj by assumption. rewrite Hval by assumption.
          rewrite (Hold k k), <- (Hold1 k k) by assumption. f_equal. f_equal.
          apply sum_from_ext. intros i Hi.
          rewrite (Hold k i), <- (Hold1 k i) by assumption.
          rewrite Hrowj by lia. reflexivity.
        * rewrite !Hold by lia. rewrite Hlow by lia. f_equal. f_equal.
          apply sum_from_ext. intros i Hi. rewrite !Hold by lia. reflexivity.
      + intros r Hr. destruct (Nat.eq_dec r j) as [->|Hne].
        * rewrite <- Hd.
          rewrite Hfz by (try lia; right; lia).
          unfold L2. apply at_set_same; try assumption; lia.
        * rewrite Hold by lia. rewrite Hdia by lia.
          rewrite (diag_term_ext N A L3 L r); [reflexivity |].
          intros i Hi. apply Hold. lia. }
  destruct H as (_ & Hlow & Hdia). split; assumption.
Qed.

End CholeskyValues.

(** ** The factorisation, in exact arithmetic with square roots *)

(** The comparisons and the square root that [cholesky_decompose] relies on:
    a positive number is the square of its root, [0 < 0] does not hold, and
    [==] holds of equal numbers only. *)
Class ExactSqrt (T : Type) {ST : Scalar T} {SQ : SqrtOp T} : Prop := {
  sqrt_square : forall d : T, d [>] zero = true -> ssqrt d [*] ssqrt d = d;
  zero_not_positive : (zero : T) [>] zero = false;
  seqb_equal : forall a b : T, a [==] b = true -> a = b
}.

Lemma ExactSqrt_R : @ExactSqrt R Scalar_R SqrtOp_R.
Proof.
  constructor; simpl.
  - intros d Hd. destruct (Rlt_dec 0 d) as [H|H]; [| discriminate].
    apply R_sqrt.sqrt_sqrt. now apply Rlt_le.
  - destruct (Rlt_dec 0 0) as [H|H]; [| reflexivity].
    exfalso. now apply (Rlt_irrefl 0).
  - intros a b H. destruct (Req_dec_T a b) as [E|E]; [exact E | discriminate].
Qed.

Section CholeskyExact.
Context {T : Type} {ST : Scalar T} {SQ : SqrtOp T}.
Context {EF : ExactField T} {ES : ExactSqrt T}.
Local Abbreviation Mat := (@Mat T).
Local Abbreviation Vec := (@Vec T).

Add Field scalar_field_chol_exact : ef_field.

Lemma sum_squares_sum N (L : Mat) j k :
  sum_squares N L j k = sum_from zero k (fun i => at_ N N L j i [*] at_ N N L j i).
Proof. reflexivity. Qed.

(** On success the factor is lower triangular, has no zero on its diagonal,
    and its product with its transpose is [A]. *)
Lemma cholesky_factor N (A L0 : Mat) :
  wf N N A -> wf N N L0 ->
  fst (cholesky_decompose N A L0) = true ->
  let L := snd (cholesky_decompose N A L0) in
  wf N N L /\
  (forall j k, j < k < N -> at_ N N L j k = zero) /\
  (forall j, j < N -> at_ N N L j j <> zero) /\
  mat_mul N N N L (transpose N N L) = A.
Proof.
  intros HA HL0 Hflag L.
  destruct (cholesky_inv_final N A L0 HL0) as (HwfL & Hup & Hiff).
  destruct (cholesky_values N A L0 HL0) as [Hlow Hdia].
  fold L in HwfL, Hup, Hiff, Hlow, Hdia.
  destruct (proj1 Hiff Hflag) as [Hsym Hpos].
  assert (Hsq : forall j, j < N ->
            at_ N N L j j [*] at_ N N L j j = diag_term N A L j).
  { intros j Hj. rewrite (Hdia j Hj), (Hpos j Hj). apply sqrt_square. now apply Hpos. }
  assert (Hnz : forall j, j < N -> at_ N N L j j <> zero).
  { intros j Hj E. specialize (Hsq j Hj). rewrite E in Hsq.
    specialize (Hpos j Hj). rewrite <- Hsq in Hpos.
    replace (zero [*] zero) with (zero : T) in Hpos by ring.
    rewrite zero_not_positive in Hpos. discriminate. }
  assert (Hlower : forall j k, k <= j -> j < N ->
            sum_from zero N (fun i => at_ N N L j i [*] at_ N N L k i) = at_ N N A j k).
  { intros j k Hk Hj.
    rewrite (sum_from_until N (fun i => at_ N N L j i [*] at_ N N L k i) k)
      by (try lia; intros i Hi; rewrite (Hup k i) by lia; ring).
    destruct (Nat.eq_dec k j) as [->|Hne].
    - rewrite Hsq by assumption. unfold diag_term. rewrite sum_squares_sum. ring.
    - rewrite (Hlow j k) by lia.
      rewrite (sum_from_ext zero k (fun i => at_ N N L j i [*] at_ N N L k i)
                 (fun i => at_ N N L k i [*] at_ N N L j i))
        by (intros; ring).
      field. apply Hnz. lia. }
  split; [exact HwfL |]. split; [intros j k Hjk; apply Hup; lia |].
  split; [exact Hnz |].
  apply (mat_ext N N); [apply mat_mul_spec | exact HA |].
  intros j k Hj Hk. rewrite at_mat_mul by assumption.
  rewrite (sum_from_ext zero N _ (fun i => at_ N N L j i [*] at_ N N L k i))
    by (intros i Hi; now rewrite at_transpose).
  destruct (Nat.le_gt_cases k j) as [Hle|Hgt].
  - now apply Hlower.
  - rewrite (sum_from_ext zero N _ (fun i => at_ N N L k i [*] at_ N N L j i))
      by (intros; ring).
    rewrite Hlower by lia. symmetry. apply seqb_equal. apply Hsym; lia.
Qed.

(** X29: in exact arithmetic with square roots, when
    [cholesky_decompose(A, L)] returns [true], the factor it leaves in [L]
    is lower triangular without a zero on its diagonal, its product with its
    transpose is [A], and [cholesky_solve] with this factor solves
    [A * x = b] for every right-hand side. *)
Theorem cholesky_decompose_factors :
  forall (N : nat) (A L0 : Mat),
    wf N N A -> wf N N L0 ->
    fst (cholesky_decompose N A L0) = true ->
    let L := snd (cholesky_decompose N A L0) in
    (forall j k, j < k < N -> at_ N N L j k = zero) /\
    (forall j, j < N -> at_ N N L j j <> zero) /\
    mat_mul N N N L (transpose N N L) = A /\
    (forall b x0 : Vec,
       length b = N -> mat_mul_vec N N A (cholesky_solve N L b x0) = b).
Proof.
  intros N A L0 HA HL0 Hflag L.
  destruct (cholesky_factor N A L0 HA HL0 Hflag) as (HwfL & Hup & Hnz & Hprod).
  fold L in HwfL, Hup, Hnz, Hprod.
  split; [exact Hup |]. split; [exact Hnz |]. split; [exact Hprod |].
  intros b x0 Hb.
  destruct (cholesky_solve_solves N L b x0 Hb Hnz Hup) as [_ Hsolve].
  now rewrite Hprod in Hsolve.
Qed.

End CholeskyExact.

(** The real matrix [diag(4, 9)] and the buffer of zeros it is factored
    into. *)
Definition real_diag_4_9 : list R := [4; 0; 0; 9]%R.
Definition real_zeros_4 : list R := [0; 0; 0; 0]%R.

Lemma cholesky_real_diag_succeeds :
  fst (cholesky_decompose 2 real_diag_4_9 real_zeros_4) = true.
Proof.
  cbv beta iota zeta delta
    [cholesky_decompose cholesky_row real_diag_4_9 real_zeros_4 fst snd
     for_range for_loop set_ at_ upd nth andb
     Nat.mul Nat.add Nat.sub Nat.eqb Init.Nat.mul Init.Nat.add Init.Nat.sub
     zero one add sub mul div neg sltb seqb Scalar_R].
  repeat match goal with
         | |- context [Rlt_dec ?a ?b] => destruct (Rlt_dec a b)
         | |- context [Req_dec_T ?a ?b] => destruct (Req_dec_T a b)
         end; try reflexivity; exfalso; lra.
Qed.

(** X29 at the real matrix [diag(4, 9)]. *)
Lemma cholesky_decompose_factors_witness :
  (forall j k, j < k < 2 ->
     at_ 2 2 (snd (cholesky_decompose 2 real_diag_4_9 real_zeros_4)) j k = zero) /\
  (forall j, j < 2 ->
     at_ 2 2 (snd (cholesky_decompose 2 real_diag_4_9 real_zeros_4)) j j <> zero) /\
  mat_mul 2 2 2 (snd (cholesky_decompose 2 real_diag_4_9 real_zeros_4))
    (transpose 2 2 (snd (cholesky_decompose 2 real_diag_4_9 real_zeros_4)))
    = real_diag_4_9 /\
  (forall b x0 : list R,
     length b = 2 ->
     mat_mul_vec 2 2 real_diag_4_9
       (cholesky_solve 2 (snd (cholesky_decompose 2 real_diag_4_9 real_zeros_4)) b x0)
     = b).
Proof.
  apply (@cholesky_decompose_factors R Scalar_R SqrtOp_R ExactField_R ExactSqrt_R
           2 real_diag_4_9 real_zeros_4).
  - reflexivity.
  - reflexivity.
  - exact cholesky_real_diag_succeeds.
Defined.

(** * More properties: Gauss-Jordan elimination solves the system *)

(** ** The right-hand side through one turn *)

(** The first component of a loop on pairs whose body works on the first
    component without reading the second. *)
Lemma for_range_fst {A B : Type} (body : nat -> A * B -> A * B) (f : nat -> A -> A)
      lo hi (a0 : A) (b0 : B) :
  (forall j a b, fst (body j (a, b)) = f j a) ->
  fst (for_range lo hi body (a0, b0)) = for_range lo hi f a0.
Proof.
  intros H. unfold for_range. generalize (hi - lo) as n. intros n.
  revert lo a0 b0. induction n as [|n IH]; intros lo a0 b0; [reflexivity |].
  simpl. specialize (H lo a0 b0).
  destruct (body lo (a0, b0)) as [a1 b1]. simpl in H. subst a1. apply IH.
Qed.

Section GaussJordanRows.
Context {T : Type} {ST : Scalar T}.
Local Abbreviation Mat := (@Mat T).

(** [for (k = 0; k < M; ++k) bmat(j, k) -= bmat(c, k) * dum] on a matrix
    of [M] columns. *)
Lemma subtract_row_spec N M (m : Mat) j c (dum : T) :
  wf N M m -> j < N -> c < N -> j <> c ->
  let m' := for_range 0 M (fun k bmat =>
              set_ N M bmat j k
                (at_ N M bmat j k [-] at_ N M bmat c k [*] dum)) m in
  wf N M m' /\
  forall r k, r < N -> k < M ->
    at_ N M m' r k =
    if Nat.eqb r j then at_ N M m j k [-] at_ N M m c k [*] dum
    else at_ N M m r k.
Proof.
  intros Hwf Hj Hc Hne m'. unfold m'.
  pose (P := fun i (m1 : Mat) =>
               wf N M m1 /\
               forall r k, r < N -> k < M ->
                 at_ N M m1 r k =
                 if (Nat.eqb r j && Nat.ltb k i)%bool
                 then at_ N M m j k [-] at_ N M m c k [*] dum
                 else at_ N M m r k).
  assert (G : P M (for_range 0 M (fun k bmat =>
                set_ N M bmat j k
                  (at_ N M bmat j k [-] at_ N M bmat c k [*] dum)) m)).
  { apply (for_range_ind P); [lia | |]; unfold P.
    - split; [exact Hwf |]. intros r k _ _. now rewrite andb_false_r.
    - intros i m1 Hi [Hwf1 Hat]. split.
      + now apply set_wf.
      + intros r k Hr Hk.
        rewrite at_set by (auto; lia). rewrite !Hat by (auto; lia).
        nat_cases. }
  destruct G as [G1 G2]. split; auto.
  intros r k Hr Hk. rewrite G2 by auto.
  replace (Nat.ltb k M) with true by (symmetry; apply Nat.ltb_lt; lia).
  now rewrite andb_true_r.
Qed.

(** "reduce rows (except pivot)" of [gauss_jordan_elimination]: on [amat] it
    is the loop of [inverse]; in [bmat] every row but the pivot row loses the
    pivot row times the element that [amat] had in the pivot column. *)
Lemma gj_reduce_rows_spec N M (amat bmat : Mat) c :
  wf N N amat -> wf N M bmat -> c < N ->
  fst (gj_reduce_rows N M amat bmat c) = reduce_rows N amat c /\
  wf N M (snd (gj_reduce_rows N M amat bmat c)) /\
  forall r k, r < N -> k < M ->
    at_ N M (snd (gj_reduce_rows N M amat bmat c)) r k =
    if Nat.eqb r c then at_ N M bmat c k
    else at_ N M bmat r k [-] at_ N M bmat c k [*] at_ N N amat r c.
Proof.
  intros Ha Hb Hc. split.
  - unfold gj_reduce_rows, reduce_rows. apply for_range_fst.
    intros j a b. now destruct (negb (Nat.eqb j c)).
  - unfold gj_reduce_rows.
    pose (P := fun (n : nat) (st : Mat * Mat) =>
                 wf N N (fst st) /\
                 (forall r k, r < N -> k < N -> (n <= r \/ r = c) ->
                    at_ N N (fst st) r k = at_ N N amat r k) /\
                 wf N M (snd st) /\
                 (forall r k, r < N -> k < M ->
                    at_ N M (snd st) r k =
                    if (Nat.ltb r n && negb (Nat.eqb r c))%bool
                    then at_ N M bmat r k [-] at_ N M bmat c k [*] at_ N N amat r c
                    else at_ N M bmat r k)).
    match goal with |- wf N M (snd ?X) /\ _ => assert (G : P N X) end.
    { apply (for_range_ind P); [lia | |]; unfold P.
      - cbn [fst snd]. repeat split; auto.
      - intros j [a b] Hj (Hwa & Hfa & Hwb & Hvb). cbn [fst snd] in *.
        destruct (Nat.eqb_spec j c) as [E|Hne]; simpl negb; cbv iota.
        + cbn [fst snd]. split; [exact Hwa |]. split.
          * intros r k Hr Hk Hrk. apply Hfa; auto. lia.
          * split; [exact Hwb |]. intros r k Hr Hk. rewrite Hvb by auto.
            nat_cases.
        + cbv zeta. cbn [fst snd].
          destruct (reduce_one_row_spec N (set_ N N a j c zero) j c (at_ N N a j c))
            as [Hw1 Hr1]; [now apply set_wf | lia | exact Hc | exact Hne |].
          destruct (subtract_row_spec N M b j c (at_ N N a j c))
            as [Hw2 Hr2]; [exact Hwb | lia | exact Hc | exact Hne |].
          split; [exact Hw1 |]. split.
          * intros r k Hr Hk Hrk. rewrite Hr1 by auto.
            destruct (Nat.eqb_spec r j) as [->|Hrj]; [lia |].
            rewrite at_set_other by (try lia; intros E; inversion E; lia).
            apply Hfa; auto. lia.
          * split; [exact Hw2 |]. intros r k Hr Hk.
            rewrite Hr2 by auto. rewrite !Hvb by (auto; lia).
            rewrite (Hfa j c) by (auto; lia).
            nat_cases. }
    destruct G as (_ & _ & Hwb & Hvb). split; [exact Hwb |].
    intros r k Hr Hk. rewrite Hvb by auto.
    replace (Nat.ltb r N) with true by (symmetry; apply Nat.ltb_lt; lia).
    destruct (Nat.eqb_spec r c) as [->|Hne]; reflexivity.
Qed.

End GaussJordanRows.

(** ** The algebra of the right-hand side *)

Section GaussJordanSolve.
Context {T : Type} {ST : Scalar T} {CT : Constants T} {EF : ExactField T}.
Local Abbreviation Mat := (@Mat T).

Add Field scalar_field_gjs : ef_field.

Lemma sum_delta N r : r < N -> sum_from zero N (fun j => delta j r) = (one : T).
Proof.
  intros Hr. rewrite <- (sum_from_delta N (fun _ => one) r Hr).
  apply sum_from_ext. intros j Hj. ring.
Qed.

(** A sum does not change when two of its indices are exchanged. *)
Lemma sum_from_transp N (f : nat -> T) r c :
  r < N -> c < N ->
  sum_from zero N (fun j => f (transp r c j)) = sum_from zero N f.
Proof.
  intros Hr Hc. destruct (Nat.eq_dec r c) as [->|Hne].
  - apply sum_from_ext. intros j _. now rewrite transp_same.
  - rewrite (sum_from_ext zero N _
               (fun j => (f j [+] delta j r [*] (f c [-] f r))
                         [+] delta j c [*] (f r [-] f c))).
    + rewrite (sum_from_linear N (fun j => f j [+] delta j r [*] (f c [-] f r))
                 (fun j => delta j c) (f r [-] f c)).
      rewrite (sum_from_linear N f (fun j => delta j r) (f c [-] f r)).
      rewrite !sum_delta by assumption. ring.
    + intros j Hj. unfold transp, delta.
      destruct (Nat.eqb_spec j r) as [->|Hjr].
      * destruct (Nat.eqb_spec r c); [contradiction | ring].
      * destruct (Nat.eqb_spec j c) as [->|Hjc]; ring.
Qed.

(** The row operations made so far, as a matrix: the columns of the used
    pivots are those of the buffer, the others those of the identity. *)
Definition Em (S : nat -> nat -> T) (p : nat -> bool) (a j : nat) : T :=
  if p j then S a j else delta a j.

(** The buffer [X] of the right-hand side is the row operations applied to
    [Bp], the right-hand side with its rows exchanged as those of [A]. *)
Definition gj_sol (N M : nat) (Bp S : nat -> nat -> T) (p : nat -> bool)
           (X : nat -> nat -> T) : Prop :=
  forall a k, a < N -> k < M ->
    X a k = sum_from zero N (fun j => Em S p a j [*] Bp j k).

Lemma gj_sol_init N M (B S : nat -> nat -> T) : gj_sol N M B S (fun _ => false) B.
Proof.
  intros a k Ha Hk. unfold Em. symmetry.
  apply (sum_from_delta_l N (fun j => B j k) a Ha).
Qed.

Lemma gj_sol_ext N M (Bp Bp' S S' : nat -> nat -> T) (p p' : nat -> bool)
      (X X' : nat -> nat -> T) :
  (forall j k, j < N -> k < M -> Bp' j k = Bp j k) ->
  (forall a j, a < N -> j < N -> S' a j = S a j) ->
  (forall i, i < N -> p' i = p i) ->
  (forall a k, a < N -> k < M -> X' a k = X a k) ->
  gj_sol N M Bp S p X -> gj_sol N M Bp' S' p' X'.
Proof.
  intros HB HS Hp HX H a k Ha Hk.
  rewrite HX, (H a k Ha Hk) by assumption.
  apply sum_from_ext. intros j Hj. unfold Em.
  now rewrite HB, Hp, HS by assumption.
Qed.

(** Exchanging two unused rows. *)
Lemma gj_sol_swap N M (Bp S : nat -> nat -> T) (p : nat -> bool) X r c :
  r < N -> c < N -> p r = false -> p c = false ->
  gj_sol N M Bp S p X ->
  gj_sol N M (fun j k => Bp (transp r c j) k) (fun a j => S (transp r c a) j) p
         (fun a k => X (transp r c a) k).
Proof.
  intros Hr Hc Hpr Hpc H a k Ha Hk.
  assert (Hfix : forall i, p i = true -> transp r c i = i).
  { intros i Hi. apply transp_fix; intros ->; congruence. }
  assert (Hpt : forall j, p (transp r c j) = p j).
  { intros j. unfold transp. destruct (Nat.eqb_spec j r) as [->|?]; [congruence |].
    destruct (Nat.eqb_spec j c) as [->|?]; [congruence | reflexivity]. }
  rewrite (H (transp r c a) k) by (auto using transp_lt).
  rewrite <- (sum_from_transp N
                (fun j => Em S p (transp r c a) j [*] Bp j k) r c Hr Hc).
  apply sum_from_ext. intros j Hj. f_equal. unfold Em. rewrite Hpt.
  destruct (p j) eqn:Hpj.
  - now rewrite (Hfix j Hpj).
  - unfold delta. now rewrite transp_eqb.
Qed.

(** A pivot step on the unused diagonal position [(c, c)]. *)
Lemma gj_sol_pivot N M (Bp S S' : nat -> nat -> T) (p : nat -> bool) X X' c :
  c < N -> p c = false ->
  (forall r k, r < N -> k < N ->
     S' r k =
     if Nat.eqb r c
     then (if Nat.eqb k c then one else S c k) [*] (one [/] S c c)
     else if Nat.eqb k c
          then zero [-] (one [*] (one [/] S c c)) [*] S r c
          else S r k [-] (S c k [*] (one [/] S c c)) [*] S r c) ->
  (forall r k, r < N -> k < M ->
     X' r k =
     if Nat.eqb r c then X c k [*] (one [/] S c c)
     else X r k [-] (X c k [*] (one [/] S c c)) [*] S r c) ->
  gj_sol N M Bp S p X ->
  gj_sol N M Bp S' (fun i => Nat.eqb i c || p i)%bool X'.
Proof.
  intros Hc Hpc HS' HX' H a k Ha Hk.
  set (rp := one [/] S c c) in *.
  rewrite HX' by assumption.
  destruct (Nat.eqb_spec a c) as [->|Hac].
  - rewrite (H c k Hc Hk). rewrite <- sum_from_scale_r.
    apply sum_from_ext. intros j Hj. unfold Em.
    rewrite (HS' c j Hc Hj). rewrite Nat.eqb_refl.
    destruct (Nat.eqb_spec j c) as [->|Hjc]; simpl.
    + rewrite Hpc. unfold delta. rewrite Nat.eqb_refl. ring.
    + destruct (p j); [ring |]. unfold delta.
      destruct (Nat.eqb_spec c j); [congruence | ring].
  - rewrite (H a k Ha Hk), (H c k Hc Hk).
    transitivity
      (sum_from zero N (fun j =>
         Em S p a j [*] Bp j k [+]
         (Em S p c j [*] Bp j k) [*] (zero [-] rp [*] S a c))).
    + rewrite (sum_from_linear N (fun j => Em S p a j [*] Bp j k)
                 (fun j => Em S p c j [*] Bp j k) (zero [-] rp [*] S a c)).
      ring.
    + apply sum_from_ext. intros j Hj. unfold Em.
      rewrite (HS' a j Ha Hj).
      destruct (Nat.eqb_spec a c); [contradiction |].
      destruct (Nat.eqb_spec j c) as [->|Hjc]; simpl.
      * rewrite Hpc. unfold delta. rewrite Nat.eqb_refl.
        destruct (Nat.eqb_spec a c); [contradiction |]. fold rp. ring.
      * destruct (p j); [fold rp; ring |]. unfold delta.
        destruct (Nat.eqb_spec c j); [congruence |]. ring.
Qed.

(** ** The main loop *)

Hypothesis epsilon_positive : sabs zero [<] epsilon = true.

(** The invariant of the main loop of [gauss_jordan_elimination] after [i]
    turns: that of [inverse] on the buffer of [A], and the right-hand side
    as the same row operations applied to [b]. *)
Definition gj_inv (N M : nat) (a b : Mat) (i : nat) (st : @gj_state T) : Prop :=
  let '(amat, bmat, ipiv, indxr, indxc) := st in
  inverse_inv N a i (amat, ipiv, indxr, indxc) /\
  wf N M bmat /\
  gj_sol N M (fun j k => at_ N M b (perm_upto indxr indxc i j) k)
         (at_ N N amat) (used ipiv) (at_ N M bmat).

Lemma gj_inv_init N M (a b : Mat) :
  wf N N a -> wf N M b -> gj_inv N M a b 0 (gj_init N a b).
Proof.
  intros Ha Hb. unfold gj_inv, gj_init.
  split; [now apply inverse_inv_init |]. split; [exact Hb |].
  apply (gj_sol_ext N M (at_ N M b) _ (at_ N N a) _ (fun _ => false) _
           (at_ N M b) _).
  - reflexivity.
  - reflexivity.
  - intros c Hc. unfold used. rewrite ipiv_init_zeros. now rewrite nth_repeat.
  - reflexivity.
  - apply gj_sol_init.
Qed.

Lemma gj_step_keeps N M (a b : Mat) i (st st' : @gj_state T) :
  i < N -> gj_inv N M a b i st ->
  gj_step N M i st = inl st' ->
  gj_inv N M a b (S i) st'.
Proof.
  intros Hi Hinv.
  destruct st as [[[[amat bmat] ipiv] indxr] indxc].
  destruct Hinv as (Hainv & Hwfb & Hsol).
  pose proof Hainv as (Hwf & Hlp & Hlr & Hlc & Hcnt & Hrng & Hrel).
  unfold gj_step.
  destruct (ps_maxr (find_pivot N ipiv amat)) as [r|] eqn:Er; [| discriminate].
  destruct (ps_maxc (find_pivot N ipiv amat)) as [c|] eqn:Ec; [| discriminate].
  destruct (find_pivot_found N ipiv amat r c Er Ec) as (Hr & Hc & Hur & Huc).
  destruct (swap_if_distinct N N amat r c Hwf Hr Hc) as [Hwf1 H1].
  destruct (swap_if_distinct N M bmat r c Hwfb Hr Hc) as [Hwfb1 Hb1].
  set (amat1 := if negb (Nat.eqb r c) then swap_rows N N amat r c else amat) in *.
  set (bmat1 := if negb (Nat.eqb r c) then swap_rows N M bmat r c else bmat) in *.
  assert (Epair : (if negb (Nat.eqb r c)
                   then (swap_rows N N amat r c, swap_rows N M bmat r c)
                   else (amat, bmat)) = (amat1, bmat1)).
  { unfold amat1, bmat1. now destruct (negb (Nat.eqb r c)). }
  rewrite Epair.
  destruct (sabs (at_ N N amat1 c c) [<] epsilon) eqn:Et; [discriminate |].
  set (rpivot := one [/] at_ N N amat1 c c).
  set (amat2 := set_ N N amat1 c c one).
  set (amat3 := set_row N N amat2 c (vec_scale (row N N amat2 c) rpivot)).
  set (bmat2 := set_row N M bmat1 c (vec_scale (row N M bmat1 c) rpivot)).
  assert (Hwf2 : wf N N amat2) by (now apply set_wf).
  destruct (set_row_spec N N amat2 c (vec_scale (row N N amat2 c) rpivot) Hwf2 Hc)
    as [Hwf3 H3].
  fold amat3 in Hwf3, H3.
  destruct (set_row_spec N M bmat1 c (vec_scale (row N M bmat1 c) rpivot) Hwfb1 Hc)
    as [Hwfb2 Hb2].
  fold bmat2 in Hwfb2, Hb2.
  destruct (gj_reduce_rows_spec N M amat3 bmat2 c Hwf3 Hwfb2 Hc) as (Hfst & Hwfb4 & Hb4).
  destruct (gj_reduce_rows N M amat3 bmat2 c) as [amat4 bmat4].
  cbn [fst snd] in Hfst, Hwfb4, Hb4. subst amat4.
  intros E. inversion E; subst st'; clear E.
  (* the buffer of [A] goes through the turn of [inverse] *)
  assert (Hinverse : inverse_step N i (amat, ipiv, indxr, indxc)
                     = inl (reduce_rows N amat3 c,
                            upd c (S (nth c ipiv 0)) ipiv, upd i r indxr, upd i c indxc)).
  { unfold inverse_step. rewrite Er, Ec. fold amat1. rewrite Et. reflexivity. }
  pose proof (inverse_step_keeps epsilon_positive N a i _ _ Hi Hainv Hinverse) as Hnext.
  unfold gj_inv. split; [exact Hnext |]. split; [exact Hwfb4 |].
  (* the right-hand side *)
  destruct (pivot_turn_elements N amat1 c Hwf1 Hc) as [_ H4].
  cbv zeta in H4. fold rpivot amat2 amat3 in H4.
  assert (Hpr : used ipiv r = false) by (unfold used; now apply Nat.eqb_neq).
  assert (Hpc : used ipiv c = false) by (unfold used; rewrite Huc; reflexivity).
  pose proof (gj_sol_swap N M _ _ _ _ r c Hr Hc Hpr Hpc Hsol) as Hs.
  assert (Hs1 : gj_sol N M
            (fun j k => at_ N M b (perm_upto indxr indxc i (transp r c j)) k)
            (at_ N N amat1) (used ipiv) (at_ N M bmat1)).
  { revert Hs. apply gj_sol_ext; auto. }
  assert (Hrow_b : forall k, k < M ->
            at_ N M bmat2 c k = at_ N M bmat1 c k [*] rpivot).
  { intros k Hk. rewrite Hb2 by assumption. rewrite Nat.eqb_refl.
    destruct (row_spec N M bmat1 c) as [Hlen Hrow].
    destruct (vec_scale_spec (row N M bmat1 c) rpivot) as [_ Hscale].
    rewrite Hscale by (rewrite Hlen; exact Hk). now rewrite Hrow. }
  assert (HX' : forall a0 k, a0 < N -> k < M ->
            at_ N M bmat4 a0 k =
            if Nat.eqb a0 c then at_ N M bmat1 c k [*] rpivot
            else at_ N M bmat1 a0 k [-] (at_ N M bmat1 c k [*] rpivot)
                 [*] at_ N N amat1 a0 c).
  { intros a0 k Ha0 Hk. rewrite Hb4 by assumption.
    destruct (Nat.eqb_spec a0 c) as [->|Hne]; [now apply Hrow_b |].
    rewrite Hrow_b by assumption.
    rewrite (Hb2 a0 k) by assumption.
    destruct (Nat.eqb_spec a0 c); [contradiction |].
    rewrite (H3 a0 c) by assumption.
    destruct (Nat.eqb_spec a0 c); [contradiction |].
    unfold amat2. rewrite at_set_other by (try lia; intros E; inversion E; lia).
    reflexivity. }
  pose proof (gj_sol_pivot N M _ (at_ N N amat1) _ (used ipiv) (at_ N M bmat1) _ c
                Hc Hpc H4 HX' Hs1) as Hp.
  revert Hp. apply gj_sol_ext.
  - intros j k Hj Hk. simpl.
    rewrite !nth_upd_same by lia.
    now rewrite perm_upto_upd_r, perm_upto_upd_c by lia.
  - reflexivity.
  - intros x Hx. unfold used. rewrite nth_upd by lia. rewrite Huc.
    destruct (Nat.eqb_spec c x) as [->|Hne].
    + rewrite !Nat.eqb_refl. reflexivity.
    + destruct (Nat.eqb_spec x c); [congruence | reflexivity].
  - reflexivity.
Qed.

Lemma gj_turns_inv N M (a b : Mat) n st :
  wf N N a -> wf N M b -> n <= N ->
  gj_turns N M n a b = inl st -> gj_inv N M a b n st.
Proof.
  intros Ha Hb Hn H. unfold gj_turns in H.
  apply (for_loop_ret_ind (gj_inv N M a b) (gj_step N M) n (gj_init N a b) st).
  - now apply gj_inv_init.
  - intros i si si' Hi Hinv Hstep.
    apply (gj_step_keeps N M a b i si si'); auto. lia.
  - exact H.
Qed.

(** The inverse of the exchanges of rows made in [i] turns. *)
Fixpoint perm_back (indxr indxc : list nat) (i : nat) (a : nat) : nat :=
  match i with
  | 0 => a
  | S i' => transp (nth i' indxr 0) (nth i' indxc 0) (perm_back indxr indxc i' a)
  end.

Lemma perm_upto_back indxr indxc i a :
  perm_upto indxr indxc i (perm_back indxr indxc i a) = a.
Proof.
  revert a. induction i as [|i IH]; intros a; [reflexivity |].
  simpl. rewrite transp_involutive. apply IH.
Qed.

Lemma perm_back_lt N indxr indxc i :
  (forall i', i' < i -> nth i' indxr 0 < N /\ nth i' indxc 0 < N) ->
  forall a, a < N -> perm_back indxr indxc i a < N.
Proof.
  induction i as [|i IH]; intros H a Ha; [exact Ha |].
  simpl. destruct (H i ltac:(lia)) as [Hr Hc].
  apply transp_lt; try assumption. apply IH; [| exact Ha].
  intros i' Hi'. apply H. lia.
Qed.

(** What a successful call leaves in its two output buffers. *)
Lemma gauss_jordan_solves N M (a b ainv0 x0 ainv x : Mat) :
  wf N N a -> wf N M b ->
  gauss_jordan_elimination N M a b ainv0 x0 = Ret (true, ainv, x) ->
  (wf N N ainv /\ wf N M x) /\
  mat_mul N N N a ainv = identity N N /\
  mat_mul N N M a x = b.
Proof.
  intros Ha Hb H.
  rewrite gauss_jordan_elimination_turns in H.
  destruct (gj_turns N M N a b) as [[[[[amat bmat] ipiv] indxr] indxc]|r] eqn:E.
  - inversion H; subst ainv x; clear H.
    destruct (gj_turns_inv N M a b N _ Ha Hb (Nat.le_refl N) E)
      as (Hainv & Hwfb & Hsol).
    destruct Hainv as (Hwfr & Hlp & _ & _ & Hcnt & Hrng & Hrel).
    assert (Hall : forall c, c < N -> used ipiv c = true).
    { intros c Hc. unfold used.
      rewrite (count_ones_full ipiv) by lia. reflexivity. }
    assert (Hfin : forall a0 k, a0 < N -> k < N ->
              sum_from zero N (fun j =>
                at_ N N a (perm_upto indxr indxc N a0) j [*] at_ N N amat j k)
              = delta a0 k).
    { intros a0 k Ha0 Hk. specialize (Hrel a0 k Ha0 Hk).
      unfold Ym, sgn in Hrel. rewrite (Hall a0 Ha0) in Hrel. rewrite <- Hrel.
      apply sum_from_ext. intros j Hj.
      unfold Xm, sgn. now rewrite (Hall j Hj), (Hall k Hk). }
    destruct (undo_column_swaps_spec N a amat indxr indxc Hwfr Hrng Hfin)
      as [Hwfu Hu].
    split; [split; assumption |]. split.
    + apply (mat_ext N N); [apply mat_mul_spec | apply identity_wf |].
      intros a0 k Ha0 Hk. rewrite at_mat_mul, at_identity by assumption.
      now apply Hu.
    + apply (mat_ext N M); [apply mat_mul_spec | exact Hb |].
      intros a1 k Ha1 Hk. rewrite at_mat_mul by assumption.
      set (a0 := perm_back indxr indxc N a1).
      assert (Ha0 : a0 < N) by (now apply perm_back_lt).
      assert (Hperm : perm_upto indxr indxc N a0 = a1) by apply perm_upto_back.
      rewrite <- Hperm.
      rewrite (sum_from_ext zero N _
                 (fun j => sum_from zero N (fun l =>
                    at_ N N a (perm_upto indxr indxc N a0) j [*] at_ N N amat j l
                    [*] at_ N M b (perm_upto indxr indxc N l) k))).
      2:{ intros j Hj. rewrite (Hsol j k Hj Hk).
          rewrite <- sum_from_scale_l. apply sum_from_ext. intros l Hl.
          unfold Em. rewrite (Hall l Hl). ring. }
      rewrite sum_from_swap.
      rewrite (sum_from_ext zero N _
                 (fun l => delta a0 l [*] at_ N M b (perm_upto indxr indxc N l) k)).
      2:{ intros l Hl. rewrite sum_from_scale_r. now rewrite Hfin. }
      apply (sum_from_delta_l N
               (fun l => at_ N M b (perm_upto indxr indxc N l) k) a0 Ha0).
  - subst r. unfold gj_turns in E. apply for_loop_ret_inr in E.
    destruct E as (i & st & _ & _ & Hbad). exfalso.
    now apply (gj_step_never_true N M (0 + i) st ainv x).
Qed.

(** X30: in exact arithmetic (with [|0| < epsilon]), when
    [gauss_jordan_elimination(a, b, ainv, x)] returns [true], the buffer
    [ainv] holds a right inverse of [a] and the buffer [x] a solution of
    [a * x = b], whatever the two buffers held before. *)
Theorem gauss_jordan_elimination_solves :
  forall (N M : nat) (a b ainv0 x0 ainv x : Mat),
    wf N N a -> wf N M b ->
    gauss_jordan_elimination N M a b ainv0 x0 = Ret (true, ainv, x) ->
    mat_mul N N N a ainv = identity N N /\
    mat_mul N N M a x = b /\
    wf N N ainv /\ wf N M x.
Proof.
  intros N M a b ainv0 x0 ainv x Ha Hb H.
  destruct (gauss_jordan_solves N M a b ainv0 x0 ainv x Ha Hb H)
    as ((Hw1 & Hw2) & H1 & H2).
  repeat split; assumption.
Qed.

End GaussJordanSolve.

(** The two output buffers of a call (empty when it raises). *)
Definition solved_buffers {T : Type} (o : outcome (bool * @Mat T * @Mat T))
  : @Mat T * @Mat T :=
  match o with
  | Ret (_, ainv, x) => (ainv, x)
  | Undef => ([], [])
  end.

(** Whether an outcome of [gauss_jordan_elimination] is a success. *)
Definition gj_succeeds {T : Type} (o : outcome (bool * @Mat T * @Mat T)) : bool :=
  match o with
  | Ret (true, _, _) => true
  | _ => false
  end.

Lemma gj_succeeds_true {T : Type} (o : outcome (bool * @Mat T * @Mat T)) :
  gj_succeeds o = true ->
  o = Ret (true, fst (solved_buffers o), snd (solved_buffers o)).
Proof.
  destruct o as [[[[|] ainv] x]|]; simpl; try discriminate. reflexivity.
Qed.

(** The system [2 x + y = 3], [x + y = 2] over the rationals. *)
Definition rat_solved : list Qc * list Qc :=
  solved_buffers
    (@gauss_jordan_elimination Qc Scalar_Qc Constants_Qc 2 1
       rat_A2 (map rat [3; 2]%Z) [] []).

(** X30 at the rational system [2 x + y = 3], [x + y = 2]. *)
Lemma gauss_jordan_elimination_solves_witness :
  mat_mul 2 2 2 rat_A2 (fst rat_solved) = identity 2 2 /\
  mat_mul 2 2 1 rat_A2 (snd rat_solved) = map rat [3; 2]%Z /\
  wf 2 2 (fst rat_solved) /\ wf 2 1 (snd rat_solved).
Proof.
  assert (Heps : sabs zero [<] @epsilon Qc Constants_Qc = true)
    by (vm_compute; reflexivity).
  apply (@gauss_jordan_elimination_solves Qc Scalar_Qc Constants_Qc ExactField_Qc
           Heps 2 1 rat_A2 (map rat [3; 2]%Z) [] []).
  - reflexivity.
  - reflexivity.
  - apply gj_succeeds_true. vm_compute. reflexivity.
Defined.
